(** * kindr: angle wrapping and the quaternion value types

    A shallow embedding of [rm/common/common.hpp] and
    [rm/quaternions/QuaternionEigen.hpp].

    The C++ type [double] is IEEE 754 binary64; it is modelled by Rocq's
    primitive floats, whose operations are the binary64 operations with
    rounding to nearest, ties to even.  The C++ type [float] is binary32; it is
    modelled by the Standard Library's specification of IEEE arithmetic,
    instantiated at precision 24 and maximal exponent 128.

    Statements about accuracy compare the doubles that the code computes
    with exact values, which are real numbers. *)

From Stdlib Require Import Reals Lra Lia Psatz.
From Stdlib Require Import ZArith Bool String.
From Stdlib Require Import Floats.PrimFloat Floats.SpecFloat Floats.FloatOps.
From Stdlib Require Import Floats.FloatAxioms.
From Stdlib Require Import Uint63.

(* Decimal constants are written as in the C++ sources; like the C++ compiler,
   Rocq reads each one as the nearest binary64 value. *)
Set Warnings "-inexact-float".

Local Open Scope float_scope.

(** ** Scalar types *)

(** [double]. *)
Definition double : Set := float.
Bind Scope float_scope with double.

(** [float]: binary32 values, as the IEEE specification represents them. *)
Definition float32 : Set := spec_float.

Module binary32.

Definition prec : Z := 24.
Definition emax : Z := 128.

(** Conversion of a double to the nearest binary32 value. *)
Definition of_double (d : double) : float32 :=
  match Prim2SF d with
  | S754_finite s m e => binary_round prec emax s m e
  | v => v
  end.

(** Every binary32 value is a binary64 value. *)
Definition to_double (f : float32) : double := SF2Prim f.

End binary32.

(** The arithmetic a scalar type [PrimType] of the templates has to offer:
    the conversion of a constant of the source text, the four operations,
    negation, [fabs], [sqrt] and the comparison [<=]. *)
Class Scalar (PrimType : Type) : Type := {
  constant : double -> PrimType;
  plus : PrimType -> PrimType -> PrimType;
  minus : PrimType -> PrimType -> PrimType;
  times : PrimType -> PrimType -> PrimType;
  divide : PrimType -> PrimType -> PrimType;
  negate : PrimType -> PrimType;
  fabs : PrimType -> PrimType;
  sqrt : PrimType -> PrimType;
  less_equal : PrimType -> PrimType -> bool
}.

#[export] Instance Scalar_double : Scalar double := {
  constant := fun c => c;
  plus := PrimFloat.add;
  minus := PrimFloat.sub;
  times := PrimFloat.mul;
  divide := PrimFloat.div;
  negate := PrimFloat.opp;
  fabs := PrimFloat.abs;
  sqrt := PrimFloat.sqrt;
  less_equal := PrimFloat.leb
}.

#[export] Instance Scalar_float32 : Scalar float32 := {
  constant := binary32.of_double;
  plus := SFadd binary32.prec binary32.emax;
  minus := SFsub binary32.prec binary32.emax;
  times := SFmul binary32.prec binary32.emax;
  divide := SFdiv binary32.prec binary32.emax;
  negate := SFopp;
  fabs := SFabs;
  sqrt := SFsqrt binary32.prec binary32.emax;
  less_equal := SFleb
}.

(** [static_cast<Out>(v)] for a scalar [v] of type [In]. *)
Class StaticCast (In Out : Type) : Type := static_cast : In -> Out.

#[export] Instance StaticCast_same (PrimType : Type) : StaticCast PrimType PrimType :=
  fun v => v.
#[export] Instance StaticCast_double_float32 : StaticCast double float32 :=
  binary32.of_double.
#[export] Instance StaticCast_float32_double : StaticCast float32 double :=
  binary32.to_double.

(** ** The C library on [double] *)

Module cmath.

(** [floor]: the largest integral value not greater than the argument.  A
    finite non-zero double is [(-1)^s * m * 2^e]; zeros, infinities and NaN
    are returned as they are. *)
Definition floor (x : double) : double :=
  match Prim2SF x with
  | S754_finite s m e =>
      if (0 <=? e)%Z then x
      else
        let q := Z.shiftr (Zpos m) (- e) in
        let integral := (Z.shiftl q (- e) =? Zpos m)%Z in
        if s then - of_uint63 (of_Z (if integral then q else q + 1))
        else of_uint63 (of_Z q)
  | _ => x
  end.

(** [M_PI] of <cmath>. *)
Definition M_PI : double := 3.14159265358979323846.

End cmath.

(** ** rm/common/common.hpp *)

Module common.
Import cmath.

(** [template<typename T> T Mod(const T& x, const T& y)] at [T = double],
    the instantiation the wrap functions below use ([M_PI] is a double).
    Every operation of [x - y * floor(x/y)] rounds to double on its own.
    Every [return] of the source is a leaf of the conditional. *)
Definition Mod (x y : double) : double :=
  if y =? 0 then x
  else
    let m := x - y * floor (x / y) in
    if 0 <? y then                        (* y > 0, modulo range [0..y) *)
      if y <=? m then 0                   (* m >= y *)
      else if m <? 0 then
        if y + m =? y then 0 else y + m
      else m
    else                                  (* modulo range (y..0] *)
      if m <=? y then 0
      else if 0 <? m then                 (* m > 0 *)
        if y + m =? y then 0 else y + m
      else m.

(** wrap angle to [x1..x2) *)
Definition wrapAngle (angle x1 x2 : double) : double :=
  Mod (angle - x1) (x2 - x1) + x1.

(** wrap angle to [-PI..PI) *)
Definition wrapPosNegPI (angle : double) : double :=
  Mod (angle + M_PI) (2 * M_PI) - M_PI.

(** wrap angle to [0..2*PI) *)
Definition wrapTwoPI (angle : double) : double :=
  Mod angle (2 * M_PI).

End common.

(** ** The algebraic kernel: [Eigen::Quaternion<Scalar>]

    The kernel is the linear-algebra library the quaternion classes are built
    on; only the members the classes below call are modelled. *)

Module Eigen.

(** The four coefficients; the constructor takes them in the order
    [w, x, y, z]. *)
Record Quaternion (Scalar : Type) : Type := Build {
  w : Scalar;
  x : Scalar;
  y : Scalar;
  z : Scalar
}.
Arguments Build {Scalar} w x y z.
Arguments w {Scalar} q.
Arguments x {Scalar} q.
Arguments y {Scalar} q.
Arguments z {Scalar} q.

Section Kernel.
Context {PrimType : Type} `{Scalar PrimType}.

(** [Quaternion::Identity()]. *)
Definition Identity : Quaternion PrimType :=
  Build (constant 1) (constant 0) (constant 0) (constant 0).

(** [coeffs().squaredNorm()]: the coefficient vector is stored as
    [x, y, z, w] and summed in that order. *)
Definition squaredNorm (q : Quaternion PrimType) : PrimType :=
  plus (plus (plus (times (x q) (x q)) (times (y q) (y q)))
             (times (z q) (z q)))
       (times (w q) (w q)).

(** [norm()]: the square root of [squaredNorm()]. *)
Definition norm (q : Quaternion PrimType) : PrimType :=
  sqrt (squaredNorm q).

(** [normalized()]: every coefficient divided by [norm()]; a zero norm is
    not guarded.  The in-place [normalize()] is another member of the
    kernel and is not modelled, and neither is [Quaternion::normalize()],
    which only calls it. *)
Definition normalized (q : Quaternion PrimType) : Quaternion PrimType :=
  let n := norm q in
  Build (divide (w q) n) (divide (x q) n) (divide (y q) n) (divide (z q) n).

(** [conjugate()]: the vector part negated. *)
Definition conjugate (q : Quaternion PrimType) : Quaternion PrimType :=
  Build (w q) (negate (x q)) (negate (y q)) (negate (z q)).

End Kernel.

(** [cast<NewScalar>()]: a [static_cast] of every coefficient. *)
Definition cast {In Out : Type} `{StaticCast In Out}
    (q : Quaternion In) : Quaternion Out :=
  Build (static_cast (w q)) (static_cast (x q))
        (static_cast (y q)) (static_cast (z q)).

End Eigen.

(** ** Control: exceptions and member functions that update [*this] *)

(** How an expression that may throw completes. *)
Inductive completion (A : Type) : Type :=
| Returns (a : A)
| Throws (what : string).
Arguments Returns {A} a.
Arguments Throws {A} what.

Definition completion_bind {A B : Type}
    (c : completion A) (k : A -> completion B) : completion B :=
  match c with
  | Returns a => k a
  | Throws what => Throws what
  end.

(** A non-const member function of a class with state [S]: it runs on the
    object [*this] and leaves it updated, also when it throws. *)
Definition method (S A : Type) : Type := S -> S * completion A.

Definition method_ret {S A : Type} (a : A) : method S A :=
  fun this => (this, Returns a).

Definition method_bind {S A B : Type}
    (c : method S A) (k : A -> method S B) : method S B :=
  fun this =>
    match c this with
    | (this', Returns a) => k a this'
    | (this', Throws what) => (this', Throws what)
    end.

(** An update of [*this]. *)
Definition update {S : Type} (f : S -> S) : method S unit :=
  fun this => (f this, Returns tt).

(** A const member or an assertion evaluated on the current [*this]. *)
Definition observe {S A : Type} (f : S -> completion A) : method S A :=
  fun this => (this, f this).

Declare Scope method_scope.
Delimit Scope method_scope with method.
Notation "c1 ;; c2" := (method_bind c1 (fun _ => c2))
  (at level 61, right associativity) : method_scope.

Declare Scope completion_scope.
Delimit Scope completion_scope with completion.
Notation "c1 ;; c2" := (completion_bind c1 (fun _ => c2))
  (at level 61, right associativity) : completion_scope.
Notation "a <- c1 ;; c2" := (completion_bind c1 (fun a => c2))
  (at level 61, c1 at next level, right associativity) : completion_scope.

(** ** rm/quaternions/QuaternionEigen.hpp *)

(** [class Quaternion]: the object is its private base, an
    [Eigen::Quaternion<PrimType>]. *)
Record Quaternion (PrimType : Type) : Type := Quaternion_of_Base {
  Quaternion_toImplementation : Eigen.Quaternion PrimType
}.
Arguments Quaternion_of_Base {PrimType} _.
Arguments Quaternion_toImplementation {PrimType} _.

(** [class UnitQuaternion]: it owns one [Quaternion], the member [uq]. *)
Record UnitQuaternion (PrimType : Type) : Type := UnitQuaternion_of_uq {
  uq : Quaternion PrimType
}.
Arguments UnitQuaternion_of_uq {PrimType} _.
Arguments uq {PrimType} _.

(** The message of the unit-length assertions. *)
Definition not_unit_length : string := "Input quaternion has not unit length.".

(** The const accessors of both classes; they need no arithmetic. *)
Section accessors.
Context {PrimType : Type}.

(** [Quaternion::w() const], [x() const], [y() const], [z() const] *)
Definition Quaternion_w (this : Quaternion PrimType) : PrimType :=
  Eigen.w (Quaternion_toImplementation this).
Definition Quaternion_x (this : Quaternion PrimType) : PrimType :=
  Eigen.x (Quaternion_toImplementation this).
Definition Quaternion_y (this : Quaternion PrimType) : PrimType :=
  Eigen.y (Quaternion_toImplementation this).
Definition Quaternion_z (this : Quaternion PrimType) : PrimType :=
  Eigen.z (Quaternion_toImplementation this).

(** [UnitQuaternion::toImplementation() const] *)
Definition UnitQuaternion_toImplementation (this : UnitQuaternion PrimType)
  : Eigen.Quaternion PrimType :=
  Quaternion_toImplementation (uq this).

(** [UnitQuaternion::w() const], [x() const], [y() const], [z() const] *)
Definition UnitQuaternion_w (this : UnitQuaternion PrimType) : PrimType :=
  Quaternion_w (uq this).
Definition UnitQuaternion_x (this : UnitQuaternion PrimType) : PrimType :=
  Quaternion_x (uq this).
Definition UnitQuaternion_y (this : UnitQuaternion PrimType) : PrimType :=
  Quaternion_y (uq this).
Definition UnitQuaternion_z (this : UnitQuaternion PrimType) : PrimType :=
  Quaternion_z (uq this).

End accessors.

Section eigen_implementation.
Context {PrimType : Type} `{Scalar PrimType}.

(** Whether the [_DBG] assertions are compiled in. *)
Variable checks : bool.

(** Modelled from the spec: the macro [RM_ASSERT_SCALAR_NEAR_DBG] of
    [rm/common/assert_macros_eigen.hpp], which the sources at hand include
    but do not contain.  A debug-only assertion: it compares [a] to [b]
    within [tolerance] in the scalar type of [a] and throws a
    [std::runtime_error] carrying [message] when they are further apart;
    without checks it compiles away. *)
Definition RM_ASSERT_SCALAR_NEAR_DBG
    (a b tolerance : PrimType) (message : string) : completion unit :=
  if checks then
    if less_equal (fabs (minus a b)) tolerance then Returns tt
    else Throws message
  else Returns tt.

(** *** Quaternion *)

(** [Quaternion()] *)
Definition Quaternion_default : Quaternion PrimType :=
  Quaternion_of_Base
    (Eigen.Build (constant 0) (constant 0) (constant 0) (constant 0)).

(** [Quaternion(w, x, y, z)] *)
Definition Quaternion_ctor (w x y z : PrimType) : Quaternion PrimType :=
  Quaternion_of_Base (Eigen.Build w x y z).

(** [explicit Quaternion(const Base & other)] *)
Definition Quaternion_ctor_Base
    (other : Eigen.Quaternion PrimType) : Quaternion PrimType :=
  Quaternion_of_Base other.

(** [conjugate() const] *)
Definition Quaternion_conjugate (this : Quaternion PrimType) : Quaternion PrimType :=
  Quaternion_ctor_Base (Eigen.conjugate (Quaternion_toImplementation this)).

(** A write through the reference that the non-const [w()], [x()], [y()] or
    [z()] returns: [this->w() = v]. *)
Definition Quaternion_write_w (v : PrimType) (this : Quaternion PrimType)
  : Quaternion PrimType :=
  Quaternion_of_Base
    (Eigen.Build v (Quaternion_x this) (Quaternion_y this) (Quaternion_z this)).
Definition Quaternion_write_x (v : PrimType) (this : Quaternion PrimType)
  : Quaternion PrimType :=
  Quaternion_of_Base
    (Eigen.Build (Quaternion_w this) v (Quaternion_y this) (Quaternion_z this)).
Definition Quaternion_write_y (v : PrimType) (this : Quaternion PrimType)
  : Quaternion PrimType :=
  Quaternion_of_Base
    (Eigen.Build (Quaternion_w this) (Quaternion_x this) v (Quaternion_z this)).
Definition Quaternion_write_z (v : PrimType) (this : Quaternion PrimType)
  : Quaternion PrimType :=
  Quaternion_of_Base
    (Eigen.Build (Quaternion_w this) (Quaternion_x this) (Quaternion_y this) v).

(** [norm() const] *)
Definition Quaternion_norm (this : Quaternion PrimType) : PrimType :=
  Eigen.norm (Quaternion_toImplementation this).

(** [normalized() const] *)
Definition Quaternion_normalized (this : Quaternion PrimType) : Quaternion PrimType :=
  Quaternion_ctor_Base (Eigen.normalized (Quaternion_toImplementation this)).

(** [Quaternion & operator =(const Quaternion<PrimType> & other)].  Its body
    is [*this = other; return *this;], and the assignment in it is an
    assignment of a [Quaternion<PrimType>] to a [Quaternion<PrimType>]: the
    operator being defined.  [fuel] bounds the depth of the calls; the
    result is [None] when the bound is reached before a call returns, and
    otherwise the receiver after the call. *)
Fixpoint Quaternion_assign (fuel : nat) (this other : Quaternion PrimType)
  : option (Quaternion PrimType) :=
  match fuel with
  | O => None
  | S fuel' =>
      match Quaternion_assign fuel' this other (* *this = other; *) with
      | Some this' => Some this'              (* return *this; *)
      | None => None
      end
  end.

(** *** UnitQuaternion *)

(** [norm() const] *)
Definition UnitQuaternion_norm (this : UnitQuaternion PrimType) : PrimType :=
  Quaternion_norm (uq this).

(** A write through the reference of a non-const accessor; there is no
    assertion on this path. *)
Definition UnitQuaternion_write_w (v : PrimType) (this : UnitQuaternion PrimType)
  : UnitQuaternion PrimType :=
  UnitQuaternion_of_uq (Quaternion_write_w v (uq this)).
Definition UnitQuaternion_write_x (v : PrimType) (this : UnitQuaternion PrimType)
  : UnitQuaternion PrimType :=
  UnitQuaternion_of_uq (Quaternion_write_x v (uq this)).
Definition UnitQuaternion_write_y (v : PrimType) (this : UnitQuaternion PrimType)
  : UnitQuaternion PrimType :=
  UnitQuaternion_of_uq (Quaternion_write_y v (uq this)).
Definition UnitQuaternion_write_z (v : PrimType) (this : UnitQuaternion PrimType)
  : UnitQuaternion PrimType :=
  UnitQuaternion_of_uq (Quaternion_write_z v (uq this)).

(** The assertion every validating member ends with:
    [RM_ASSERT_SCALAR_NEAR_DBG(std::runtime_error, norm(), 1, 1e-6, ...)]. *)
Definition assert_unit_length (this : UnitQuaternion PrimType) : completion unit :=
  RM_ASSERT_SCALAR_NEAR_DBG
    (UnitQuaternion_norm this) (constant 1) (constant 1e-6) not_unit_length.

(** [UnitQuaternion()]: the identity, not validated. *)
Definition UnitQuaternion_default : UnitQuaternion PrimType :=
  UnitQuaternion_of_uq (Quaternion_ctor_Base Eigen.Identity).

(** [UnitQuaternion(w, x, y, z)] *)
Definition UnitQuaternion_ctor (w x y z : PrimType)
  : completion (UnitQuaternion PrimType) :=
  let this := UnitQuaternion_of_uq (Quaternion_ctor w x y z) in
  (assert_unit_length this ;; Returns this)%completion.

(** [explicit UnitQuaternion(const Base & other)], from a [Quaternion]. *)
Definition UnitQuaternion_ctor_Base (other : Quaternion PrimType)
  : completion (UnitQuaternion PrimType) :=
  let this :=
    UnitQuaternion_of_uq (Quaternion_ctor_Base (Quaternion_toImplementation other)) in
  (assert_unit_length this ;; Returns this)%completion.

(** [explicit UnitQuaternion(const Implementation & other)] *)
Definition UnitQuaternion_ctor_Implementation (other : Eigen.Quaternion PrimType)
  : completion (UnitQuaternion PrimType) :=
  let this := UnitQuaternion_of_uq (Quaternion_ctor_Base other) in
  (assert_unit_length this ;; Returns this)%completion.

(** [conjugate() const], through the constructor from a [Quaternion]. *)
Definition UnitQuaternion_conjugate (this : UnitQuaternion PrimType)
  : completion (UnitQuaternion PrimType) :=
  UnitQuaternion_ctor_Base (Quaternion_conjugate (uq this)).

(** [UnitQuaternion & operator ()(const UnitQuaternion<PrimTypeIn> & other)]:
    [uq = other.uq; return *this;].  The member [uq] of [other] is a
    [Quaternion<PrimTypeIn>] and the only assignments to a
    [Quaternion<PrimType>] take a [Quaternion<PrimType>] or a
    [UnitQuaternion<PrimType>], so the operator is the one with
    [PrimTypeIn = PrimType]; the assignment is [Quaternion::operator =]. *)
Definition UnitQuaternion_call_UnitQuaternion
    (fuel : nat) (this other : UnitQuaternion PrimType)
  : option (UnitQuaternion PrimType) :=
  match Quaternion_assign fuel (uq this) (uq other) with
  | Some uq' => Some (UnitQuaternion_of_uq uq')
  | None => None
  end.

(** *** Members of Quaternion that mention UnitQuaternion *)

(** [Quaternion & operator =(const UnitQuaternion<PrimType> & other)]:
    [*this = Quaternion(other.toImplementation()); return *this;], an
    assignment of a [Quaternion] to a [Quaternion]. *)
Definition Quaternion_assign_UnitQuaternion
    (fuel : nat) (this : Quaternion PrimType) (other : UnitQuaternion PrimType)
  : option (Quaternion PrimType) :=
  match Quaternion_assign fuel this
          (Quaternion_ctor_Base (UnitQuaternion_toImplementation other)) with
  | Some this' => Some this'
  | None => None
  end.

(** [toUnitQuaternion() const]:
    [return UnitQuaternion<PrimType>(this->Base::normalized());] *)
Definition Quaternion_toUnitQuaternion (this : Quaternion PrimType)
  : completion (UnitQuaternion PrimType) :=
  UnitQuaternion_ctor_Implementation
    (Eigen.normalized (Quaternion_toImplementation this)).

(** *** Members templated over a second scalar type *)

Context {PrimTypeIn : Type} `{StaticCast PrimTypeIn PrimType}.

(** [Quaternion & operator ()(const Quaternion<PrimTypeIn> & other)] *)
Definition Quaternion_call_Quaternion (other : Quaternion PrimTypeIn)
  : method (Quaternion PrimType) unit :=
  (update (Quaternion_write_w (static_cast (Quaternion_w other))) ;;
   update (Quaternion_write_x (static_cast (Quaternion_x other))) ;;
   update (Quaternion_write_y (static_cast (Quaternion_y other))) ;;
   update (Quaternion_write_z (static_cast (Quaternion_z other))))%method.

(** [Quaternion & operator ()(const UnitQuaternion<PrimTypeIn> & other)] *)
Definition Quaternion_call_UnitQuaternion (other : UnitQuaternion PrimTypeIn)
  : method (Quaternion PrimType) unit :=
  (update (Quaternion_write_w (static_cast (UnitQuaternion_w other))) ;;
   update (Quaternion_write_x (static_cast (UnitQuaternion_x other))) ;;
   update (Quaternion_write_y (static_cast (UnitQuaternion_y other))) ;;
   update (Quaternion_write_z (static_cast (UnitQuaternion_z other))))%method.

(** [UnitQuaternion & operator ()(const Quaternion<PrimTypeIn> & other)]:
    four writes through the accessors, then the assertion on the norm. *)
Definition UnitQuaternion_call_Quaternion (other : Quaternion PrimTypeIn)
  : method (UnitQuaternion PrimType) unit :=
  (update (UnitQuaternion_write_w (static_cast (Quaternion_w other))) ;;
   update (UnitQuaternion_write_x (static_cast (Quaternion_x other))) ;;
   update (UnitQuaternion_write_y (static_cast (Quaternion_y other))) ;;
   update (UnitQuaternion_write_z (static_cast (Quaternion_z other))) ;;
   observe assert_unit_length)%method.

(** The member [cast<PrimType>()] that [UnitQuaternion::operator =] calls
    on its argument.  The classes at hand declare no such member, so it
    comes from [QuaternionBase.hpp], which is not among the sources: what it
    computes and whether it checks the norm is not known, and it is left
    open here.  Whatever it is, it throws or returns something that can be
    assigned to the member [uq], which is a [Quaternion<PrimType>] or a
    [UnitQuaternion<PrimType>], the two argument types of
    [Quaternion::operator =]. *)
Variable UnitQuaternion_cast :
  UnitQuaternion PrimTypeIn ->
  completion (Quaternion PrimType + UnitQuaternion PrimType).

(** [UnitQuaternion & operator =(const UnitQuaternion<PrimTypeIn> & other)]:
    [uq = other.template cast<PrimType>(); return *this;].  An exception of
    [cast] leaves the target as it was; otherwise the assignment to the
    member [uq] is the [Quaternion::operator =] that takes what [cast] has
    returned.  The body has no assertion of its own. *)
Definition UnitQuaternion_assign
    (fuel : nat) (this : UnitQuaternion PrimType) (other : UnitQuaternion PrimTypeIn)
  : option (UnitQuaternion PrimType * completion unit) :=
  match UnitQuaternion_cast other with
  | Throws what => Some (this, Throws what)
  | Returns (inl q) =>
      match Quaternion_assign fuel (uq this) q with
      | Some uq' => Some (UnitQuaternion_of_uq uq', Returns tt)
      | None => None
      end
  | Returns (inr u) =>
      match Quaternion_assign_UnitQuaternion fuel (uq this) u with
      | Some uq' => Some (UnitQuaternion_of_uq uq', Returns tt)
      | None => None
      end
  end.

End eigen_implementation.

(** ** Vocabulary of the statements *)

Section vocabulary.
Context {PrimType : Type} `{Scalar PrimType}.

(** The unit-norm invariant in the words of the spec: the Euclidean norm,
    as [norm()] computes it, is within [1e-6] of [1]. *)
Definition unit_within_tolerance (q : Eigen.Quaternion PrimType) : bool :=
  less_equal (fabs (minus (Eigen.norm q) (constant 1))) (constant 1e-6).

(** The round trip of the spec:
    [Quaternion(w,x,y,z).normalized().toUnitQuaternion().toImplementation()]. *)
Definition round_trip (checks : bool) (w x y z : PrimType)
  : completion (Eigen.Quaternion PrimType) :=
  (u <- Quaternion_toUnitQuaternion checks
          (Quaternion_normalized (Quaternion_ctor w x y z)) ;;
   Returns (UnitQuaternion_toImplementation u))%completion.

End vocabulary.

(** Two facts of IEEE arithmetic that conjugation relies on: negation is an
    involution, and a product does not see a common change of sign. *)
Class ScalarLaws (PrimType : Type) `{Scalar PrimType} : Prop := {
  negate_involutive : forall v : PrimType, negate (negate v) = v;
  times_negate_negate : forall v : PrimType,
      times (negate v) (negate v) = times v v
}.

(** ** The real numbers that doubles stand for

    The statements about accuracy compare what the code computes with the
    exact value, a real number. *)

Module real_value.
Local Open Scope R_scope.

(** Powers of two with an integer exponent. *)
Definition pow2 (e : Z) : R := powerRZ 2 e.

Definition sgn (s : bool) : R := if s then -1 else 1.

(** The value of a binary floating-point datum [(-1)^s * m * 2^e]; zeros,
    infinities and NaN count as [0]. *)
Definition SF2R (x : spec_float) : R :=
  match x with
  | S754_finite s m e => sgn s * (IZR (Zpos m) * pow2 e)
  | _ => 0
  end.

(** Zeros and finite numbers, as opposed to infinities and NaN. *)
Definition SFfinite (x : spec_float) : bool :=
  match x with
  | S754_zero _ | S754_finite _ _ _ => true
  | _ => false
  end.

(** The value of a double, and whether the double is a number. *)
Definition F2R (x : double) : R := SF2R (Prim2SF x).
Definition finite (x : double) : Prop := SFfinite (Prim2SF x) = true.

(** The exact sum of the squares of four doubles. *)
Definition sumsq (w x y z : double) : R :=
  F2R w * F2R w + F2R x * F2R x + F2R y * F2R y + F2R z * F2R z.

(** The Euclidean norm of a quaternion of doubles, in the real numbers. *)
Definition exact_norm (q : Eigen.Quaternion double) : R :=
  R_sqrt.sqrt (sumsq (Eigen.w q) (Eigen.x q) (Eigen.y q) (Eigen.z q)).

(** The Euclidean norm of a quaternion of single-precision coefficients,
    in the real numbers. *)
Definition exact_norm_float32 (q : Eigen.Quaternion float32) : R :=
  R_sqrt.sqrt (SF2R (Eigen.w q) * SF2R (Eigen.w q)
               + SF2R (Eigen.x q) * SF2R (Eigen.x q)
               + SF2R (Eigen.y q) * SF2R (Eigen.y q)
               + SF2R (Eigen.z q) * SF2R (Eigen.z q)).

(** All four coefficients are numbers. *)
Definition finite_coefficients (q : Eigen.Quaternion double) : Prop :=
  finite (Eigen.w q) /\ finite (Eigen.x q) /\
  finite (Eigen.y q) /\ finite (Eigen.z q).

(** *** Vocabulary of the proofs about rounding *)

(** [t] lies at location [l] of the unit interval that starts at [m]. *)
Definition inloc (t : R) (m : Z) (l : location) : Prop :=
  match l with
  | loc_Exact => t = IZR m
  | loc_Inexact Lt => IZR m < t < IZR m + / 2
  | loc_Inexact Eq => t = IZR m + / 2
  | loc_Inexact Gt => IZR m + / 2 < t < IZR m + 1
  end.

Definition inrec (t : R) (r : shr_record) : Prop :=
  inloc t (shr_m r) (loc_of_shr_record r).

(** [v] is the value denoted by the record [r] at exponent [e]. *)
Definition denotes (v : R) (r : shr_record) (e : Z) : Prop :=
  inrec (v / pow2 e) r.

(** The unit roundoff and the underflow threshold of binary64. *)
Definition u64 : R := pow2 (-53).
Definition eta64 : R := pow2 (-1075).

(** The bounds the analysis of the norm works with: [lo] and [hi] bound the
    sum of the squares, [big] bounds every intermediate value. *)
Definition lo : R := pow2 (-960).
Definition hi : R := pow2 960.
Definition big : R := pow2 970.

(** What a comparison of two floating-point data says about their
    values. *)
Definition cmp_spec (c : option comparison) (a b : R) : Prop :=
  match c with
  | Some Lt => a < b
  | Some Eq => a = b
  | Some Gt => b < a
  | None => False
  end.

(** Rounding [v] to [r] crosses no integer: [r] is on the same side of
    every integer as [v]. *)
Definition integer_monotone (r v : R) : Prop :=
  forall N : Z, (IZR N <= v -> IZR N <= r)%R /\ (v <= IZR N -> r <= IZR N)%R.

(** Whether a specification float is a NaN. *)
Definition isnan (f : spec_float) : bool :=
  match f with S754_nan => true | _ => false end.

(** Not below zero: a NaN, or a value whose sign bit is clear. *)
Definition nonneg_or_nan (f : spec_float) : Prop :=
  match f with
  | S754_nan => True
  | S754_zero s | S754_infinity s | S754_finite s _ _ => s = false
  end.

(** The same number: equal, or two zeros, whose signs may differ. *)
Definition same_number (a b : spec_float) : Prop :=
  a = b \/ exists s s', a = S754_zero s /\ b = S754_zero s'.

(** [a'] is the number [- a]. *)
Definition mirrored (a' a : double) : Prop :=
  same_number (Prim2SF a') (SFopp (Prim2SF a)).

End real_value.

(** * Facts of IEEE arithmetic *)

Module ieee_facts.

(** ** Comparisons *)

Lemma SFcompare_Eq_sym (a b : spec_float) :
  SFcompare a b = Some Eq -> SFcompare b a = Some Eq.
Proof.
  destruct a as [sa | sa | | sa ma ea], b as [sb | sb | | sb mb eb];
    cbn; intro E; try discriminate E; try reflexivity;
    try (destruct sa; discriminate E); try (destruct sb; discriminate E).
  - destruct sa, sb; try discriminate E; reflexivity.
  - assert (Hs : sa = sb) by (destruct sa, sb; try discriminate E; reflexivity).
    subst sb.
    assert (He : ea = eb).
    { destruct (Z.compare_spec ea eb) as [-> | |]; [reflexivity | |];
        destruct sa; discriminate E. }
    subst eb. rewrite Z.compare_refl in E |- *.
    assert (Hm : ma = mb).
    { apply Pos.compare_eq. change (Pos.compare_cont Eq ma mb = Eq).
      destruct sa, (Pos.compare_cont Eq ma mb); try discriminate E; reflexivity. }
    subst mb. change (Pos.compare_cont Eq ma ma) with (Pos.compare ma ma).
    rewrite Pos.compare_refl. destruct sa; reflexivity.
Qed.

Lemma eqb_sym (a b : double) : (a =? b) = (b =? a).
Proof.
  rewrite !FloatAxioms.eqb_spec. unfold SFeqb.
  destruct (SFcompare (Prim2SF a) (Prim2SF b)) as [[] |] eqn:E1.
  - rewrite (SFcompare_Eq_sym _ _ E1). reflexivity.
  - destruct (SFcompare (Prim2SF b) (Prim2SF a)) as [[] |] eqn:E2; try reflexivity.
    rewrite (SFcompare_Eq_sym _ _ E2) in E1. discriminate.
  - destruct (SFcompare (Prim2SF b) (Prim2SF a)) as [[] |] eqn:E2; try reflexivity.
    rewrite (SFcompare_Eq_sym _ _ E2) in E1. discriminate.
  - destruct (SFcompare (Prim2SF b) (Prim2SF a)) as [[] |] eqn:E2; try reflexivity.
    rewrite (SFcompare_Eq_sym _ _ E2) in E1. discriminate.
Qed.

Lemma ltb_not_eqb (a b : double) : (a <? b) = true -> (a =? b) = false.
Proof.
  rewrite FloatAxioms.ltb_spec, FloatAxioms.eqb_spec. unfold SFltb, SFeqb.
  destruct (SFcompare (Prim2SF a) (Prim2SF b)) as [[] |]; congruence.
Qed.

Lemma eqb_leb (a b : double) : (a =? b) = true -> (a <=? b) = true.
Proof.
  rewrite FloatAxioms.leb_spec, FloatAxioms.eqb_spec. unfold SFleb, SFeqb.
  destruct (SFcompare (Prim2SF a) (Prim2SF b)) as [[] |]; congruence.
Qed.

Lemma not_leb_not_eqb (a b : double) : (a <=? b) = false -> (a =? b) = false.
Proof.
  intro Hle. destruct (a =? b) eqn:E; [| reflexivity].
  apply eqb_leb in E. congruence.
Qed.

(** ** Negation *)

Lemma SFopp_involutive (v : spec_float) : SFopp (SFopp v) = v.
Proof.
  destruct v as [s | s | | s m e]; cbn; rewrite ?negb_involutive; reflexivity.
Qed.

Lemma SFmul_opp_opp (prec emax : Z) (v : spec_float) :
  SFmul prec emax (SFopp v) (SFopp v) = SFmul prec emax v v.
Proof. destruct v as [[] | [] | | [] m e]; reflexivity. Qed.

#[export] Instance ScalarLaws_float32 : ScalarLaws float32.
Proof.
  split; intro v.
  - apply SFopp_involutive.
  - apply SFmul_opp_opp.
Qed.

#[export] Instance ScalarLaws_double : ScalarLaws double.
Proof.
  split; intro v; apply Prim2SF_inj; cbn.
  - rewrite !FloatAxioms.opp_spec. apply SFopp_involutive.
  - rewrite !FloatAxioms.mul_spec, !FloatAxioms.opp_spec. apply SFmul_opp_opp.
Qed.

End ieee_facts.

(** * Rounding in binary64

    The operations of the Standard Library's specification of IEEE
    arithmetic, at the format of [double], return the exact result rounded:
    the error is at most half a unit in the last place. *)

Module binary64_rounding.
Import real_value.
Local Open Scope R_scope.

Local Abbreviation sqrt := R_sqrt.sqrt (only parsing).

(** ** Powers of two *)

Lemma pow2_pos e : 0 < pow2 e.
Proof. apply powerRZ_lt. lra. Qed.

Lemma pow2_add a b : pow2 (a + b) = pow2 a * pow2 b.
Proof. apply powerRZ_add. lra. Qed.

Lemma pow2_0 : pow2 0 = 1.
Proof. reflexivity. Qed.

Lemma pow2_1 : pow2 1 = 2.
Proof. exact (powerRZ_1 2). Qed.

Lemma pow2_opp a : pow2 (- a) = / pow2 a.
Proof. apply powerRZ_neg'. Qed.

Lemma pow2_sub a b : pow2 (a - b) = pow2 a / pow2 b.
Proof.
  unfold Z.sub, Rdiv. rewrite pow2_add, pow2_opp. reflexivity.
Qed.

Lemma pow2_succ a : pow2 (a + 1) = 2 * pow2 a.
Proof. rewrite pow2_add, pow2_1. lra. Qed.

Lemma pow2_pred a : pow2 (a - 1) = pow2 a / 2.
Proof. rewrite pow2_sub, pow2_1. reflexivity. Qed.

Lemma pow2_IZR k : (0 <= k)%Z -> pow2 k = IZR (2 ^ k).
Proof.
  intros Hk. destruct k as [| p | p]; [reflexivity | | lia].
  unfold pow2. change (2 ^ Zpos p)%Z with (Z.pow_pos 2 p).
  rewrite Zpower_pos_powerRZ. reflexivity.
Qed.

Lemma pow2_ge_1 k : (0 <= k)%Z -> 1 <= pow2 k.
Proof.
  intros Hk. rewrite pow2_IZR by exact Hk.
  apply IZR_le. pose proof (Z.pow_pos_nonneg 2 k). lia.
Qed.

Lemma pow2_le a b : (a <= b)%Z -> pow2 a <= pow2 b.
Proof.
  intros Hab. replace b with (a + (b - a))%Z by lia.
  rewrite pow2_add. pose proof (pow2_pos a).
  pose proof (pow2_ge_1 (b - a) ltac:(lia)). nra.
Qed.

Lemma pow2_lt a b : (a < b)%Z -> pow2 a < pow2 b.
Proof.
  intros Hab. replace b with (a + 1 + (b - a - 1))%Z by lia.
  rewrite pow2_add, pow2_succ. pose proof (pow2_pos a).
  pose proof (pow2_ge_1 (b - a - 1) ltac:(lia)). nra.
Qed.

(** Number of binary digits. *)
Lemma digits2_pos_bounds p :
  (2 ^ (Zpos (digits2_pos p) - 1) <= Zpos p < 2 ^ Zpos (digits2_pos p))%Z.
Proof.
  induction p as [p IH | p IH |]; cbn [digits2_pos].
  - rewrite Pos2Z.inj_succ.
    replace (Z.succ (Zpos (digits2_pos p)) - 1)%Z
      with (Z.succ (Zpos (digits2_pos p) - 1)) by lia.
    rewrite !Z.pow_succ_r by lia. lia.
  - rewrite Pos2Z.inj_succ.
    replace (Z.succ (Zpos (digits2_pos p)) - 1)%Z
      with (Z.succ (Zpos (digits2_pos p) - 1)) by lia.
    rewrite !Z.pow_succ_r by lia. lia.
  - cbn. lia.
Qed.

Lemma Zdigits2_bounds m :
  (0 < m)%Z -> (2 ^ (Zdigits2 m - 1) <= m < 2 ^ Zdigits2 m)%Z.
Proof.
  destruct m as [| p | p]; try lia. intros _. apply digits2_pos_bounds.
Qed.

Lemma Zdigits2_pos m : (0 < m)%Z -> (0 < Zdigits2 m)%Z.
Proof. destruct m; cbn; lia. Qed.

Lemma Zdigits2_nonneg m :
  (0 <= m)%Z -> (m < 2 ^ Zdigits2 m /\ 0 <= Zdigits2 m)%Z.
Proof.
  intros Hm. destruct (Z.eq_dec m 0) as [-> | Hnz]; [cbn; lia |].
  pose proof (Zdigits2_bounds m ltac:(lia)). pose proof (Zdigits2_pos m ltac:(lia)). lia.
Qed.

Lemma Zdigits2_R m :
  (0 < m)%Z -> pow2 (Zdigits2 m - 1) <= IZR m < pow2 (Zdigits2 m).
Proof.
  intros Hm. pose proof (Zdigits2_bounds m Hm) as [Hlo Hhi].
  pose proof (Zdigits2_pos m Hm).
  rewrite !pow2_IZR by lia. split; [apply IZR_le | apply IZR_lt]; assumption.
Qed.

(** If [m < 2^k] then [m] has at most [k] digits. *)
Lemma Zdigits2_le m k : (0 < m)%Z -> (m < 2 ^ k)%Z -> (0 <= k)%Z -> (Zdigits2 m <= k)%Z.
Proof.
  intros Hm Hlt Hk. pose proof (Zdigits2_bounds m Hm) as [Hlo _].
  pose proof (Zdigits2_pos m Hm).
  destruct (Z_le_gt_dec (Zdigits2 m) k) as [| Hgt]; [assumption |].
  assert (2 ^ k <= 2 ^ (Zdigits2 m - 1))%Z by (apply Z.pow_le_mono_r; lia).
  lia.
Qed.

Lemma Zdigits2_ge m k : (2 ^ k <= m)%Z -> (0 <= k)%Z -> (k + 1 <= Zdigits2 m)%Z.
Proof.
  intros Hle Hk. assert (Hm : (0 < m)%Z) by (pose proof (Z.pow_pos_nonneg 2 k); lia).
  pose proof (Zdigits2_bounds m Hm) as [_ Hhi].
  pose proof (Zdigits2_pos m Hm).
  destruct (Z_le_gt_dec (k + 1) (Zdigits2 m)) as [| Hgt]; [assumption |].
  assert (2 ^ Zdigits2 m <= 2 ^ k)%Z by (apply Z.pow_le_mono_r; lia).
  lia.
Qed.

(** ** Shifting with round and sticky bits *)

Lemma inloc_bounds t m l : inloc t m l -> IZR m <= t < IZR m + 1.
Proof. destruct l as [| []]; cbn; lra. Qed.

Lemma inrec_of_loc t m l : inloc t m l -> inrec t (shr_record_of_loc m l).
Proof. destruct l as [| []]; cbn; trivial. Qed.

Lemma shr_1_correct r t :
  (0 <= shr_m r)%Z -> inrec t r ->
  inrec (t / 2) (shr_1 r) /\ (0 <= shr_m (shr_1 r))%Z.
Proof.
  destruct r as [m rb sb]. cbn [shr_m]. intros Hm.
  destruct m as [| p | p]; [| | lia].
  - destruct rb, sb; unfold inrec; cbn [shr_1 shr_m loc_of_shr_record orb inloc];
      intros H; split; try lia; lra.
  - destruct p as [p | p |]; destruct rb, sb; unfold inrec;
      cbn [shr_1 shr_m loc_of_shr_record orb inloc];
      try rewrite (IZR_POS_xI p); try rewrite (IZR_POS_xO p);
      intros H; split; try lia; lra.
Qed.

Lemma iter_pos_shr_1_correct p : forall r t,
  (0 <= shr_m r)%Z -> inrec t r ->
  inrec (t / pow2 (Zpos p)) (iter_pos shr_1 p r) /\
  (0 <= shr_m (iter_pos shr_1 p r))%Z.
Proof.
  induction p as [p IH | p IH |]; intros r t Hm Ht; cbn [iter_pos].
  - destruct (shr_1_correct r t Hm Ht) as [H1 Hm1].
    destruct (IH _ _ Hm1 H1) as [H2 Hm2].
    destruct (IH _ _ Hm2 H2) as [H3 Hm3].
    split; [| exact Hm3].
    replace (t / pow2 (Zpos p~1)) with (t / 2 / pow2 (Zpos p) / pow2 (Zpos p)); [exact H3 |].
    replace (Zpos p~1) with (Zpos p + Zpos p + 1)%Z by lia.
    rewrite pow2_succ, pow2_add. pose proof (pow2_pos (Zpos p)). field. lra.
  - destruct (IH _ _ Hm Ht) as [H2 Hm2].
    destruct (IH _ _ Hm2 H2) as [H3 Hm3].
    split; [| exact Hm3].
    replace (t / pow2 (Zpos p~0)) with (t / pow2 (Zpos p) / pow2 (Zpos p)); [exact H3 |].
    replace (Zpos p~0) with (Zpos p + Zpos p)%Z by lia.
    rewrite pow2_add. pose proof (pow2_pos (Zpos p)). field. lra.
  - rewrite pow2_1. apply shr_1_correct; assumption.
Qed.

Lemma shr_correct r e n v :
  (0 <= shr_m r)%Z -> denotes v r e ->
  denotes v (fst (shr r e n)) (snd (shr r e n)) /\
  (0 <= shr_m (fst (shr r e n)))%Z /\
  snd (shr r e n) = (e + Z.max 0 n)%Z.
Proof.
  intros Hm Hv. destruct n as [| p | p]; cbn [shr fst snd].
  - split; [exact Hv | split; [exact Hm | lia]].
  - destruct (iter_pos_shr_1_correct p r _ Hm Hv) as [H1 H2].
    split; [| split; [exact H2 | lia]].
    unfold denotes. rewrite pow2_add.
    replace (v / (pow2 e * pow2 (Zpos p))) with (v / pow2 e / pow2 (Zpos p)); [exact H1 |].
    pose proof (pow2_pos e). pose proof (pow2_pos (Zpos p)). field. lra.
  - split; [exact Hv | split; [exact Hm | lia]].
Qed.

Lemma round_nearest_even_correct r t :
  (0 <= shr_m r)%Z -> inrec t r ->
  let m' := round_nearest_even (shr_m r) (loc_of_shr_record r) in
  Rabs (IZR m' - t) <= / 2 /\ (shr_m r <= m' <= shr_m r + 1)%Z /\
  (loc_of_shr_record r = loc_Exact -> IZR m' = t).
Proof.
  intros Hm. unfold inrec.
  destruct (loc_of_shr_record r) as [| []]; cbn [inloc round_nearest_even]; intros Ht.
  - rewrite Ht. replace (IZR (shr_m r) - IZR (shr_m r)) with 0 by lra.
    rewrite Rabs_R0. repeat split; try lia; lra.
  - destruct (Z.even (shr_m r)).
    + repeat split; try lia; try discriminate. rewrite Ht.
      replace (IZR (shr_m r) - (IZR (shr_m r) + / 2)) with (- / 2) by lra.
      rewrite Rabs_Ropp, Rabs_pos_eq; lra.
    + repeat split; try lia; try discriminate. rewrite Ht, plus_IZR.
      replace (IZR (shr_m r) + 1 - (IZR (shr_m r) + / 2)) with (/ 2) by lra.
      rewrite Rabs_pos_eq; lra.
  - repeat split; try lia; try discriminate.
    apply Rabs_le. lra.
  - repeat split; try lia; try discriminate.
    rewrite plus_IZR. apply Rabs_le. lra.
Qed.

(** ** Rounding to binary64 *)

Local Abbreviation prec := 53%Z (only parsing).
Local Abbreviation emax := 1024%Z (only parsing).

Lemma fexp64 e : fexp prec emax e = Z.max (e - 53) (-1074).
Proof. reflexivity. Qed.

Lemma loc_of_shr_record_of_loc m l :
  loc_of_shr_record (shr_record_of_loc m l) = l.
Proof. destruct l as [| []]; reflexivity. Qed.

Lemma shr_m_of_loc m l : shr_m (shr_record_of_loc m l) = m.
Proof. destruct l as [| []]; reflexivity. Qed.

Lemma Rabs_scale (a b s : R) : 0 < s -> Rabs (a * s - b) = s * Rabs (a - b / s).
Proof.
  intros Hs. replace (a * s - b) with (s * (a - b / s)) by (field; lra).
  rewrite Rabs_mult, (Rabs_pos_eq s) by lra. reflexivity.
Qed.

Lemma div_pow2_lt v e x : v / pow2 e < x -> v < x * pow2 e.
Proof.
  intros H. pose proof (pow2_pos e) as Hp.
  apply (Rmult_lt_compat_r (pow2 e)) in H; [| exact Hp].
  unfold Rdiv in H. rewrite Rmult_assoc, Rinv_l in H by lra. lra.
Qed.

Lemma lt_div_pow2 v e x : v < x * pow2 e -> v / pow2 e < x.
Proof.
  intros H. pose proof (pow2_pos e) as Hp.
  apply (Rmult_lt_reg_r (pow2 e)); [exact Hp |].
  unfold Rdiv. rewrite Rmult_assoc, Rinv_l by lra. lra.
Qed.

Lemma le_div_pow2 v e x : x * pow2 e <= v -> x <= v / pow2 e.
Proof.
  intros H. pose proof (pow2_pos e) as Hp.
  apply (Rmult_le_reg_r (pow2 e)); [exact Hp |].
  unfold Rdiv. rewrite Rmult_assoc, Rinv_l by lra. lra.
Qed.

Lemma div_pow2_le v e x : x <= v / pow2 e -> x * pow2 e <= v.
Proof.
  intros H. pose proof (pow2_pos e) as Hp.
  apply (Rmult_le_compat_r (pow2 e)) in H; [| lra].
  unfold Rdiv in H. rewrite Rmult_assoc, Rinv_l in H by lra. lra.
Qed.

(** The result of [binary_round_aux] on a positive mantissa [mx] at exponent
    [ex] and location [lx], which together denote the exact value [v]. *)
Lemma binary_round_aux_correct sx mx ex lx v :
  (0 <= mx)%Z ->
  inloc (v / pow2 ex) mx lx ->
  let e0 := fexp prec emax (Zdigits2 mx + ex) in
  (lx = loc_Exact \/ (ex <= e0)%Z) ->
  exists m e,
    (0 <= m < 2 ^ 53)%Z /\
    binary_round_aux prec emax sx mx ex lx =
      match m with
      | Zpos p => if (e <=? 971)%Z then S754_finite sx p e else S754_infinity sx
      | _ => S754_zero sx
      end /\
    Rabs (IZR m * pow2 e - v) <= pow2 (e0 - 1) /\
    (e <= Z.max ex e0 + 1)%Z.
Proof.
  intros Hmx Hv e0 Hcase.
  pose proof (pow2_pos ex) as Hpex.
  assert (He0 : (Zdigits2 mx + ex - 53 <= e0 /\ -1074 <= e0)%Z)
    by (subst e0; rewrite fexp64; lia).
  (* first shift *)
  unfold binary_round_aux, shr_fexp. fold e0. clearbody e0.
  pose proof (shr_correct (shr_record_of_loc mx lx) ex (e0 - ex) v) as Hshr.
  rewrite shr_m_of_loc in Hshr.
  specialize (Hshr ltac:(lia) (inrec_of_loc _ _ _ Hv)).
  destruct (shr (shr_record_of_loc mx lx) ex (e0 - ex)) as [r1 e1] eqn:Eshr.
  cbn [fst snd] in Hshr. destruct Hshr as (Hden & Hm1 & He1).
  assert (He1' : e1 = Z.max ex e0) by lia. clear He1.
  pose proof (pow2_pos e1) as Hpe1.
  (* bound on the shifted mantissa *)
  pose proof (inloc_bounds _ _ _ Hden) as Hb1.
  pose proof (inloc_bounds _ _ _ Hv) as Hb0.
  assert (Hvlt : v / pow2 e1 < pow2 53).
  { apply lt_div_pow2. rewrite <- pow2_add.
    apply Rlt_le_trans with (pow2 (Zdigits2 mx + ex)); [| apply pow2_le; lia].
    rewrite pow2_add. apply div_pow2_lt.
    pose proof (Zdigits2_nonneg mx Hmx) as [Hhi Hd0].
    rewrite (pow2_IZR (Zdigits2 mx)) by lia.
    assert (IZR mx + 1 <= IZR (2 ^ Zdigits2 mx)).
    { rewrite <- plus_IZR. apply IZR_le. lia. }
    lra. }
  assert (Hm1lt : (shr_m r1 < 2 ^ 53)%Z).
  { apply lt_IZR. rewrite <- pow2_IZR by lia. lra. }
  (* rounding *)
  destruct (round_nearest_even_correct r1 _ Hm1 Hden) as (Hrne & Hmr & Hexact).
  set (mr := round_nearest_even (shr_m r1) (loc_of_shr_record r1)) in *.
  assert (Herr1 : Rabs (IZR mr * pow2 e1 - v) <= pow2 (e0 - 1)).
  { rewrite Rabs_scale by exact Hpe1.
    destruct (Z_le_gt_dec ex e0) as [Hle | Hgt].
    - assert (Ee : e0 = e1) by lia. rewrite Ee, pow2_pred. nra.
    - destruct Hcase as [Hex | Hle]; [| lia].
      (* no shift, exact location *)
      assert (r1 = shr_record_of_loc mx lx).
      { revert Eshr. destruct (e0 - ex)%Z eqn:En; cbn [shr]; try lia;
          intros [= <- _]; reflexivity. }
      subst r1. rewrite loc_of_shr_record_of_loc in Hexact.
      rewrite (Hexact Hex).
      replace (v / pow2 e1 - v / pow2 e1) with 0 by lra.
      rewrite Rabs_R0. pose proof (pow2_pos (e0 - 1)). nra. }
  (* second shift *)
  destruct (Z.eq_dec mr (2 ^ 53)) as [Hpow | Hnpow].
  - exists (2 ^ 52)%Z, (e1 + 1)%Z.
    rewrite Hpow.
    assert (Ef : fexp prec emax (Zdigits2 (2 ^ 53) + e1) = (e1 + 1)%Z).
    { rewrite fexp64. change (Zdigits2 (2 ^ 53)) with 54%Z. lia. }
    rewrite Ef. replace (e1 + 1 - e1)%Z with 1%Z by lia.
    cbn [shr_record_of_loc shr iter_pos].
    change (shr_1 {| shr_m := 2 ^ 53; shr_r := false; shr_s := false |})
      with {| shr_m := 2 ^ 52; shr_r := false; shr_s := false |}.
    cbn [shr_m]. change (2 ^ 52)%Z with (Zpos (2 ^ 52)) at 2.
    cbv iota beta.
    replace (e1 + 1 <=? 1024 - 53)%Z with (e1 + 1 <=? 971)%Z by reflexivity.
    split; [lia |]. split; [reflexivity |]. split; [| lia].
    rewrite Hpow in Herr1.
    replace (IZR (2 ^ 52) * pow2 (e1 + 1)) with (IZR (2 ^ 53) * pow2 e1); [exact Herr1 |].
    rewrite pow2_succ. change (2 ^ 53)%Z with (2 * 2 ^ 52)%Z.
    rewrite mult_IZR. lra.
  - exists mr, e1.
    assert (Hmrlt : (0 <= mr < 2 ^ 53)%Z) by lia.
    assert (Hn2 : (fexp prec emax (Zdigits2 mr + e1) - e1 <= 0)%Z).
    { rewrite fexp64. destruct (Z.eq_dec mr 0) as [-> | Hnz].
      - cbn [Zdigits2]. lia.
      - pose proof (Zdigits2_le mr 53 ltac:(lia) ltac:(lia) ltac:(lia)). lia. }
    assert (Eshr2 : shr (shr_record_of_loc mr loc_Exact) e1
                      (fexp prec emax (Zdigits2 mr + e1) - e1)
                    = (shr_record_of_loc mr loc_Exact, e1)).
    { destruct (fexp prec emax (Zdigits2 mr + e1) - e1)%Z; try reflexivity; lia. }
    rewrite Eshr2. cbn [shr_record_of_loc shr_m].
    split; [exact Hmrlt |]. split; [| split; [exact Herr1 | lia]].
    destruct mr as [| p | p]; try reflexivity; lia.
Qed.

(** ** Values of specification floats *)

Lemma sgn_xorb a b : sgn (xorb a b) = sgn a * sgn b.
Proof. destruct a, b; cbn; lra. Qed.

Lemma Rabs_sgn s : Rabs (sgn s) = 1.
Proof. destruct s; unfold sgn; [rewrite Rabs_left by lra; lra | apply Rabs_R1]. Qed.

Lemma sgn_negb s : sgn (negb s) = - sgn s.
Proof. destruct s; cbn; lra. Qed.

Lemma u64_pos : 0 < u64.
Proof. apply pow2_pos. Qed.

Lemma eta64_pos : 0 < eta64.
Proof. apply pow2_pos. Qed.

Lemma half_ulp_bound mx ex v :
  (0 < mx)%Z -> IZR mx * pow2 ex <= v ->
  pow2 (fexp prec emax (Zdigits2 mx + ex) - 1) <= u64 * v + eta64.
Proof.
  intros Hmx Hv. rewrite fexp64.
  pose proof u64_pos. pose proof eta64_pos. pose proof (pow2_pos ex).
  assert (0 <= v).
  { apply Rle_trans with (IZR mx * pow2 ex); [| exact Hv].
    apply Rmult_le_pos; [apply IZR_le; lia | lra]. }
  destruct (Z_le_gt_dec (Zdigits2 mx + ex - 53) (-1074)) as [Hle | Hgt].
  - rewrite Z.max_r by lia. change (pow2 (-1074 - 1)) with eta64. nra.
  - rewrite Z.max_l by lia.
    replace (Zdigits2 mx + ex - 53 - 1)%Z with (-53 + ((Zdigits2 mx - 1) + ex))%Z by lia.
    rewrite !pow2_add. fold u64.
    pose proof (Zdigits2_R mx Hmx) as [Hlo _].
    assert (pow2 (Zdigits2 mx - 1) * pow2 ex <= v) by nra.
    nra.
Qed.

(** What [binary_round_aux] returns, read as a real number. *)
Lemma round_result_value sx (m e : Z) :
  (0 <= m)%Z -> (e <= 971)%Z ->
  let r := match m with
           | Zpos p => if (e <=? 971)%Z then S754_finite sx p e else S754_infinity sx
           | _ => S754_zero sx
           end in
  SFfinite r = true /\ SF2R r = sgn sx * (IZR m * pow2 e).
Proof.
  intros Hm He. destruct m as [| p | p]; [| | lia]; cbn zeta.
  - split; [reflexivity |]. cbn. lra.
  - replace (e <=? 971)%Z with true by (symmetry; apply Z.leb_le; exact He).
    split; reflexivity.
Qed.

(** Rounding of a positive exact value [v = mx * 2^ex] without overflow. *)
Lemma binary_round_aux_exact sx mx ex :
  let v := IZR (Zpos mx) * pow2 ex in
  v < pow2 970 ->
  let r := binary_round_aux prec emax sx (Zpos mx) ex loc_Exact in
  SFfinite r = true /\
  Rabs (SF2R r - sgn sx * v) <= u64 * v + eta64.
Proof.
  intros v Hv r.
  assert (Hden : inloc (v / pow2 ex) (Zpos mx) loc_Exact).
  { cbn. unfold v. pose proof (pow2_pos ex). field. lra. }
  destruct (binary_round_aux_correct sx (Zpos mx) ex loc_Exact v ltac:(lia) Hden
              (or_introl eq_refl)) as (m & e & Hm & Hr & Herr & He).
  pose proof (half_ulp_bound (Zpos mx) ex v ltac:(lia) ltac:(unfold v; lra)) as Hulp.
  (* no overflow *)
  assert (Hdig : (Zdigits2 (Zpos mx) + ex <= 970)%Z).
  { pose proof (Zdigits2_R (Zpos mx) ltac:(lia)) as [Hlo _].
    destruct (Z_le_gt_dec (Zdigits2 (Zpos mx) + ex) 970) as [| Hgt]; [assumption |].
    assert (pow2 970 <= pow2 (Zdigits2 (Zpos mx) - 1 + ex)) by (apply pow2_le; lia).
    rewrite pow2_add in H. pose proof (pow2_pos ex). unfold v in Hv. nra. }
  assert (He' : (e <= 971)%Z).
  { pose proof (Zdigits2_pos (Zpos mx) ltac:(lia)).
    rewrite fexp64 in He. lia. }
  destruct (round_result_value sx m e ltac:(lia) He') as [Hfin Hval].
  fold r in Hr. rewrite <- Hr in Hfin, Hval.
  split; [exact Hfin |].
  rewrite Hval.
  replace (sgn sx * (IZR m * pow2 e) - sgn sx * v) with (sgn sx * (IZR m * pow2 e - v)) by lra.
  rewrite Rabs_mult, Rabs_sgn. lra.
Qed.

(** ** Multiplication *)

Lemma SFmul_correct x y :
  SFfinite x = true -> SFfinite y = true ->
  Rabs (SF2R x * SF2R y) < pow2 970 ->
  SFfinite (SFmul prec emax x y) = true /\
  Rabs (SF2R (SFmul prec emax x y) - SF2R x * SF2R y)
    <= u64 * Rabs (SF2R x * SF2R y) + eta64.
Proof.
  pose proof u64_pos as Hu. pose proof eta64_pos as Heta.
  destruct x as [sx | sx | | sx mx ex], y as [sy | sy | | sy my ey];
    try discriminate; intros _ _ Hlt; cbn [SFmul SF2R SFfinite] in *;
    try (split; [reflexivity |];
         rewrite ?Rmult_0_l, ?Rmult_0_r, ?Rminus_0_r, Rabs_R0; lra).
  set (v := IZR (Zpos (mx * my)) * pow2 (ex + ey)).
  assert (Hprod : sgn sx * (IZR (Zpos mx) * pow2 ex) * (sgn sy * (IZR (Zpos my) * pow2 ey))
                  = sgn (xorb sx sy) * v).
  { unfold v. rewrite sgn_xorb, Pos2Z.inj_mul, mult_IZR, pow2_add. ring. }
  assert (Hv0 : 0 < v).
  { unfold v. apply Rmult_lt_0_compat; [apply IZR_lt; lia | apply pow2_pos]. }
  rewrite Hprod in Hlt |- *.
  rewrite Rabs_mult, Rabs_sgn, Rmult_1_l, (Rabs_pos_eq v) in Hlt |- * by lra.
  exact (binary_round_aux_exact (xorb sx sy) (mx * my) (ex + ey) Hlt).
Qed.

(** ** Addition and subtraction *)

Lemma iter_xO_pow2 m d : Zpos (Pos.iter xO m d) = (Zpos m * 2 ^ Zpos d)%Z.
Proof.
  induction d as [| d IH] using Pos.peano_ind.
  - cbn. lia.
  - rewrite Pos.iter_succ, Pos2Z.inj_xO, IH, Pos2Z.inj_succ, Z.pow_succ_r by lia. lia.
Qed.

Lemma shl_align_correct mx ex e' :
  IZR (Zpos (fst (shl_align mx ex e'))) * pow2 (snd (shl_align mx ex e'))
  = IZR (Zpos mx) * pow2 ex.
Proof.
  unfold shl_align. destruct (e' - ex)%Z as [| d | d] eqn:Ed; cbn [fst snd]; try reflexivity.
  rewrite iter_xO_pow2, mult_IZR, <- pow2_IZR by lia.
  replace ex with (Zpos d + e')%Z by lia. rewrite pow2_add. ring.
Qed.

Lemma binary_round_correct sx mx ex :
  let v := IZR (Zpos mx) * pow2 ex in
  v < pow2 970 ->
  let r := binary_round prec emax sx mx ex in
  SFfinite r = true /\
  Rabs (SF2R r - sgn sx * v) <= u64 * v + eta64.
Proof.
  intros v Hv. unfold binary_round.
  pose proof (shl_align_correct mx ex (fexp prec emax (Zpos (digits2_pos mx) + ex))) as Hal.
  destruct (shl_align mx ex (fexp prec emax (Zpos (digits2_pos mx) + ex))) as [mz ez].
  cbn [fst snd] in Hal. fold v in Hal. cbv zeta.
  pose proof (binary_round_aux_exact sx mz ez) as H. cbv zeta in H.
  rewrite Hal in H. exact (H Hv).
Qed.

Lemma binary_normalize_correct m e szero :
  let v := IZR m * pow2 e in
  Rabs v < pow2 970 ->
  let r := binary_normalize prec emax m e szero in
  SFfinite r = true /\
  Rabs (SF2R r - v) <= u64 * Rabs v + eta64.
Proof.
  pose proof u64_pos as Hu. pose proof eta64_pos as Heta. pose proof (pow2_pos e) as Hpe.
  intros v Hv r. subst r v. destruct m as [| p | p]; cbn [binary_normalize].
  - split; [reflexivity |]. cbn [SF2R]. rewrite Rmult_0_l, Rminus_0_r, Rabs_R0. lra.
  - assert (Hpos : 0 < IZR (Zpos p) * pow2 e)
      by (apply Rmult_lt_0_compat; [apply IZR_lt; lia | exact Hpe]).
    rewrite (Rabs_pos_eq (IZR (Zpos p) * pow2 e)) in Hv |- * by lra.
    pose proof (binary_round_correct false p e Hv) as H. cbv zeta in H.
    unfold sgn in H. rewrite Rmult_1_l in H. exact H.
  - assert (Hpos : 0 < IZR (Zpos p) * pow2 e)
      by (apply Rmult_lt_0_compat; [apply IZR_lt; lia | exact Hpe]).
    assert (Hneg : IZR (Zneg p) * pow2 e = - (IZR (Zpos p) * pow2 e)).
    { change (Zneg p) with (- Zpos p)%Z. rewrite opp_IZR. ring. }
    rewrite Hneg in Hv |- *.
    rewrite Rabs_Ropp, (Rabs_pos_eq (IZR (Zpos p) * pow2 e)) in Hv |- * by lra.
    pose proof (binary_round_correct true p e Hv) as H. cbv zeta in H.
    unfold sgn in H.
    replace (-1 * (IZR (Zpos p) * pow2 e)) with (- (IZR (Zpos p) * pow2 e)) in H by lra.
    exact H.
Qed.

Lemma cond_Zopp_IZR s m : IZR (cond_Zopp s m) = sgn s * IZR m.
Proof. destruct s; cbn [cond_Zopp sgn]; [rewrite opp_IZR |]; lra. Qed.

Lemma aligned_value s m e e' :
  (e' <= e)%Z ->
  IZR (cond_Zopp s (Zpos (fst (shl_align m e e')))) * pow2 e'
  = sgn s * (IZR (Zpos m) * pow2 e).
Proof.
  intros Hle. rewrite cond_Zopp_IZR.
  pose proof (shl_align_correct m e e') as H.
  assert (Es : snd (shl_align m e e') = e').
  { unfold shl_align. destruct (e' - e)%Z eqn:Ed; cbn [snd]; lia. }
  rewrite Es in H. rewrite Rmult_assoc, H. reflexivity.
Qed.

Lemma SFadd_correct x y :
  SFfinite x = true -> SFfinite y = true ->
  Rabs (SF2R x + SF2R y) < pow2 970 ->
  SFfinite (SFadd prec emax x y) = true /\
  Rabs (SF2R (SFadd prec emax x y) - (SF2R x + SF2R y))
    <= u64 * Rabs (SF2R x + SF2R y) + eta64.
Proof.
  pose proof u64_pos as Hu. pose proof eta64_pos as Heta.
  assert (Hexact : forall a : R, Rabs (a - a) <= u64 * Rabs a + eta64).
  { intros a. replace (a - a) with 0 by lra. rewrite Rabs_R0.
    pose proof (Rabs_pos a). nra. }
  destruct x as [sx | sx | | sx mx ex], y as [sy | sy | | sy my ey];
    try discriminate; intros _ _ Hlt; cbn [SFadd].
  - split; [destruct sx, sy; reflexivity |].
    replace (SF2R (if sx then if sy then S754_zero sx else S754_zero false
                   else if sy then S754_zero false else S754_zero sx))
      with (SF2R (S754_zero sx) + SF2R (S754_zero sy)) by (destruct sx, sy; cbn; lra).
    apply Hexact.
  - split; [reflexivity |].
    replace (SF2R (S754_zero sx) + SF2R (S754_finite sy my ey))
      with (SF2R (S754_finite sy my ey)) by (cbn; lra).
    apply Hexact.
  - split; [reflexivity |].
    replace (SF2R (S754_finite sx mx ex) + SF2R (S754_zero sy))
      with (SF2R (S754_finite sx mx ex)) by (cbn; lra).
    apply Hexact.
  - set (ez := Z.min ex ey).
    set (S := (cond_Zopp sx (Zpos (fst (shl_align mx ex ez)))
               + cond_Zopp sy (Zpos (fst (shl_align my ey ez))))%Z).
    assert (HS : IZR S * pow2 ez = SF2R (S754_finite sx mx ex) + SF2R (S754_finite sy my ey)).
    { unfold S. rewrite plus_IZR, Rmult_plus_distr_r.
      rewrite !aligned_value by (unfold ez; lia). reflexivity. }
    rewrite <- HS in *.
    exact (binary_normalize_correct S ez false Hlt).
Qed.

Lemma SFsub_correct x y :
  SFfinite x = true -> SFfinite y = true ->
  Rabs (SF2R x - SF2R y) < pow2 970 ->
  SFfinite (SFsub prec emax x y) = true /\
  Rabs (SF2R (SFsub prec emax x y) - (SF2R x - SF2R y))
    <= u64 * Rabs (SF2R x - SF2R y) + eta64.
Proof.
  pose proof u64_pos as Hu. pose proof eta64_pos as Heta.
  assert (Hexact : forall a : R, Rabs (a - a) <= u64 * Rabs a + eta64).
  { intros a. replace (a - a) with 0 by lra. rewrite Rabs_R0.
    pose proof (Rabs_pos a). nra. }
  destruct x as [sx | sx | | sx mx ex], y as [sy | sy | | sy my ey];
    try discriminate; intros _ _ Hlt; cbn [SFsub].
  - split; [destruct sx, sy; reflexivity |].
    replace (SF2R (if sx then if sy then S754_zero false else S754_zero sx
                   else if sy then S754_zero sx else S754_zero false))
      with (SF2R (S754_zero sx) - SF2R (S754_zero sy)) by (destruct sx, sy; cbn; lra).
    apply Hexact.
  - split; [reflexivity |].
    replace (SF2R (S754_zero sx) - SF2R (S754_finite sy my ey))
      with (SF2R (S754_finite (negb sy) my ey)) by (cbn; rewrite sgn_negb; lra).
    apply Hexact.
  - split; [reflexivity |].
    replace (SF2R (S754_finite sx mx ex) - SF2R (S754_zero sy))
      with (SF2R (S754_finite sx mx ex)) by (cbn; lra).
    apply Hexact.
  - set (ez := Z.min ex ey).
    set (S := (cond_Zopp sx (Zpos (fst (shl_align mx ex ez)))
               - cond_Zopp sy (Zpos (fst (shl_align my ey ez))))%Z).
    assert (HS : IZR S * pow2 ez = SF2R (S754_finite sx mx ex) - SF2R (S754_finite sy my ey)).
    { unfold S. rewrite minus_IZR, Rmult_minus_distr_r.
      rewrite !aligned_value by (unfold ez; lia). reflexivity. }
    rewrite <- HS in *.
    exact (binary_normalize_correct S ez false Hlt).
Qed.

(** ** Square root *)

Lemma fexp_mono a b : (a <= b)%Z -> (fexp prec emax a <= fexp prec emax b)%Z.
Proof. intros H. rewrite !fexp64. lia. Qed.

Lemma sqrt_location (m q r : Z) :
  (0 <= q)%Z -> (m = q * q + r)%Z -> (0 <= r <= 2 * q)%Z ->
  inloc (sqrt (IZR m)) q
    (if (r =? 0)%Z then loc_Exact
     else loc_Inexact (if (r <=? q)%Z then Lt else Gt)).
Proof.
  intros Hq Hm Hr.
  assert (HqR : 0 <= IZR q) by (apply IZR_le; lia).
  assert (HmR : IZR m = IZR q * IZR q + IZR r)
    by (rewrite Hm, plus_IZR, mult_IZR; reflexivity).
  assert (HrR : 0 <= IZR r <= 2 * IZR q).
  { split; [apply IZR_le; lia |]. rewrite <- mult_IZR. apply IZR_le. lia. }
  assert (Hlow : forall a, 0 <= a -> a * a < IZR m -> a < sqrt (IZR m)).
  { intros a Ha Hlt. rewrite <- (sqrt_square a) at 1 by exact Ha.
    apply sqrt_lt_1_alt. split; [nra | exact Hlt]. }
  assert (Hhigh : forall a, 0 <= a -> IZR m < a * a -> sqrt (IZR m) < a).
  { intros a Ha Hlt. rewrite <- (sqrt_square a) at 1 by exact Ha.
    apply sqrt_lt_1_alt. split; [nra | exact Hlt]. }
  destruct (Z.eqb_spec r 0) as [-> | Hnz].
  - cbn [inloc]. rewrite HmR, Rplus_0_r. apply sqrt_square. exact HqR.
  - assert (Hr1 : 1 <= IZR r) by (apply IZR_le; lia).
    destruct (Z.leb_spec r q) as [Hle | Hgt]; cbn [inloc].
    + assert (IZR r <= IZR q) by (apply IZR_le; lia).
      split; [apply Hlow; [exact HqR | nra] | apply Hhigh; nra].
    + assert (IZR q + 1 <= IZR r) by (rewrite <- plus_IZR; apply IZR_le; lia).
      split; [apply Hlow; nra | apply Hhigh; nra].
Qed.

Lemma SFsqrt_core_binary_correct mx ex :
  let '(q, e', l) := SFsqrt_core_binary prec emax (Zpos mx) ex in
  (0 < q)%Z /\
  inloc (sqrt (IZR (Zpos mx) * pow2 ex) / pow2 e') q l /\
  (e' <= fexp prec emax (Zdigits2 q + e'))%Z.
Proof.
  unfold SFsqrt_core_binary.
  set (d := Zdigits2 (Zpos mx)).
  set (e' := Z.min (fexp prec emax (Z.div2 (d + ex + 1))) (Z.div2 ex)).
  set (s := (ex - 2 * e')%Z).
  assert (Hs : (0 <= s)%Z).
  { unfold s, e'. rewrite (Z.div2_div ex).
    pose proof (Z.mul_div_le ex 2 ltac:(lia)). lia. }
  set (m' := match s with
             | Zpos _ => Z.shiftl (Zpos mx) s
             | 0%Z => Zpos mx
             | Zneg _ => 0%Z
             end).
  assert (Hm' : m' = (Zpos mx * 2 ^ s)%Z).
  { unfold m'. destruct s as [| p | p]; [rewrite Z.pow_0_r; lia | | lia].
    apply Z.shiftl_mul_pow2. lia. }
  clearbody m'.
  assert (Hpow : (0 < 2 ^ s)%Z) by (apply Z.pow_pos_nonneg; lia).
  assert (Hm'pos : (0 < m')%Z) by (rewrite Hm'; lia).
  pose proof (Z.sqrtrem_spec m' ltac:(lia)) as Hspec.
  destruct (Z.sqrtrem m') as [q r]. destruct Hspec as [Hqr Hr].
  assert (Hq0 : (0 <= q)%Z) by lia.
  assert (Hq : (0 < q)%Z) by nia.
  split; [exact Hq |]. split.
  - (* location *)
    replace (sqrt (IZR (Zpos mx) * pow2 ex) / pow2 e') with (sqrt (IZR m')).
    + apply sqrt_location; [exact Hq0 | exact Hqr | exact Hr].
    + pose proof (pow2_pos e') as Hpe.
      replace (IZR (Zpos mx) * pow2 ex) with (IZR m' * (pow2 e' * pow2 e')).
      * rewrite sqrt_mult_alt by (apply IZR_le; lia).
        rewrite sqrt_square by lra. field. lra.
      * rewrite Hm', mult_IZR, <- pow2_IZR by exact Hs.
        replace (pow2 ex) with (pow2 (s + (e' + e')))
          by (f_equal; unfold s; lia).
        rewrite !pow2_add. ring.
  - (* enough digits *)
    apply Z.le_trans with (fexp prec emax (Z.div2 (d + ex + 1))); [unfold e'; lia |].
    apply fexp_mono.
    (* q has at least (d - 1 + s) / 2 + 1 digits *)
    pose proof (Zdigits2_bounds (Zpos mx) ltac:(lia)) as [Hlo _]. fold d in Hlo.
    pose proof (Zdigits2_pos (Zpos mx) ltac:(lia)) as Hdpos. fold d in Hdpos.
    set (k := ((d - 1 + s) / 2)%Z).
    assert (Hk0 : (0 <= k)%Z) by (apply Z.div_pos; lia).
    assert (Hk2 : (2 * k <= d - 1 + s)%Z) by (apply Z.mul_div_le; lia).
    assert (Hqk : (2 ^ k <= q)%Z).
    { destruct (Z_le_gt_dec (2 ^ k) q) as [| Hgt]; [assumption | exfalso].
      assert (Hsq : (q + 1 <= 2 ^ k)%Z) by lia.
      assert (H1 : ((q + 1) * (q + 1) <= 2 ^ k * 2 ^ k)%Z) by nia.
      rewrite <- Z.pow_add_r in H1 by lia.
      assert (H2 : (2 ^ (k + k) <= 2 ^ (d - 1 + s))%Z) by (apply Z.pow_le_mono_r; lia).
      assert (H3 : (2 ^ (d - 1 + s) <= m')%Z).
      { rewrite Hm', Z.pow_add_r by lia. nia. }
      nia. }
    pose proof (Zdigits2_ge q k Hqk Hk0) as Hdq.
    rewrite Z.div2_div.
    assert (Hdiv : ((d + ex + 1) / 2 = k + 1 + e')%Z).
    { unfold k. replace (d + ex + 1)%Z with ((d - 1 + s) + (e' + 1) * 2)%Z by (unfold s; lia).
      rewrite Z.div_add by lia. lia. }
    lia.
Qed.

Lemma SFsqrt_correct x :
  SFfinite x = true -> 0 <= SF2R x -> sqrt (SF2R x) < pow2 970 ->
  SFfinite (SFsqrt prec emax x) = true /\
  Rabs (SF2R (SFsqrt prec emax x) - sqrt (SF2R x))
    <= u64 * sqrt (SF2R x) + eta64.
Proof.
  pose proof u64_pos as Hu. pose proof eta64_pos as Heta.
  destruct x as [sx | sx | | sx mx ex]; try discriminate; intros _ Hpos Hlt.
  - cbn [SFsqrt SF2R]. split; [reflexivity |].
    rewrite sqrt_0, Rminus_0_r, Rabs_R0. lra.
  - destruct sx.
    { exfalso. cbn [SF2R sgn] in Hpos.
      assert (0 < IZR (Zpos mx) * pow2 ex)
        by (apply Rmult_lt_0_compat; [apply IZR_lt; lia | apply pow2_pos]).
      lra. }
    cbn [SFsqrt]. cbn [SF2R sgn] in *. rewrite Rmult_1_l in *.
    set (v := sqrt (IZR (Zpos mx) * pow2 ex)) in *.
    pose proof (SFsqrt_core_binary_correct mx ex) as Hcore.
    destruct (SFsqrt_core_binary prec emax (Zpos mx) ex) as [[q e'] l].
    destruct Hcore as (Hq & Hloc & Hdig). fold v in Hloc.
    destruct (binary_round_aux_correct false q e' l v ltac:(lia) Hloc (or_intror Hdig))
      as (m & e & Hm & Hr & Herr & He).
    pose proof (inloc_bounds _ _ _ Hloc) as [Hqv _].
    apply div_pow2_le in Hqv.
    pose proof (half_ulp_bound q e' v Hq Hqv) as Hulp.
    assert (Hd : (Zdigits2 q + e' <= 970)%Z).
    { pose proof (Zdigits2_R q Hq) as [Hlo _].
      destruct (Z_le_gt_dec (Zdigits2 q + e') 970) as [| Hgt]; [assumption |].
      assert (pow2 970 <= pow2 (Zdigits2 q - 1 + e')) by (apply pow2_le; lia).
      rewrite pow2_add in H. pose proof (pow2_pos e'). nra. }
    assert (He' : (e <= 971)%Z).
    { pose proof (Zdigits2_pos q Hq). rewrite fexp64 in He, Hdig. lia. }
    destruct (round_result_value false m e ltac:(lia) He') as [Hfin Hval].
    rewrite <- Hr in Hfin, Hval.
    split; [exact Hfin |].
    rewrite Hval. cbn [sgn]. rewrite Rmult_1_l. lra.
Qed.

(** ** Division *)

Lemma new_location_correct (m2 r : Z) :
  (0 <= r < m2)%Z ->
  forall q : Z, inloc (IZR q + IZR r / IZR m2) q (new_location m2 r).
Proof.
  intros Hr q.
  assert (Hm2 : 0 < IZR m2) by (apply IZR_lt; lia).
  assert (Hr0 : 0 <= IZR r) by (apply IZR_le; lia).
  assert (Hhalf : forall c, (c = Lt -> 2 * r < m2)%Z -> (c = Eq -> 2 * r = m2)%Z ->
                            (c = Gt -> m2 < 2 * r)%Z -> (r <> 0)%Z ->
                            inloc (IZR q + IZR r / IZR m2) q (loc_Inexact c)).
  { intros c HLt HEq HGt Hnz.
    assert (1 <= IZR r) by (apply IZR_le; lia).
    assert (IZR r < IZR m2) by (apply IZR_lt; lia).
    assert (0 < IZR r / IZR m2) by (apply Rdiv_lt_0_compat; lra).
    assert (IZR r / IZR m2 < 1).
    { apply (Rmult_lt_reg_r (IZR m2)); [exact Hm2 |].
      unfold Rdiv. rewrite Rmult_assoc, Rinv_l by lra. lra. }
    destruct c; cbn [inloc].
    - specialize (HEq eq_refl).
      assert (2 * IZR r = IZR m2) by (rewrite <- mult_IZR; f_equal; exact HEq).
      assert (IZR r / IZR m2 = / 2) by (field_simplify_eq; lra).
      lra.
    - specialize (HLt eq_refl).
      assert (2 * IZR r < IZR m2) by (rewrite <- mult_IZR; apply IZR_lt; exact HLt).
      assert (IZR r / IZR m2 < / 2).
      { apply (Rmult_lt_reg_r (IZR m2)); [exact Hm2 |].
        unfold Rdiv. rewrite Rmult_assoc, Rinv_l by lra. lra. }
      lra.
    - specialize (HGt eq_refl).
      assert (IZR m2 < 2 * IZR r) by (rewrite <- mult_IZR; apply IZR_lt; exact HGt).
      assert (/ 2 < IZR r / IZR m2).
      { apply (Rmult_lt_reg_r (IZR m2)); [exact Hm2 |].
        unfold Rdiv. rewrite Rmult_assoc, Rinv_l by lra. lra. }
      lra. }
  unfold new_location, new_location_even, new_location_odd.
  destruct (Z.even m2) eqn:Heven; destruct (Z.eqb_spec r 0) as [-> | Hnz].
  - cbn [inloc]. unfold Rdiv. rewrite Rmult_0_l. lra.
  - destruct (Z.compare_spec (2 * r) m2) as [Hc | Hc | Hc];
      apply Hhalf; try exact Hnz; intros E; try discriminate E; lia.
  - cbn [inloc]. unfold Rdiv. rewrite Rmult_0_l. lra.
  - assert (Hodd : (m2 <> 2 * r)%Z).
    { intros E. rewrite E, Z.even_mul in Heven. discriminate. }
    destruct (Z.compare_spec (2 * r + 1) m2) as [Hc | Hc | Hc];
      apply Hhalf; try exact Hnz; intros E; try discriminate E; lia.
Qed.

Lemma SFdiv_core_binary_correct mx ex my ey :
  let '(q, e', l) := SFdiv_core_binary prec emax (Zpos mx) ex (Zpos my) ey in
  let v := IZR (Zpos mx) * pow2 ex / (IZR (Zpos my) * pow2 ey) in
  (0 <= q)%Z /\
  inloc (v / pow2 e') q l /\
  (e' <= fexp prec emax (Zdigits2 q + e'))%Z /\
  (q = 0%Z -> fexp prec emax (Zdigits2 q + e') = (-1074)%Z).
Proof.
  unfold SFdiv_core_binary.
  set (d1 := Zdigits2 (Zpos mx)). set (d2 := Zdigits2 (Zpos my)).
  set (D := (d1 + ex - (d2 + ey))%Z).
  set (e' := Z.min (fexp prec emax D) (ex - ey)).
  set (s := (ex - ey - e')%Z).
  assert (Hs : (0 <= s)%Z) by (unfold s, e'; lia).
  set (m' := match s with
             | Zpos _ => Z.shiftl (Zpos mx) s
             | 0%Z => Zpos mx
             | Zneg _ => 0%Z
             end).
  assert (Hm' : m' = (Zpos mx * 2 ^ s)%Z).
  { unfold m'. destruct s as [| p | p]; [rewrite Z.pow_0_r; lia | | lia].
    apply Z.shiftl_mul_pow2. lia. }
  clearbody m'.
  assert (Hpow : (0 < 2 ^ s)%Z) by (apply Z.pow_pos_nonneg; lia).
  pose proof (Z_div_mod m' (Zpos my) ltac:(lia)) as Hspec.
  destruct (Z.div_eucl m' (Zpos my)) as [q r]. destruct Hspec as [Hqr Hr].
  assert (Hq0 : (0 <= q)%Z) by nia.
  pose proof (pow2_pos e') as Hpe. pose proof (pow2_pos ey) as Hpey.
  assert (HmyR : 0 < IZR (Zpos my)) by (apply IZR_lt; lia).
  cbv zeta. split; [exact Hq0 |].
  pose proof (Zdigits2_bounds (Zpos mx) ltac:(lia)) as [Hlo1 _]. fold d1 in Hlo1.
  pose proof (Zdigits2_bounds (Zpos my) ltac:(lia)) as [_ Hhi2]. fold d2 in Hhi2.
  pose proof (Zdigits2_pos (Zpos mx) ltac:(lia)) as Hd1. fold d1 in Hd1.
  pose proof (Zdigits2_pos (Zpos my) ltac:(lia)) as Hd2. fold d2 in Hd2.
  assert (Hm'lo : (2 ^ (d1 - 1 + s) <= m')%Z).
  { rewrite Hm', Z.pow_add_r by lia. nia. }
  split; [| split].
  - (* location *)
    replace (IZR (Zpos mx) * pow2 ex / (IZR (Zpos my) * pow2 ey) / pow2 e')
      with (IZR q + IZR r / IZR (Zpos my)).
    + apply new_location_correct. exact Hr.
    + assert (Em : IZR m' = IZR (Zpos my) * IZR q + IZR r)
        by (rewrite Hqr, plus_IZR, mult_IZR; reflexivity).
      assert (Ex : IZR (Zpos mx) * pow2 ex = IZR m' * pow2 e' * pow2 ey).
      { rewrite Hm', mult_IZR, <- pow2_IZR by exact Hs.
        replace (pow2 ex) with (pow2 (s + e' + ey)) by (f_equal; unfold s; lia).
        rewrite !pow2_add. ring. }
      rewrite Ex, Em. field. lra.
  - (* enough digits *)
    destruct (Z.eq_dec q 0) as [-> | Hqnz].
    + (* the quotient is below one unit: the result is subnormal *)
      assert (Hlt : (m' < Zpos my)%Z) by lia.
      assert (HD : (D <= e')%Z).
      { destruct (Z_le_gt_dec D e') as [| Hgt]; [assumption | exfalso].
        assert (H1 : (2 ^ d2 <= 2 ^ (d1 - 1 + s))%Z)
          by (apply Z.pow_le_mono_r; unfold D, s in *; lia).
        lia. }
      cbn [Zdigits2]. unfold e', fexp, SpecFloat.emin in *. lia.
    + apply Z.le_trans with (fexp prec emax D); [unfold e'; lia |].
      apply fexp_mono.
      assert (Hq1 : (0 < q)%Z) by lia.
      pose proof (Zdigits2_pos q Hq1) as Hdq.
      destruct (Z_le_gt_dec 0 (d1 - 1 + s - d2)) as [Hk | Hk].
      * assert (Hqk : (2 ^ (d1 - 1 + s - d2) <= q)%Z).
        { destruct (Z_le_gt_dec (2 ^ (d1 - 1 + s - d2)) q) as [| Hgt]; [assumption | exfalso].
          assert (H1 : (2 ^ (d1 - 1 + s) = 2 ^ (d1 - 1 + s - d2) * 2 ^ d2)%Z).
          { rewrite <- Z.pow_add_r by lia. f_equal. lia. }
          assert (H2 : (0 < 2 ^ (d1 - 1 + s - d2))%Z) by (apply Z.pow_pos_nonneg; lia).
          nia. }
        pose proof (Zdigits2_ge q _ Hqk Hk). unfold D, s in *. lia.
      * unfold D, s in *. lia.
  - intros ->.
    assert (Hlt : (m' < Zpos my)%Z) by lia.
    assert (HD : (D <= e')%Z).
    { destruct (Z_le_gt_dec D e') as [| Hgt]; [assumption | exfalso].
      assert (H1 : (2 ^ d2 <= 2 ^ (d1 - 1 + s))%Z)
        by (apply Z.pow_le_mono_r; unfold D, s in *; lia).
      lia. }
    cbn [Zdigits2]. unfold e', fexp, SpecFloat.emin in *. lia.
Qed.

Lemma SFdiv_correct x y :
  SFfinite x = true -> SFfinite y = true -> SF2R y <> 0 ->
  Rabs (SF2R x / SF2R y) < pow2 970 ->
  SFfinite (SFdiv prec emax x y) = true /\
  Rabs (SF2R (SFdiv prec emax x y) - SF2R x / SF2R y)
    <= u64 * Rabs (SF2R x / SF2R y) + eta64.
Proof.
  pose proof u64_pos as Hu. pose proof eta64_pos as Heta.
  destruct x as [sx | sx | | sx mx ex], y as [sy | sy | | sy my ey];
    try discriminate; intros _ _ Hy Hlt; cbn [SFdiv];
    try (exfalso; apply Hy; reflexivity).
  - split; [reflexivity |]. cbn [SF2R]. unfold Rdiv.
    rewrite Rmult_0_l, Rminus_0_r, Rabs_R0. lra.
  - cbn [SF2R] in *.
    set (v := IZR (Zpos mx) * pow2 ex / (IZR (Zpos my) * pow2 ey)).
    pose proof (pow2_pos ex) as Hpex. pose proof (pow2_pos ey) as Hpey.
    assert (HmxR : 0 < IZR (Zpos mx)) by (apply IZR_lt; lia).
    assert (HmyR : 0 < IZR (Zpos my)) by (apply IZR_lt; lia).
    assert (Hv0 : 0 < v).
    { unfold v. apply Rdiv_lt_0_compat; apply Rmult_lt_0_compat; assumption. }
    assert (Hquot : sgn sx * (IZR (Zpos mx) * pow2 ex) / (sgn sy * (IZR (Zpos my) * pow2 ey))
                    = sgn (xorb sx sy) * v).
    { unfold v. rewrite sgn_xorb. destruct sx, sy; unfold sgn; field; nra. }
    rewrite Hquot in Hlt |- *.
    rewrite Rabs_mult, Rabs_sgn, Rmult_1_l, (Rabs_pos_eq v) in Hlt |- * by lra.
    pose proof (SFdiv_core_binary_correct mx ex my ey) as Hcore.
    destruct (SFdiv_core_binary prec emax (Zpos mx) ex (Zpos my) ey) as [[q e'] l].
    cbv zeta in Hcore. fold v in Hcore.
    destruct Hcore as (Hq & Hloc & Hdig & Hzero).
    destruct (binary_round_aux_correct (xorb sx sy) q e' l v Hq Hloc (or_intror Hdig))
      as (m & e & Hm & Hr & Herr & He).
    pose proof (inloc_bounds _ _ _ Hloc) as [Hqv _].
    apply div_pow2_le in Hqv.
    assert (Hulp : pow2 (fexp prec emax (Zdigits2 q + e') - 1) <= u64 * v + eta64).
    { destruct (Z.eq_dec q 0) as [Hq0 | Hqnz].
      - rewrite (Hzero Hq0). change (pow2 (-1074 - 1)) with eta64. nra.
      - apply half_ulp_bound; [lia | exact Hqv]. }
    assert (He' : (e <= 971)%Z).
    { destruct (Z.eq_dec q 0) as [Hq0 | Hqnz].
      - rewrite (Hzero Hq0) in He, Hdig. lia.
      - assert (Hq1 : (0 < q)%Z) by lia.
        pose proof (Zdigits2_R q Hq1) as [Hlo _].
        pose proof (Zdigits2_pos q Hq1).
        assert (Hd : (Zdigits2 q + e' <= 970)%Z).
        { destruct (Z_le_gt_dec (Zdigits2 q + e') 970) as [| Hgt]; [assumption |].
          assert (pow2 970 <= pow2 (Zdigits2 q - 1 + e')) by (apply pow2_le; lia).
          rewrite pow2_add in H0. pose proof (pow2_pos e'). nra. }
        rewrite fexp64 in He, Hdig. lia. }
    destruct (round_result_value (xorb sx sy) m e ltac:(lia) He') as [Hfin Hval].
    rewrite <- Hr in Hfin, Hval.
    split; [exact Hfin |].
    rewrite Hval.
    replace (sgn (xorb sx sy) * (IZR m * pow2 e) - sgn (xorb sx sy) * v)
      with (sgn (xorb sx sy) * (IZR m * pow2 e - v)) by lra.
    rewrite Rabs_mult, Rabs_sgn. lra.
Qed.

(** ** Comparison *)

Lemma valid_binary_finite s m e :
  SpecFloat.valid_binary prec emax (S754_finite s m e) = true ->
  (e = fexp prec emax (Zdigits2 (Zpos m) + e) /\ e <= 971)%Z.
Proof.
  cbn [SpecFloat.valid_binary]. unfold bounded, canonical_mantissa.
  intros H. apply andb_prop in H. destruct H as [H1 H2].
  apply Z.eqb_eq in H1. apply Z.leb_le in H2.
  cbn [Zdigits2]. split; [symmetry; exact H1 | exact H2].
Qed.

Lemma SFleb_correct a mb eb :
  SpecFloat.valid_binary prec emax a = true ->
  SpecFloat.valid_binary prec emax (S754_finite false mb eb) = true ->
  SFfinite a = true -> 0 <= SF2R a ->
  SF2R a <= SF2R (S754_finite false mb eb) ->
  SFleb a (S754_finite false mb eb) = true.
Proof.
  intros Va Vb Fa Ha Hle.
  destruct a as [sa | sa | | sa ma ea]; try discriminate; [reflexivity |].
  assert (HmaR : 0 < IZR (Zpos ma) * pow2 ea)
    by (apply Rmult_lt_0_compat; [apply IZR_lt; lia | apply pow2_pos]).
  destruct sa; [cbn [SF2R sgn] in Ha; lra |].
  cbn [SF2R sgn] in Hle. rewrite !Rmult_1_l in Hle.
  apply valid_binary_finite in Va, Vb.
  destruct Va as [Va _], Vb as [Vb _]. rewrite fexp64 in Va, Vb.
  unfold SFleb, SFcompare.
  destruct (Z.compare_spec ea eb) as [He | He | He].
  - subst eb. pose proof (pow2_pos ea) as Hp.
    assert (Hm : (Zpos ma <= Zpos mb)%Z).
    { apply le_IZR. nra. }
    change (Pos.compare_cont Eq ma mb) with (Pos.compare ma mb).
    destruct (Pos.compare_spec ma mb); try reflexivity. lia.
  - reflexivity.
  - exfalso.
    pose proof (Zdigits2_R (Zpos ma) ltac:(lia)) as [Hlo _].
    pose proof (Zdigits2_R (Zpos mb) ltac:(lia)) as [_ Hhi].
    assert (Hda : (Zdigits2 (Zpos ma) = 53)%Z) by lia.
    assert (Hdb : (Zdigits2 (Zpos mb) <= 53)%Z) by lia.
    rewrite Hda in Hlo.
    assert (H1 : pow2 (Zdigits2 (Zpos mb)) <= pow2 53) by (apply pow2_le; lia).
    assert (H2 : pow2 (53 + eb) <= pow2 (53 - 1 + ea)) by (apply pow2_le; lia).
    rewrite !pow2_add in H2.
    pose proof (pow2_pos ea). pose proof (pow2_pos eb). pose proof (pow2_pos 53).
    assert (Hb3 : IZR (Zpos mb) * pow2 eb < pow2 53 * pow2 eb) by nra.
    assert (Hb4 : pow2 (53 - 1) * pow2 ea <= IZR (Zpos ma) * pow2 ea) by nra.
    lra.
Qed.

(** ** Binary64 operations on primitive floats *)

Lemma mul_correct (x y : float) :
  finite x -> finite y -> Rabs (F2R x * F2R y) < pow2 970 ->
  finite (x * y)%float /\
  Rabs (F2R (x * y)%float - F2R x * F2R y) <= u64 * Rabs (F2R x * F2R y) + eta64.
Proof. unfold finite, F2R. rewrite FloatAxioms.mul_spec. apply SFmul_correct. Qed.

Lemma add_correct (x y : float) :
  finite x -> finite y -> Rabs (F2R x + F2R y) < pow2 970 ->
  finite (x + y)%float /\
  Rabs (F2R (x + y)%float - (F2R x + F2R y)) <= u64 * Rabs (F2R x + F2R y) + eta64.
Proof. unfold finite, F2R. rewrite FloatAxioms.add_spec. apply SFadd_correct. Qed.

Lemma sub_correct (x y : float) :
  finite x -> finite y -> Rabs (F2R x - F2R y) < pow2 970 ->
  finite (x - y)%float /\
  Rabs (F2R (x - y)%float - (F2R x - F2R y)) <= u64 * Rabs (F2R x - F2R y) + eta64.
Proof. unfold finite, F2R. rewrite FloatAxioms.sub_spec. apply SFsub_correct. Qed.

Lemma div_correct (x y : float) :
  finite x -> finite y -> F2R y <> 0 -> Rabs (F2R x / F2R y) < pow2 970 ->
  finite (x / y)%float /\
  Rabs (F2R (x / y)%float - F2R x / F2R y) <= u64 * Rabs (F2R x / F2R y) + eta64.
Proof. unfold finite, F2R. rewrite FloatAxioms.div_spec. apply SFdiv_correct. Qed.

Lemma sqrt_correct (x : float) :
  finite x -> 0 <= F2R x -> R_sqrt.sqrt (F2R x) < pow2 970 ->
  finite (PrimFloat.sqrt x) /\
  Rabs (F2R (PrimFloat.sqrt x) - R_sqrt.sqrt (F2R x))
    <= u64 * R_sqrt.sqrt (F2R x) + eta64.
Proof. unfold finite, F2R. rewrite FloatAxioms.sqrt_spec. apply SFsqrt_correct. Qed.

Lemma abs_correct (x : float) :
  finite x -> finite (abs x) /\ F2R (abs x) = Rabs (F2R x).
Proof.
  unfold finite, F2R. rewrite FloatAxioms.abs_spec.
  destruct (Prim2SF x) as [s | s | | s m e]; try discriminate; intros _;
    (split; [reflexivity |]); cbn [SFabs SF2R]; rewrite ?Rabs_R0; try reflexivity.
  assert (0 < IZR (Zpos m) * pow2 e)
    by (apply Rmult_lt_0_compat; [apply IZR_lt; lia | apply pow2_pos]).
  rewrite Rabs_mult, Rabs_sgn, Rabs_pos_eq by lra. cbn [sgn]. lra.
Qed.

Lemma leb_correct (x y : float) :
  finite x -> 0 <= F2R x -> 0 < F2R y -> finite y -> F2R x <= F2R y ->
  (x <=? y)%float = true.
Proof.
  unfold finite, F2R. rewrite FloatAxioms.leb_spec.
  intros Fx Hx Hy Fy Hle.
  pose proof (Prim2SF_valid x) as Vx. pose proof (Prim2SF_valid y) as Vy.
  destruct (Prim2SF y) as [sy | sy | | sy my ey]; try discriminate.
  - cbn [SF2R] in Hy. lra.
  - destruct sy.
    + exfalso. cbn [SF2R sgn] in Hy.
      assert (0 < IZR (Zpos my) * pow2 ey)
        by (apply Rmult_lt_0_compat; [apply IZR_lt; lia | apply pow2_pos]).
      lra.
    + apply SFleb_correct; assumption.
Qed.

End binary64_rounding.

(** * Accuracy of the computed norm *)

Module norm_accuracy.
Import real_value binary64_rounding.
Local Open Scope R_scope.

Local Abbreviation fnorm w x y z := (Eigen.norm (Eigen.Build w x y z)) (only parsing).

(** Numeric values of the constants. *)
Lemma pow2_neg_val k : (0 <= k)%Z -> pow2 (- k) = / IZR (2 ^ k).
Proof. intros Hk. rewrite pow2_opp, pow2_IZR by exact Hk. reflexivity. Qed.

Lemma u64_val : u64 = / 9007199254740992.
Proof. unfold u64. change (-53)%Z with (- (53))%Z. rewrite pow2_neg_val by lia. reflexivity. Qed.

Lemma constants :
  0 < eta64 /\ eta64 * 1024 <= lo * / 1024 * u64 /\ 0 < lo /\ lo <= 1 /\ 1 <= hi /\ hi * 1024 = big.
Proof.
  unfold eta64, lo, hi, big, u64.
  pose proof (pow2_pos (-1075)). pose proof (pow2_pos (-960)).
  assert (pow2 (-960) <= pow2 0) by (apply pow2_le; lia).
  assert (pow2 0 <= pow2 960) by (apply pow2_le; lia).
  rewrite pow2_0 in *.
  assert (E1 : pow2 970 = pow2 960 * 1024).
  { change 970%Z with (960 + 10)%Z. rewrite pow2_add. f_equal.
    rewrite pow2_IZR by lia. reflexivity. }
  assert (E2 : pow2 (-1075) * 1024 <= pow2 (-960) * / 1024 * pow2 (-53)).
  { assert (E10 : pow2 10 = 1024) by (rewrite pow2_IZR by lia; reflexivity).
    assert (Em10 : pow2 (-10) = / 1024).
    { change (-10)%Z with (- (10))%Z. rewrite pow2_opp, E10. reflexivity. }
    rewrite <- E10 at 1. rewrite <- Em10. rewrite <- !pow2_add. apply pow2_le. lia. }
  repeat split; lra.
Qed.

(** ** The operations with an explicit bound on the exact result *)

Lemma Rabs_le_inv a T : Rabs a <= T -> - T <= a <= T.
Proof. unfold Rabs. destruct (Rcase_abs a); lra. Qed.

Lemma Rabs_bound a T : - T <= a <= T -> Rabs a <= T.
Proof. intros H. apply Rabs_le. exact H. Qed.

Lemma mul_bound (x y : double) (T : R) :
  finite x -> finite y -> Rabs (F2R x * F2R y) <= T -> T < big ->
  finite (x * y)%float /\
  F2R x * F2R y - (u64 * T + eta64) <= F2R (x * y)%float
    <= F2R x * F2R y + (u64 * T + eta64).
Proof.
  intros Fx Fy HT Hbig. pose proof u64_pos.
  destruct (mul_correct x y Fx Fy) as [F H1]; [unfold big in Hbig; lra |].
  split; [exact F |]. apply Rabs_le_inv in H1. nra.
Qed.

Lemma add_bound (x y : double) (T : R) :
  finite x -> finite y -> Rabs (F2R x + F2R y) <= T -> T < big ->
  finite (x + y)%float /\
  F2R x + F2R y - (u64 * T + eta64) <= F2R (x + y)%float
    <= F2R x + F2R y + (u64 * T + eta64).
Proof.
  intros Fx Fy HT Hbig. pose proof u64_pos.
  destruct (add_correct x y Fx Fy) as [F H1]; [unfold big in Hbig; lra |].
  split; [exact F |]. apply Rabs_le_inv in H1. nra.
Qed.

Lemma sub_bound (x y : double) (T : R) :
  finite x -> finite y -> Rabs (F2R x - F2R y) <= T -> T < big ->
  finite (x - y)%float /\
  F2R x - F2R y - (u64 * T + eta64) <= F2R (x - y)%float
    <= F2R x - F2R y + (u64 * T + eta64).
Proof.
  intros Fx Fy HT Hbig. pose proof u64_pos.
  destruct (sub_correct x y Fx Fy) as [F H1]; [unfold big in Hbig; lra |].
  split; [exact F |]. apply Rabs_le_inv in H1. nra.
Qed.

Lemma div_bound (x y : double) (T : R) :
  finite x -> finite y -> F2R y <> 0 -> Rabs (F2R x / F2R y) <= T -> T < big ->
  finite (x / y)%float /\
  F2R x / F2R y - (u64 * T + eta64) <= F2R (x / y)%float
    <= F2R x / F2R y + (u64 * T + eta64).
Proof.
  intros Fx Fy Hy HT Hbig. pose proof u64_pos.
  destruct (div_correct x y Fx Fy Hy) as [F H1]; [unfold big in Hbig; lra |].
  split; [exact F |]. apply Rabs_le_inv in H1. nra.
Qed.

Lemma sqrt_bound (x : double) (T : R) :
  finite x -> 0 <= F2R x -> R_sqrt.sqrt (F2R x) <= T -> T < big ->
  finite (PrimFloat.sqrt x) /\
  R_sqrt.sqrt (F2R x) - (u64 * T + eta64) <= F2R (PrimFloat.sqrt x)
    <= R_sqrt.sqrt (F2R x) + (u64 * T + eta64).
Proof.
  intros Fx Hx HT Hbig. pose proof u64_pos.
  destruct (sqrt_correct x Fx Hx) as [F H1]; [unfold big in Hbig; lra |].
  split; [exact F |]. apply Rabs_le_inv in H1. nra.
Qed.

(** ** The squared norm *)

Lemma squaredNorm_accurate (w x y z : double) :
  finite w -> finite x -> finite y -> finite z ->
  sumsq w x y z <= hi ->
  let s := (x * x + y * y + z * z + w * w)%float in
  finite s /\
  Rabs (F2R s - sumsq w x y z) <= 8 * u64 * sumsq w x y z + 8 * eta64.
Proof.
  intros Fw Fx Fy Fz Hhi s. subst s. unfold sumsq in *.
  destruct constants as (He & Hel & Hlo & Hlo1 & Hhi1 & Hbig).
  pose proof u64_val as Hu.
  assert (HPw : 0 <= F2R w * F2R w) by nra.
  assert (HPx : 0 <= F2R x * F2R x) by nra.
  assert (HPy : 0 <= F2R y * F2R y) by nra.
  assert (HPz : 0 <= F2R z * F2R z) by nra.
  remember (F2R w * F2R w) as Pw. remember (F2R x * F2R x) as Px.
  remember (F2R y * F2R y) as Py. remember (F2R z * F2R z) as Pz.
  destruct (mul_bound x x Px Fx Fx) as [Fxx Hxx];
    [rewrite <- HeqPx; apply Rabs_bound; lra | lra |]. rewrite <- HeqPx in Hxx.
  destruct (mul_bound y y Py Fy Fy) as [Fyy Hyy];
    [rewrite <- HeqPy; apply Rabs_bound; lra | lra |]. rewrite <- HeqPy in Hyy.
  destruct (mul_bound z z Pz Fz Fz) as [Fzz Hzz];
    [rewrite <- HeqPz; apply Rabs_bound; lra | lra |]. rewrite <- HeqPz in Hzz.
  destruct (mul_bound w w Pw Fw Fw) as [Fww Hww];
    [rewrite <- HeqPw; apply Rabs_bound; lra | lra |]. rewrite <- HeqPw in Hww.
  clear HeqPw HeqPx HeqPy HeqPz.
  remember (F2R (x * x)%float) as pxx. remember (F2R (y * y)%float) as pyy.
  remember (F2R (z * z)%float) as pzz. remember (F2R (w * w)%float) as pww.
  rewrite Hu in *.
  destruct (add_bound (x * x) (y * y) (2 * (Px + Py) + 2 * eta64) Fxx Fyy) as [F1 H1];
    [rewrite <- Heqpxx, <- Heqpyy; apply Rabs_bound; lra | lra |].
  rewrite <- Heqpxx, <- Heqpyy, Hu in H1.
  remember (F2R (x * x + y * y)%float) as s1.
  destruct (add_bound (x * x + y * y) (z * z) (2 * (Px + Py + Pz) + 5 * eta64) F1 Fzz) as [F2 H2];
    [rewrite <- Heqs1, <- Heqpzz; apply Rabs_bound; lra | lra |].
  rewrite <- Heqs1, <- Heqpzz, Hu in H2.
  remember (F2R (x * x + y * y + z * z)%float) as s2.
  destruct (add_bound (x * x + y * y + z * z) (w * w)
              (2 * (Px + Py + Pz + Pw) + 7 * eta64) F2 Fww) as [F3 H3];
    [rewrite <- Heqs2, <- Heqpww; apply Rabs_bound; lra | lra |].
  rewrite <- Heqs2, <- Heqpww, Hu in H3.
  split; [exact F3 |].
  apply Rabs_bound. lra.
Qed.

(** ** Real square roots *)

Lemma sqrt_ge (a s : R) : 0 <= a -> a * a <= s -> a <= R_sqrt.sqrt s.
Proof.
  intros Ha H. rewrite <- (sqrt_square a) at 1 by exact Ha.
  apply sqrt_le_1_alt. exact H.
Qed.

Lemma sqrt_le' (a s : R) : 0 <= a -> s <= a * a -> R_sqrt.sqrt s <= a.
Proof.
  intros Ha H. rewrite <- (sqrt_square a) by exact Ha.
  apply sqrt_le_1_alt. exact H.
Qed.

Lemma sqrt_approx (sigma s eps : R) :
  0 <= sigma -> 0 <= eps <= 1 ->
  sigma * (1 - eps) <= s <= sigma * (1 + eps) ->
  R_sqrt.sqrt sigma * (1 - eps) <= R_sqrt.sqrt s <= R_sqrt.sqrt sigma * (1 + eps).
Proof.
  intros Hsig Heps Hs.
  pose proof (sqrt_pos sigma) as HN.
  pose proof (sqrt_sqrt sigma Hsig) as HNN.
  set (N := R_sqrt.sqrt sigma) in *.
  split.
  - apply sqrt_ge; [nra |].
    replace (N * (1 - eps) * (N * (1 - eps))) with (N * N * ((1 - eps) * (1 - eps))) by ring.
    rewrite HNN. nra.
  - apply sqrt_le'; [nra |].
    replace (N * (1 + eps) * (N * (1 + eps))) with (N * N * ((1 + eps) * (1 + eps))) by ring.
    rewrite HNN. nra.
Qed.

Lemma sqrt_bounds_lo_hi (sigma : R) :
  lo <= sigma <= hi -> lo <= R_sqrt.sqrt sigma <= hi.
Proof.
  intros [H1 H2]. destruct constants as (He & Hel & Hlo & Hlo1 & Hhi1 & Hbig).
  split.
  - apply sqrt_ge; [lra | nra].
  - apply sqrt_le'; [lra | nra].
Qed.

(** Near one the square root halves the distance, up to a factor. *)
Lemma sqrt_near_one (sigma eps : R) :
  0 <= eps <= / 2 -> 1 - eps <= sigma <= 1 + eps ->
  1 - 6 / 10 * eps <= R_sqrt.sqrt sigma <= 1 + 6 / 10 * eps.
Proof.
  intros Heps Hs. split.
  - apply sqrt_ge; nra.
  - apply sqrt_le'; nra.
Qed.

(** ** The norm *)

Lemma norm_accurate (w x y z : double) :
  finite w -> finite x -> finite y -> finite z ->
  lo <= sumsq w x y z <= hi ->
  let N := R_sqrt.sqrt (sumsq w x y z) in
  finite (fnorm w x y z) /\
  N * (1 - 12 * u64) <= F2R (fnorm w x y z) <= N * (1 + 12 * u64).
Proof.
  intros Fw Fx Fy Fz [Hlow Hhigh] N.
  change (Eigen.norm (Eigen.Build w x y z))
    with (PrimFloat.sqrt (x * x + y * y + z * z + w * w)%float).
  destruct constants as (He & Hel & Hlo & Hlo1 & Hhi1 & Hbig).
  pose proof u64_val as Hu.
  destruct (squaredNorm_accurate w x y z Fw Fx Fy Fz Hhigh) as [Fs Hs].
  cbv zeta in Fs, Hs. apply Rabs_le_inv in Hs.
  pose proof (sqrt_bounds_lo_hi _ (conj Hlow Hhigh)) as [HNlo HNhi]. fold N in HNlo, HNhi.
  remember (sumsq w x y z) as sigma.
  remember (F2R (x * x + y * y + z * z + w * w)%float) as s.
  rewrite Hu in *.
  assert (Hs' : sigma * (1 - 9 * / 9007199254740992) <= s
                <= sigma * (1 + 9 * / 9007199254740992)) by lra.
  pose proof (sqrt_approx sigma s (9 * / 9007199254740992) ltac:(lra) ltac:(lra) Hs')
    as Hsq.
  fold N in Hsq.
  destruct (sqrt_bound (x * x + y * y + z * z + w * w)%float (2 * N) Fs) as [Fn Hn];
    [rewrite <- Heqs; lra | rewrite <- Heqs; lra | lra |].
  rewrite <- Heqs, Hu in Hn.
  split; [exact Fn |].
  remember (R_sqrt.sqrt s) as rs. clear Heqrs.
  remember (F2R (PrimFloat.sqrt (x * x + y * y + z * z + w * w))) as n.
  clearbody N. lra.
Qed.

(** ** Division by the norm *)

Lemma quot_close (a t Q eps : R) :
  Q = a * t -> -1 <= Q <= 1 -> 0 <= eps <= / 4 -> 1 - eps <= t <= 1 + eps ->
  - (2 * eps) <= a - Q <= 2 * eps.
Proof.
  intros HQ HQ1 Heps Ht.
  assert (Ha : - (4 / 3) <= a <= 4 / 3) by (split; nra).
  subst Q. split; nra.
Qed.

Lemma sq_close (a Q delta : R) :
  - delta <= a - Q <= delta -> -1 <= Q <= 1 -> 0 <= delta <= 1 ->
  - (3 * delta) <= a * a - Q * Q <= 3 * delta.
Proof. intros Ha HQ Hd. split; nra. Qed.

Lemma coefficient_le_norm (c sigma : R) :
  0 <= sigma -> c * c <= sigma ->
  - R_sqrt.sqrt sigma <= c <= R_sqrt.sqrt sigma.
Proof.
  intros Hs Hc. destruct (Rle_lt_dec 0 c) as [Hpos | Hneg]; split.
  - pose proof (sqrt_pos sigma). lra.
  - apply sqrt_ge; assumption.
  - assert (- c <= R_sqrt.sqrt sigma) by (apply sqrt_ge; nra). lra.
  - pose proof (sqrt_pos sigma). lra.
Qed.

Lemma coefficient_accurate (c n : double) (N : R) :
  finite c -> finite n ->
  lo <= N ->
  N * (1 - 12 * u64) <= F2R n <= N * (1 + 12 * u64) ->
  - N <= F2R c <= N ->
  finite (c / n)%float /\
  - (27 * u64) <= F2R (c / n)%float - F2R c / N <= 27 * u64.
Proof.
  intros Fc Fn HN Hn Hc.
  destruct constants as (He & Hel & Hlo & Hlo1 & Hhi1 & Hbig).
  pose proof u64_val as Hu. rewrite Hu in *.
  remember (F2R c) as C. remember (F2R n) as n'.
  assert (HNpos : 0 < N) by lra.
  assert (Hn'pos : 0 < n') by nra.
  set (a0 := C / n'). set (Q := C / N). set (t := n' / N).
  assert (HQ : Q = a0 * t) by (unfold Q, a0, t; field; lra).
  assert (HQ1 : -1 <= Q <= 1).
  { unfold Q. split.
    - apply (Rmult_le_reg_r N); [exact HNpos |].
      unfold Rdiv. rewrite Rmult_assoc, Rinv_l by lra. lra.
    - apply (Rmult_le_reg_r N); [exact HNpos |].
      unfold Rdiv. rewrite Rmult_assoc, Rinv_l by lra. lra. }
  assert (Ht : 1 - 12 * / 9007199254740992 <= t <= 1 + 12 * / 9007199254740992).
  { unfold t. split.
    - apply (Rmult_le_reg_r N); [exact HNpos |].
      unfold Rdiv. rewrite Rmult_assoc, Rinv_l by lra. lra.
    - apply (Rmult_le_reg_r N); [exact HNpos |].
      unfold Rdiv. rewrite Rmult_assoc, Rinv_l by lra. lra. }
  pose proof (quot_close a0 t Q (12 * / 9007199254740992) HQ HQ1 ltac:(lra) Ht) as Hclose.
  assert (Ha0 : -2 <= a0 <= 2) by lra.
  destruct (div_bound c n 2 Fc Fn) as [Fa Ha];
    [rewrite <- Heqn'; lra
    | rewrite <- HeqC, <- Heqn'; fold a0; apply Rabs_bound; lra
    | lra |].
  rewrite <- HeqC, <- Heqn', Hu in Ha. fold a0 in Ha.
  split; [exact Fa |].
  fold Q. remember (F2R (c / n)%float) as a.
  clearbody a0 Q t. lra.
Qed.

Lemma normalized_accurate (w x y z : double) :
  finite w -> finite x -> finite y -> finite z ->
  lo <= sumsq w x y z <= hi ->
  let n := fnorm w x y z in
  (finite (w / n)%float /\ finite (x / n)%float /\
   finite (y / n)%float /\ finite (z / n)%float) /\
  - (324 * u64) <= sumsq (w / n) (x / n) (y / n) (z / n) - 1 <= 324 * u64.
Proof.
  intros Fw Fx Fy Fz Hs n.
  destruct constants as (He & Hel & Hlo & Hlo1 & Hhi1 & Hbig).
  pose proof u64_val as Hu.
  destruct (norm_accurate w x y z Fw Fx Fy Fz Hs) as [Fn Hn]. cbv zeta in Hn.
  fold n in Fn, Hn.
  pose proof (sqrt_bounds_lo_hi _ Hs) as [HNlo HNhi].
  assert (Hsig : 0 <= sumsq w x y z) by lra.
  pose proof (sqrt_sqrt _ Hsig) as HNN.
  set (N := R_sqrt.sqrt (sumsq w x y z)) in *.
  assert (Hcw : - N <= F2R w <= N) by (apply coefficient_le_norm; [exact Hsig | unfold sumsq; nra]).
  assert (Hcx : - N <= F2R x <= N) by (apply coefficient_le_norm; [exact Hsig | unfold sumsq; nra]).
  assert (Hcy : - N <= F2R y <= N) by (apply coefficient_le_norm; [exact Hsig | unfold sumsq; nra]).
  assert (Hcz : - N <= F2R z <= N) by (apply coefficient_le_norm; [exact Hsig | unfold sumsq; nra]).
  destruct (coefficient_accurate w n N Fw Fn HNlo Hn Hcw) as [Faw Haw].
  destruct (coefficient_accurate x n N Fx Fn HNlo Hn Hcx) as [Fax Hax].
  destruct (coefficient_accurate y n N Fy Fn HNlo Hn Hcy) as [Fay Hay].
  destruct (coefficient_accurate z n N Fz Fn HNlo Hn Hcz) as [Faz Haz].
  split; [repeat split; assumption |].
  assert (HNpos : 0 < N) by lra.
  assert (Hone : F2R w / N * (F2R w / N) + F2R x / N * (F2R x / N)
                 + F2R y / N * (F2R y / N) + F2R z / N * (F2R z / N) = 1).
  { unfold sumsq in HNN. field_simplify_eq; [| lra]. lra. }
  assert (HQ : forall c, - N <= c <= N -> -1 <= c / N <= 1).
  { intros c Hc. split.
    - apply (Rmult_le_reg_r N); [exact HNpos |].
      unfold Rdiv. rewrite Rmult_assoc, Rinv_l by lra. lra.
    - apply (Rmult_le_reg_r N); [exact HNpos |].
      unfold Rdiv. rewrite Rmult_assoc, Rinv_l by lra. lra. }
  rewrite Hu in *.
  pose proof (sq_close _ _ _ Haw (HQ _ Hcw) ltac:(lra)) as Sw.
  pose proof (sq_close _ _ _ Hax (HQ _ Hcx) ltac:(lra)) as Sx.
  pose proof (sq_close _ _ _ Hay (HQ _ Hcy) ltac:(lra)) as Sy.
  pose proof (sq_close _ _ _ Haz (HQ _ Hcz) ltac:(lra)) as Sz.
  unfold sumsq. lra.
Qed.

(** ** The unit-length check *)

Lemma F2R_one : finite 1%float /\ F2R 1%float = 1.
Proof.
  unfold finite, F2R.
  replace (Prim2SF 1%float) with (S754_finite false 4503599627370496 (-52))
    by (vm_compute; reflexivity).
  split; [reflexivity |].
  cbn [SF2R sgn].
  replace (pow2 (-52)) with (/ 4503599627370496)
    by (symmetry; exact (pow2_neg_val 52 ltac:(lia))).
  field.
Qed.

Lemma F2R_tolerance :
  finite 1e-6%float /\ F2R 1e-6%float = 4722366482869645 / 4722366482869645213696.
Proof.
  unfold finite, F2R.
  replace (Prim2SF 1e-6%float) with (S754_finite false 4722366482869645 (-72))
    by (vm_compute; reflexivity).
  split; [reflexivity |].
  cbn [SF2R sgn].
  replace (pow2 (-72)) with (/ 4722366482869645213696)
    by (symmetry; exact (pow2_neg_val 72 ltac:(lia))).
  field.
Qed.

Lemma lo_small : lo <= / 2.
Proof.
  unfold lo. replace (/ 2) with (pow2 (-1)).
  - apply pow2_le. lia.
  - exact (pow2_neg_val 1 ltac:(lia)).
Qed.

Lemma hi_large : 2 <= hi.
Proof.
  unfold hi. rewrite <- pow2_1. apply pow2_le. lia.
Qed.

Lemma sumsq_nonneg (w x y z : double) : 0 <= sumsq w x y z.
Proof. unfold sumsq. nra. Qed.

(** The check passes when the exact norm is within [1e-6] of [1] with a
    margin of [1e-14] for the rounding of the computed norm. *)
Lemma unit_check (w x y z : double) :
  finite w -> finite x -> finite y -> finite z ->
  Rabs (R_sqrt.sqrt (sumsq w x y z) - 1) <= / 1000000 - / 100000000000000 ->
  (abs (fnorm w x y z - 1) <=? 1e-6)%float = true.
Proof.
  intros Fw Fx Fy Fz HN. apply Rabs_le_inv in HN.
  destruct constants as (He & Hel & Hlo & Hlo1 & Hhi1 & Hbig).
  pose proof u64_val as Hu.
  destruct F2R_one as [F1 V1]. destruct F2R_tolerance as [Ft Vt].
  pose proof lo_small as Hlo2. pose proof hi_large as Hhi2.
  pose proof (sqrt_sqrt _ (sumsq_nonneg w x y z)) as HNN.
  assert (Hs : lo <= sumsq w x y z <= hi) by (split; nra).
  destruct (norm_accurate w x y z Fw Fx Fy Fz Hs) as [Fn Hn]. cbv zeta in Hn.
  remember (R_sqrt.sqrt (sumsq w x y z)) as N. clear HeqN HNN Hs.
  remember (fnorm w x y z) as n. clear Heqn.
  rewrite Hu in *.
  destruct (sub_bound n 1 1 Fn F1) as [Fd Hd];
    [rewrite V1; apply Rabs_bound; nra | lra |].
  rewrite V1, Hu in Hd.
  destruct (abs_correct _ Fd) as [Fa Va].
  apply leb_correct.
  - exact Fa.
  - rewrite Va. apply Rabs_pos.
  - rewrite Vt. lra.
  - exact Ft.
  - rewrite Va, Vt. apply Rabs_bound.
    remember (F2R (n - 1)%float) as d. clear Heqd. nra.
Qed.

(** In terms of the sum of squares, as the spec writes the condition. *)
Lemma unit_check_squares (w x y z : double) :
  finite w -> finite x -> finite y -> finite z ->
  Rabs (sumsq w x y z - 1) <= / 1000000 ->
  (abs (fnorm w x y z - 1) <=? 1e-6)%float = true.
Proof.
  intros Fw Fx Fy Fz Hs. apply Rabs_le_inv in Hs.
  apply unit_check; try assumption.
  pose proof (sqrt_near_one (sumsq w x y z) (/ 1000000) ltac:(lra) ltac:(lra)) as HN.
  apply Rabs_bound. lra.
Qed.

(** ** Two normalizations in a row *)

Lemma normalized_twice_unit (w x y z : double) :
  finite w -> finite x -> finite y -> finite z ->
  lo <= sumsq w x y z <= hi ->
  let n := fnorm w x y z in
  let n' := fnorm (w / n)%float (x / n)%float (y / n)%float (z / n)%float in
  let w' := (w / n / n')%float in
  let x' := (x / n / n')%float in
  let y' := (y / n / n')%float in
  let z' := (z / n / n')%float in
  (finite w' /\ finite x' /\ finite y' /\ finite z') /\
  Rabs (R_sqrt.sqrt (sumsq w' x' y' z') - 1) <= 200 * u64 /\
  (abs (fnorm w' x' y' z' - 1) <=? 1e-6)%float = true.
Proof.
  intros Fw Fx Fy Fz Hs n n' w' x' y' z'.
  pose proof u64_val as Hu.
  pose proof lo_small as Hlo2. pose proof hi_large as Hhi2.
  destruct (normalized_accurate w x y z Fw Fx Fy Fz Hs) as [(Fw1 & Fx1 & Fy1 & Fz1) H1].
  cbv zeta in *. fold n in Fw1, Fx1, Fy1, Fz1, H1.
  assert (Hs1 : lo <= sumsq (w / n) (x / n) (y / n) (z / n) <= hi)
    by (rewrite Hu in H1; lra).
  destruct (normalized_accurate _ _ _ _ Fw1 Fx1 Fy1 Fz1 Hs1) as [(Fw2 & Fx2 & Fy2 & Fz2) H2].
  cbv zeta in *.
  change (finite w') in Fw2. change (finite x') in Fx2.
  change (finite y') in Fy2. change (finite z') in Fz2.
  change (- (324 * u64) <= sumsq w' x' y' z' - 1 <= 324 * u64) in H2.
  split; [repeat split; assumption |].
  rewrite Hu in *.
  pose proof (sqrt_near_one (sumsq w' x' y' z') (324 * / 9007199254740992)
                ltac:(lra) ltac:(lra)) as HN.
  assert (HN' : Rabs (R_sqrt.sqrt (sumsq w' x' y' z') - 1) <= 200 * / 9007199254740992)
    by (apply Rabs_bound; lra).
  split; [exact HN' |].
  apply unit_check; try assumption. lra.
Qed.

(** ** The statements in terms of quaternions *)

Lemma exact_norm_square (q : Eigen.Quaternion double) :
  exact_norm q * exact_norm q
  = sumsq (Eigen.w q) (Eigen.x q) (Eigen.y q) (Eigen.z q).
Proof. unfold exact_norm. apply sqrt_sqrt, sumsq_nonneg. Qed.

(** The unit-length check of the code passes whenever the exact norm is
    within [1e-6 - 1e-14] of [1]. *)
Lemma unit_within_tolerance_exact (q : Eigen.Quaternion double) :
  finite_coefficients q ->
  Rabs (exact_norm q - 1) <= / 1000000 - / 100000000000000 ->
  unit_within_tolerance q = true.
Proof.
  destruct q as [w x y z]. intros (Fw & Fx & Fy & Fz) HN.
  exact (unit_check w x y z Fw Fx Fy Fz HN).
Qed.

(** The same for [w^2 + x^2 + y^2 + z^2 == 1 +- 1e-6]. *)
Lemma unit_within_tolerance_squares (w x y z : double) :
  finite w -> finite x -> finite y -> finite z ->
  Rabs (sumsq w x y z - 1) <= / 1000000 ->
  unit_within_tolerance (Eigen.Build w x y z) = true.
Proof. exact (unit_check_squares w x y z). Qed.

(** A norm between [2^-480] and [2^480] is a sum of squares between
    [2^-960] and [2^960]. *)
Lemma sumsq_in_range (w x y z : double) :
  pow2 (-480) <= exact_norm (Eigen.Build w x y z) <= pow2 480 ->
  lo <= sumsq w x y z <= hi.
Proof.
  intros HN.
  pose proof (exact_norm_square (Eigen.Build w x y z)) as HNN.
  cbn [Eigen.w Eigen.x Eigen.y Eigen.z] in HNN.
  assert (Hlo : pow2 (-480) * pow2 (-480) = lo)
    by (unfold lo; rewrite <- pow2_add; reflexivity).
  assert (Hhi : pow2 480 * pow2 480 = hi)
    by (unfold hi; rewrite <- pow2_add; reflexivity).
  pose proof (pow2_pos (-480)) as Hp1. pose proof (pow2_pos 480) as Hp2.
  rewrite <- HNN, <- Hlo, <- Hhi.
  remember (exact_norm (Eigen.Build w x y z)) as N.
  remember (pow2 (-480)) as a. remember (pow2 480) as b.
  split; nra.
Qed.

(** The computed norm is the exact norm up to a relative error of
    [12 * 2^-53]. *)
Lemma norm_exact_accurate (q : Eigen.Quaternion double) :
  finite_coefficients q ->
  pow2 (-480) <= exact_norm q <= pow2 480 ->
  finite (Eigen.norm q) /\
  Rabs (F2R (Eigen.norm q) - exact_norm q) <= 12 * pow2 (-53) * exact_norm q.
Proof.
  destruct q as [w x y z]. intros (Fw & Fx & Fy & Fz) HN.
  destruct (norm_accurate w x y z Fw Fx Fy Fz (sumsq_in_range w x y z HN))
    as [Fn Hn].
  cbv zeta in Hn. split; [exact Fn |].
  change (pow2 (-53)) with u64.
  change (R_sqrt.sqrt (sumsq w x y z)) with (exact_norm (Eigen.Build w x y z)) in Hn.
  apply Rabs_bound. lra.
Qed.

(** One normalization brings the exact norm within [200 * 2^-53] of [1],
    and the result passes the check. *)
Lemma normalized_exact (q : Eigen.Quaternion double) :
  finite_coefficients q ->
  pow2 (-480) <= exact_norm q <= pow2 480 ->
  finite_coefficients (Eigen.normalized q) /\
  Rabs (exact_norm (Eigen.normalized q) - 1) <= 200 * pow2 (-53) /\
  unit_within_tolerance (Eigen.normalized q) = true.
Proof.
  destruct q as [w x y z]. intros (Fw & Fx & Fy & Fz) HN.
  destruct (normalized_accurate w x y z Fw Fx Fy Fz (sumsq_in_range w x y z HN))
    as [Fq Hq].
  cbv zeta in Fq, Hq. pose proof u64_val as Hu.
  change (pow2 (-53)) with u64. rewrite Hu in *.
  split; [exact Fq |].
  assert (Hclose : Rabs (exact_norm (Eigen.normalized (Eigen.Build w x y z)) - 1)
                   <= 200 * / 9007199254740992).
  { match type of Hq with
    | _ <= ?S - 1 <= _ =>
        pose proof (sqrt_near_one S (324 * / 9007199254740992)
                      ltac:(lra) ltac:(lra)) as HN';
        change (exact_norm (Eigen.normalized (Eigen.Build w x y z)))
          with (R_sqrt.sqrt S)
    end.
    apply Rabs_bound. lra. }
  split; [exact Hclose |].
  apply unit_within_tolerance_exact; [exact Fq |].
  apply Rle_trans with (1 := Hclose). lra.
Qed.

(** Normalizing twice a quadruple whose norm is between [2^-480] and
    [2^480] gives a quadruple that passes the check. *)
Lemma normalized_twice_exact (w x y z : double) :
  finite w -> finite x -> finite y -> finite z ->
  pow2 (-480) <= exact_norm (Eigen.Build w x y z) <= pow2 480 ->
  let q := Eigen.normalized (Eigen.normalized (Eigen.Build w x y z)) in
  finite_coefficients q /\
  Rabs (exact_norm q - 1) <= / 1000000 /\
  unit_within_tolerance q = true.
Proof.
  intros Fw Fx Fy Fz HN q.
  pose proof (sumsq_in_range w x y z HN) as Hs.
  destruct (normalized_twice_unit w x y z Fw Fx Fy Fz Hs) as (Fq & Hq & Hc).
  cbv zeta in Fq, Hq, Hc.
  split; [exact Fq |]. split; [| exact Hc].
  pose proof u64_val as Hu.
  apply Rabs_le_inv in Hq. apply Rabs_bound.
  match type of Hq with
  | _ <= R_sqrt.sqrt ?S - 1 <= _ => change (exact_norm q) with (R_sqrt.sqrt S)
  end.
  rewrite Hu in Hq. lra.
Qed.

(** ** Values of some doubles *)

Lemma F2R_finite_value (c : double) s m k d :
  Prim2SF c = S754_finite s m (Zneg k) -> (2 ^ Zpos k)%Z = d ->
  F2R c = sgn s * (IZR (Zpos m) * / IZR d).
Proof.
  intros Hc Hd. unfold F2R. rewrite Hc. cbn [SF2R]. subst d.
  f_equal. f_equal. exact (pow2_neg_val (Zpos k) ltac:(lia)).
Qed.

Lemma F2R_zero : F2R 0%float = 0.
Proof. unfold F2R. replace (Prim2SF 0%float) with (S754_zero false) by (vm_compute; reflexivity). reflexivity. Qed.

(** The value of a double that is a number with a negative exponent, as a
    fraction. *)
Ltac F2R_value c H :=
  let sf := eval vm_compute in (Prim2SF c) in
  lazymatch sf with
  | S754_finite ?s ?m (Zneg ?k) =>
      let d := eval vm_compute in (2 ^ Zpos k)%Z in
      assert (H : F2R c = sgn s * (IZR (Zpos m) * / IZR d))
        by (apply (F2R_finite_value c s m k d); vm_compute; reflexivity);
      cbn [sgn] in H
  end.

Lemma SF2R_finite_value (c : spec_float) s m k d :
  c = S754_finite s m (Zneg k) -> (2 ^ Zpos k)%Z = d ->
  SF2R c = sgn s * (IZR (Zpos m) * / IZR d).
Proof.
  intros Hc Hd. rewrite Hc. cbn [SF2R]. subst d.
  f_equal. f_equal. exact (pow2_neg_val (Zpos k) ltac:(lia)).
Qed.

(** The same for a single-precision datum. *)
Ltac SF2R_value c H :=
  let sf := eval vm_compute in c in
  lazymatch sf with
  | S754_finite ?s ?m (Zneg ?k) =>
      let d := eval vm_compute in (2 ^ Zpos k)%Z in
      assert (H : SF2R c = sgn s * (IZR (Zpos m) * / IZR d))
        by (apply (SF2R_finite_value c s m k d); vm_compute; reflexivity);
      cbn [sgn] in H
  end.

Lemma exact_norm_halves :
  exact_norm (Eigen.Build 0.5 0.5 0.5 0.5)%float = 1.
Proof.
  unfold exact_norm, sumsq. cbn [Eigen.w Eigen.x Eigen.y Eigen.z].
  F2R_value 0.5%float V. rewrite V.
  replace (1 * (4503599627370496 * / 9007199254740992) *
           (1 * (4503599627370496 * / 9007199254740992)) +
           1 * (4503599627370496 * / 9007199254740992) *
           (1 * (4503599627370496 * / 9007199254740992)) +
           1 * (4503599627370496 * / 9007199254740992) *
           (1 * (4503599627370496 * / 9007199254740992)) +
           1 * (4503599627370496 * / 9007199254740992) *
           (1 * (4503599627370496 * / 9007199254740992))) with 1 by lra.
  apply sqrt_1.
Qed.

Lemma exact_norm_halves_unit :
  Rabs (exact_norm (Eigen.Build 0.5 0.5 0.5 0.5)%float - 1)
  <= / 1000000 - / 100000000000000.
Proof.
  rewrite exact_norm_halves.
  replace (1 - 1) with 0 by lra. rewrite Rabs_R0. lra.
Qed.

Lemma sumsq_345_unit :
  Rabs (sumsq 0.6 0.8 0 0 - 1) <= / 1000000.
Proof.
  unfold sumsq.
  F2R_value 0.6%float V6. F2R_value 0.8%float V8.
  rewrite V6, V8, F2R_zero. apply Rabs_bound. lra.
Qed.

Lemma exact_norm_1234 :
  pow2 (-480) <= exact_norm (Eigen.Build 1 2 3 4)%float <= pow2 480.
Proof.
  unfold exact_norm, sumsq. cbn [Eigen.w Eigen.x Eigen.y Eigen.z].
  F2R_value 1%float V1. F2R_value 2%float V2.
  F2R_value 3%float V3. F2R_value 4%float V4.
  rewrite V1, V2, V3, V4.
  assert (H1 : pow2 (-480) <= 1)
    by (rewrite <- pow2_0; apply pow2_le; lia).
  assert (H2 : 32 <= pow2 480).
  { replace 32 with (pow2 5) by (rewrite pow2_IZR by lia; reflexivity).
    apply pow2_le. lia. }
  split.
  - apply Rle_trans with (1 := H1). apply sqrt_ge; lra.
  - apply Rle_trans with (2 := H2). apply sqrt_le'; lra.
Qed.

End norm_accuracy.

(** * The order and the spacing of doubles *)

Module binary64_order.
Import real_value binary64_rounding norm_accuracy.
Local Open Scope R_scope.

Local Abbreviation prec := 53%Z (only parsing).
Local Abbreviation emax := 1024%Z (only parsing).

(** ** Canonical representations *)

Lemma canonical_bounds s m e :
  SpecFloat.valid_binary prec emax (S754_finite s m e) = true ->
  (Zpos m < 2 ^ 53 /\ -1074 <= e <= 971 /\
   (-1074 < e -> 2 ^ 52 <= Zpos m))%Z.
Proof.
  intros V. apply valid_binary_finite in V. destruct V as [He Hmax].
  rewrite fexp64 in He.
  pose proof (Zdigits2_bounds (Zpos m) ltac:(lia)) as [Hlo Hhi].
  pose proof (Zdigits2_pos (Zpos m) ltac:(lia)) as Hd.
  assert (Hd53 : (Zdigits2 (Zpos m) <= 53)%Z) by lia.
  split; [| split; [lia |]].
  - apply Z.lt_le_trans with (1 := Hhi). apply Z.pow_le_mono_r; lia.
  - intros Hgt. assert (Zdigits2 (Zpos m) = 53%Z) by lia.
    replace (Zdigits2 (Zpos m) - 1)%Z with 52%Z in Hlo by lia. exact Hlo.
Qed.

Lemma canonical_bounds_R s m e :
  SpecFloat.valid_binary prec emax (S754_finite s m e) = true ->
  1 <= IZR (Zpos m) < pow2 53 /\ (-1074 <= e <= 971)%Z /\
  ((-1074 < e)%Z -> pow2 52 <= IZR (Zpos m)).
Proof.
  intros V. destruct (canonical_bounds s m e V) as (H1 & H2 & H3).
  split; [split |].
  - apply (IZR_le 1). lia.
  - rewrite (pow2_IZR 53) by lia. apply IZR_lt. exact H1.
  - split; [exact H2 |].
    intros Hgt. rewrite (pow2_IZR 52) by lia. apply IZR_le. exact (H3 Hgt).
Qed.

(** Two positive canonical numbers are ordered by their exponents first. *)
Lemma canonical_exponent_lt s1 m1 e1 s2 m2 e2 :
  SpecFloat.valid_binary prec emax (S754_finite s1 m1 e1) = true ->
  SpecFloat.valid_binary prec emax (S754_finite s2 m2 e2) = true ->
  (e1 < e2)%Z ->
  IZR (Zpos m1) * pow2 e1 < IZR (Zpos m2) * pow2 e2.
Proof.
  intros V1 V2 He.
  destruct (canonical_bounds_R _ _ _ V1) as ((_ & H1) & (He1 & _) & _).
  destruct (canonical_bounds_R _ _ _ V2) as (_ & (He2 & _) & H2).
  specialize (H2 ltac:(lia)).
  pose proof (pow2_pos e1) as Hp1. pose proof (pow2_pos e2) as Hp2.
  assert (Hle : pow2 (e1 + 1) <= pow2 e2) by (apply pow2_le; lia).
  rewrite pow2_succ in Hle.
  change (pow2 53) with (2 * pow2 52) in H1.
  assert (0 < pow2 52) by apply pow2_pos.
  nra.
Qed.

Lemma compare_cont_Eq_spec m1 m2 :
  match Pos.compare_cont Eq m1 m2 with
  | Lt => IZR (Zpos m1) < IZR (Zpos m2)
  | Eq => m1 = m2
  | Gt => IZR (Zpos m2) < IZR (Zpos m1)
  end.
Proof.
  change (Pos.compare_cont Eq m1 m2) with (Pos.compare m1 m2).
  destruct (Pos.compare_spec m1 m2) as [H | H | H].
  - exact H.
  - apply IZR_lt. lia.
  - apply IZR_lt. lia.
Qed.

Lemma SFcompare_correct a b :
  SpecFloat.valid_binary prec emax a = true ->
  SpecFloat.valid_binary prec emax b = true ->
  SFfinite a = true -> SFfinite b = true ->
  cmp_spec (SFcompare a b) (SF2R a) (SF2R b).
Proof.
  intros Va Vb Fa Fb.
  destruct a as [sa | sa | | sa ma ea], b as [sb | sb | | sb mb eb];
    try discriminate; cbn [SFcompare SF2R].
  - reflexivity.
  - assert (0 < IZR (Zpos mb) * pow2 eb)
      by (apply Rmult_lt_0_compat; [apply IZR_lt; lia | apply pow2_pos]).
    destruct sb; cbn [cmp_spec sgn]; lra.
  - assert (0 < IZR (Zpos ma) * pow2 ea)
      by (apply Rmult_lt_0_compat; [apply IZR_lt; lia | apply pow2_pos]).
    destruct sa; cbn [cmp_spec sgn]; lra.
  - assert (Ha : 0 < IZR (Zpos ma) * pow2 ea)
      by (apply Rmult_lt_0_compat; [apply IZR_lt; lia | apply pow2_pos]).
    assert (Hb : 0 < IZR (Zpos mb) * pow2 eb)
      by (apply Rmult_lt_0_compat; [apply IZR_lt; lia | apply pow2_pos]).
    pose proof (compare_cont_Eq_spec ma mb) as Hm.
    pose proof (pow2_pos ea) as Hpa.
    destruct sa, sb; cbn [cmp_spec sgn]; try lra;
      destruct (Z.compare_spec ea eb) as [He | He | He].
    + subst eb. destruct (Pos.compare_cont Eq ma mb); cbn [CompOpp cmp_spec].
      * subst mb. reflexivity.
      * nra.
      * nra.
    + pose proof (canonical_exponent_lt _ _ _ _ _ _ Va Vb He). cbn [cmp_spec]. lra.
    + pose proof (canonical_exponent_lt _ _ _ _ _ _ Vb Va He). cbn [cmp_spec]. lra.
    + subst eb. destruct (Pos.compare_cont Eq ma mb); cbn [cmp_spec].
      * subst mb. reflexivity.
      * nra.
      * nra.
    + pose proof (canonical_exponent_lt _ _ _ _ _ _ Va Vb He). cbn [cmp_spec]. lra.
    + pose proof (canonical_exponent_lt _ _ _ _ _ _ Vb Va He). cbn [cmp_spec]. lra.
Qed.

(** ** Comparisons of doubles that are numbers *)

Lemma compare_real (x y : double) :
  finite x -> finite y ->
  cmp_spec (SFcompare (Prim2SF x) (Prim2SF y)) (F2R x) (F2R y).
Proof.
  intros Fx Fy. apply SFcompare_correct; try assumption; apply Prim2SF_valid.
Qed.

Lemma ltb_real (x y : double) :
  finite x -> finite y -> ((x <? y)%float = true <-> F2R x < F2R y).
Proof.
  intros Fx Fy. rewrite FloatAxioms.ltb_spec. unfold SFltb.
  pose proof (compare_real x y Fx Fy) as H.
  destruct (SFcompare (Prim2SF x) (Prim2SF y)) as [[] |]; cbn [cmp_spec] in H;
    split; intros; try discriminate; try reflexivity; try lra; contradiction.
Qed.

Lemma leb_real (x y : double) :
  finite x -> finite y -> ((x <=? y)%float = true <-> F2R x <= F2R y).
Proof.
  intros Fx Fy. rewrite FloatAxioms.leb_spec. unfold SFleb.
  pose proof (compare_real x y Fx Fy) as H.
  destruct (SFcompare (Prim2SF x) (Prim2SF y)) as [[] |]; cbn [cmp_spec] in H;
    split; intros; try discriminate; try reflexivity; try lra; contradiction.
Qed.

Lemma eqb_real (x y : double) :
  finite x -> finite y -> ((x =? y)%float = true <-> F2R x = F2R y).
Proof.
  intros Fx Fy. rewrite FloatAxioms.eqb_spec. unfold SFeqb.
  pose proof (compare_real x y Fx Fy) as H.
  destruct (SFcompare (Prim2SF x) (Prim2SF y)) as [[] |]; cbn [cmp_spec] in H;
    split; intros; try discriminate; try reflexivity; try lra; contradiction.
Qed.

Lemma ltb_real_false (x y : double) :
  finite x -> finite y -> ((x <? y)%float = false <-> F2R y <= F2R x).
Proof.
  intros Fx Fy. pose proof (ltb_real x y Fx Fy) as H.
  destruct (x <? y)%float; split; intros; try discriminate; try reflexivity.
  - apply proj1 in H. specialize (H eq_refl). lra.
  - destruct (Rlt_le_dec (F2R x) (F2R y)) as [Hlt | Hle]; [| exact Hle].
    apply H in Hlt. discriminate.
Qed.

Lemma leb_real_false (x y : double) :
  finite x -> finite y -> ((x <=? y)%float = false <-> F2R y < F2R x).
Proof.
  intros Fx Fy. pose proof (leb_real x y Fx Fy) as H.
  destruct (x <=? y)%float; split; intros; try discriminate; try reflexivity.
  - apply proj1 in H. specialize (H eq_refl). lra.
  - destruct (Rle_lt_dec (F2R x) (F2R y)) as [Hle | Hlt]; [| exact Hlt].
    apply H in Hle. discriminate.
Qed.

Lemma eqb_real_false (x y : double) :
  finite x -> finite y -> ((x =? y)%float = false <-> F2R x <> F2R y).
Proof.
  intros Fx Fy. pose proof (eqb_real x y Fx Fy) as H.
  destruct (x =? y)%float; split; intros H0; try discriminate; try reflexivity.
  - exfalso. apply H0. apply H. reflexivity.
  - intros E. apply H in E. discriminate.
Qed.

(** ** The least magnitude and the spacing of doubles *)

Lemma finite_nonzero_magnitude s m e :
  SpecFloat.valid_binary prec emax (S754_finite s m e) = true ->
  pow2 (-1074) <= IZR (Zpos m) * pow2 e.
Proof.
  intros V. destruct (canonical_bounds_R _ _ _ V) as ((Hm & _) & (He & _) & _).
  pose proof (pow2_le (-1074) e He) as Hp. pose proof (pow2_pos (-1074)). nra.
Qed.

Lemma F2R_positive_magnitude (x : double) :
  0 < F2R x -> pow2 (-1074) <= F2R x.
Proof.
  unfold F2R. pose proof (Prim2SF_valid x) as V.
  destruct (Prim2SF x) as [s | s | | s m e]; cbn [SF2R]; try lra.
  pose proof (finite_nonzero_magnitude s m e V) as H.
  destruct s; cbn [sgn]; lra.
Qed.

Lemma F2R_negative_magnitude (x : double) :
  F2R x < 0 -> F2R x <= - pow2 (-1074).
Proof.
  unfold F2R. pose proof (Prim2SF_valid x) as V.
  destruct (Prim2SF x) as [s | s | | s m e]; cbn [SF2R]; try lra.
  pose proof (finite_nonzero_magnitude s m e V) as H.
  destruct s; cbn [sgn]; lra.
Qed.

(** Below a positive double there is a gap of at least [2^-53] of it. *)
Lemma spacing_SF a b :
  SpecFloat.valid_binary prec emax a = true ->
  SpecFloat.valid_binary prec emax b = true ->
  SFfinite a = true -> SFfinite b = true ->
  0 <= SF2R a < SF2R b ->
  SF2R a <= SF2R b * (1 - u64).
Proof.
  intros Va Vb Fa Fb [H0 Hlt]. pose proof u64_val as Hu.
  destruct b as [sb | sb | | sb mb eb]; try discriminate; cbn [SF2R] in *; [lra |].
  assert (Hb : 0 < IZR (Zpos mb) * pow2 eb)
    by (apply Rmult_lt_0_compat; [apply IZR_lt; lia | apply pow2_pos]).
  destruct sb; cbn [sgn] in *; [lra |].
  destruct a as [sa | sa | | sa ma ea]; try discriminate; cbn [SF2R] in *.
  { rewrite Hu. nra. }
  assert (Ha : 0 < IZR (Zpos ma) * pow2 ea)
    by (apply Rmult_lt_0_compat; [apply IZR_lt; lia | apply pow2_pos]).
  destruct sa; cbn [sgn] in *; [lra |].
  destruct (canonical_bounds _ _ _ Va) as (Hma & Hea & _).
  destruct (canonical_bounds _ _ _ Vb) as (Hmb & Heb & Hnb).
  pose proof (pow2_pos ea) as Hpa. pose proof (pow2_pos eb) as Hpb.
  assert (HmaR : IZR (Zpos ma) <= 9007199254740992 - 1).
  { replace (9007199254740992 - 1) with (IZR (2 ^ 53 - 1))
      by (rewrite minus_IZR; reflexivity).
    apply IZR_le. lia. }
  assert (HmbR : IZR (Zpos mb) <= 9007199254740992 - 1).
  { replace (9007199254740992 - 1) with (IZR (2 ^ 53 - 1))
      by (rewrite minus_IZR; reflexivity).
    apply IZR_le. lia. }
  rewrite Hu.
  destruct (Z.compare_spec ea eb) as [He | He | He].
  - subst eb.
    assert (Hm : (Zpos ma + 1 <= Zpos mb)%Z).
    { assert (IZR (Zpos ma) < IZR (Zpos mb)) by nra. apply lt_IZR in H. lia. }
    apply IZR_le in Hm. rewrite plus_IZR in Hm. nra.
  - specialize (Hnb ltac:(lia)).
    assert (HmbR2 : 4503599627370496 <= IZR (Zpos mb))
      by (apply (IZR_le (2 ^ 52)); exact Hnb).
    assert (Hle : pow2 (ea + 1) <= pow2 eb) by (apply pow2_le; lia).
    rewrite pow2_succ in Hle. nra.
  - pose proof (canonical_exponent_lt _ _ _ _ _ _ Vb Va He). lra.
Qed.

Lemma spacing (x y : double) :
  finite x -> finite y -> 0 <= F2R x < F2R y ->
  F2R x <= F2R y * (1 - u64).
Proof.
  intros Fx Fy H. apply spacing_SF; try assumption; apply Prim2SF_valid.
Qed.

End binary64_order.

(** * Results that are never NaN, and results that are exact *)

Module binary64_shape.
Import real_value binary64_rounding norm_accuracy binary64_order.
Local Open Scope R_scope.

Local Abbreviation prec := 53%Z (only parsing).
Local Abbreviation emax := 1024%Z (only parsing).

(** ** NaN *)

Lemma SFcompare_refl a : a <> S754_nan -> SFcompare a a = Some Eq.
Proof.
  destruct a as [s | s | | s m e]; intros H; cbn [SFcompare]; try congruence.
  - destruct s; reflexivity.
  - rewrite Z.compare_refl.
    change (Pos.compare_cont Eq m m) with (Pos.compare m m).
    rewrite Pos.compare_refl. destruct s; reflexivity.
Qed.

Lemma is_nan_false (x : double) :
  Prim2SF x <> S754_nan -> is_nan x = false.
Proof.
  intros H. unfold is_nan. rewrite FloatAxioms.eqb_spec. unfold SFeqb.
  rewrite (SFcompare_refl _ H). reflexivity.
Qed.

Lemma finite_not_nan (a : spec_float) : SFfinite a = true -> a <> S754_nan.
Proof. destruct a; cbn [SFfinite]; intros H; discriminate. Qed.

Lemma binary_round_aux_exact_not_nan s m e :
  binary_round_aux prec emax s (Zpos m) e loc_Exact <> S754_nan.
Proof.
  assert (Hloc : inloc (IZR (Zpos m) * pow2 e / pow2 e) (Zpos m) loc_Exact).
  { cbn [inloc]. pose proof (pow2_pos e). field. lra. }
  destruct (binary_round_aux_correct s (Zpos m) e loc_Exact _ ltac:(lia) Hloc
              (or_introl eq_refl)) as (m' & e' & _ & Hr & _).
  rewrite Hr. destruct m'; cbv iota beta; try discriminate.
  destruct (e' <=? 971)%Z; discriminate.
Qed.

Lemma binary_round_not_nan s m e : binary_round prec emax s m e <> S754_nan.
Proof.
  unfold binary_round.
  destruct (shl_align m e (fexp prec emax (Zpos (digits2_pos m) + e))) as [mz ez].
  apply binary_round_aux_exact_not_nan.
Qed.

Lemma binary_normalize_not_nan m e szero :
  binary_normalize prec emax m e szero <> S754_nan.
Proof.
  destruct m; cbn [binary_normalize]; [congruence | |]; apply binary_round_not_nan.
Qed.

Lemma SFdiv_not_nan a sy my ey :
  SFfinite a = true ->
  SFdiv prec emax a (S754_finite sy my ey) <> S754_nan.
Proof.
  destruct a as [sa | sa | | sa ma ea]; try discriminate; intros _; cbn [SFdiv].
  pose proof (SFdiv_core_binary_correct ma ea my ey) as Hcore.
  destruct (SFdiv_core_binary prec emax (Zpos ma) ea (Zpos my) ey) as [[q e'] l].
  cbv zeta in Hcore. destruct Hcore as (Hq & Hloc & Hdig & _).
  destruct (binary_round_aux_correct (xorb sa sy) q e' l _ Hq Hloc (or_intror Hdig))
    as (m' & e'' & _ & Hr & _).
  rewrite Hr. destruct m'; cbv iota beta; try discriminate.
  destruct (e'' <=? 971)%Z; discriminate.
Qed.

Lemma SFmul_not_nan sy my ey b :
  b <> S754_nan -> SFmul prec emax (S754_finite sy my ey) b <> S754_nan.
Proof.
  destruct b as [sb | sb | | sb mb eb]; intros H; cbn [SFmul]; try congruence.
  apply binary_round_aux_exact_not_nan.
Qed.

Lemma SFsub_not_nan a b :
  SFfinite a = true -> b <> S754_nan -> SFsub prec emax a b <> S754_nan.
Proof.
  destruct a as [sa | sa | | sa ma ea]; try discriminate;
    destruct b as [sb | sb | | sb mb eb]; intros _ H; cbn [SFsub]; try congruence.
  - destruct sa, sb; congruence.
  - apply binary_normalize_not_nan.
Qed.

Lemma SFadd_not_nan a b :
  SFfinite a = true -> b <> S754_nan -> SFadd prec emax a b <> S754_nan.
Proof.
  destruct a as [sa | sa | | sa ma ea]; try discriminate;
    destruct b as [sb | sb | | sb mb eb]; intros _ H; cbn [SFadd]; try congruence.
  - destruct sa, sb; congruence.
  - apply binary_normalize_not_nan.
Qed.

(** ** Exact results *)

(** A canonical mantissa and exponent are left as they are. *)
Lemma binary_round_aux_canonical s m e :
  e = fexp prec emax (Zdigits2 (Zpos m) + e) -> (e <= 971)%Z ->
  binary_round_aux prec emax s (Zpos m) e loc_Exact = S754_finite s m e.
Proof.
  intros He Hmax. unfold binary_round_aux, shr_fexp.
  rewrite <- He, Z.sub_diag. cbn [shr shr_record_of_loc shr_m loc_of_shr_record
    round_nearest_even].
  rewrite <- He, Z.sub_diag. cbn [shr shr_record_of_loc shr_m].
  replace (e <=? 1024 - 53)%Z with true by (symmetry; apply Z.leb_le; lia).
  reflexivity.
Qed.

(** The conversion of an integer below [2^53] is exact. *)
Lemma binary_normalize_integer (q : Z) :
  (0 <= q < 2 ^ 53)%Z ->
  SFfinite (binary_normalize prec emax q 0 false) = true /\
  SF2R (binary_normalize prec emax q 0 false) = IZR q.
Proof.
  intros Hq. destruct q as [| p | p]; [split; reflexivity | | lia].
  cbn [binary_normalize]. unfold binary_round.
  pose proof (digits2_pos_bounds p) as Hd.
  set (d := Zpos (digits2_pos p)) in *.
  assert (Hd53 : (1 <= d <= 53)%Z).
  { split; [subst d; lia |].
    destruct (Z_le_gt_dec d 53) as [| Hgt]; [assumption |].
    assert (2 ^ 53 <= 2 ^ (d - 1))%Z by (apply Z.pow_le_mono_r; lia). lia. }
  assert (Ef : fexp prec emax (d + 0) = (d - 53)%Z) by (rewrite fexp64; lia).
  rewrite Ef.
  pose proof (shl_align_correct p 0 (d - 53)) as Hval.
  destruct (shl_align p 0 (d - 53)) as [mz ez] eqn:Esh. cbn [fst snd] in Hval.
  assert (Hez : ez = (d - 53)%Z /\ Zpos mz = (Zpos p * 2 ^ (53 - d))%Z).
  { revert Esh. unfold shl_align.
    destruct (d - 53 - 0)%Z as [| k | k] eqn:Ek.
    - intros [= <- <-]. assert (d = 53%Z) by lia.
      replace (53 - d)%Z with 0%Z by lia. lia.
    - lia.
    - intros [= <- <-]. split; [reflexivity |].
      rewrite iter_xO_pow2. f_equal. f_equal. lia. }
  destruct Hez as [-> Hmz].
  assert (Hbounds : (2 ^ 52 <= Zpos mz < 2 ^ 53)%Z).
  { rewrite Hmz.
    replace (2 ^ 52)%Z with (2 ^ (d - 1) * 2 ^ (53 - d))%Z
      by (rewrite <- Z.pow_add_r by lia; f_equal; lia).
    replace (2 ^ 53)%Z with (2 ^ d * 2 ^ (53 - d))%Z
      by (rewrite <- Z.pow_add_r by lia; f_equal; lia).
    assert (0 < 2 ^ (53 - d))%Z by (apply Z.pow_pos_nonneg; lia).
    nia. }
  assert (Hdig : Zdigits2 (Zpos mz) = 53%Z).
  { pose proof (Zdigits2_le (Zpos mz) 53 ltac:(lia) ltac:(lia) ltac:(lia)).
    pose proof (Zdigits2_ge (Zpos mz) 52 ltac:(lia) ltac:(lia)). lia. }
  rewrite binary_round_aux_canonical; [| rewrite Hdig, fexp64; lia | lia].
  split; [reflexivity |].
  cbn [SF2R sgn]. rewrite Hval, pow2_0. lra.
Qed.

Lemma of_uint63_integer (q : Z) :
  (0 <= q < 2 ^ 53)%Z ->
  finite (of_uint63 (of_Z q)) /\ F2R (of_uint63 (of_Z q)) = IZR q.
Proof.
  intros Hq. unfold finite, F2R. rewrite of_uint63_spec, of_Z_spec.
  rewrite Z.mod_small.
  - apply binary_normalize_integer. exact Hq.
  - split; [lia |]. apply Z.lt_trans with (2 ^ 53)%Z; [lia |].
    unfold wB. cbn. lia.
Qed.

End binary64_shape.

(** * The floor of a double *)

Module floor_properties.
Import real_value binary64_rounding norm_accuracy binary64_order binary64_shape.
Import cmath.
Local Open Scope R_scope.

Lemma F2R_opp (x : double) : F2R (- x)%float = - F2R x.
Proof.
  unfold F2R. rewrite FloatAxioms.opp_spec.
  destruct (Prim2SF x) as [s | s | | s m e]; cbn [SFopp SF2R]; try lra.
  rewrite sgn_negb. lra.
Qed.

Lemma finite_opp (x : double) : finite (- x)%float <-> finite x.
Proof.
  unfold finite. rewrite FloatAxioms.opp_spec.
  destruct (Prim2SF x); cbn [SFopp SFfinite]; tauto.
Qed.

(** For a double that is a number, [floor] returns the greatest integer
    that is not greater. *)
Lemma floor_correct (x : double) :
  finite x ->
  finite (floor x) /\
  exists k : Z, F2R (floor x) = IZR k /\ IZR k <= F2R x < IZR k + 1.
Proof.
  intros Fx. unfold floor.
  pose proof (Prim2SF_valid x) as V.
  assert (Fx' := Fx). unfold finite in Fx'. unfold F2R at 2 3.
  destruct (Prim2SF x) as [s | s | | s m e] eqn:E; try discriminate.
  - split; [exact Fx |]. exists 0%Z. unfold F2R. rewrite E. cbn [SF2R]. lra.
  - destruct (canonical_bounds _ _ _ V) as (Hm & He & _).
    destruct (Z.leb_spec 0 e) as [Hpos | Hneg].
    + split; [exact Fx |]. exists (cond_Zopp s (Zpos m * 2 ^ e)).
      unfold F2R. rewrite E. cbn [SF2R].
      rewrite cond_Zopp_IZR, mult_IZR, <- pow2_IZR by exact Hpos.
      split; [reflexivity | lra].
    + cbv zeta. cbn [SF2R].
      set (n := (- e)%Z). assert (Hn : (0 < n)%Z) by (subst n; lia).
      set (q := Z.shiftr (Zpos m) n).
      assert (Hq : q = (Zpos m / 2 ^ n)%Z) by (subst q; apply Z.shiftr_div_pow2; lia).
      assert (H2n : (0 < 2 ^ n)%Z) by (apply Z.pow_pos_nonneg; lia).
      assert (H2n2 : (2 <= 2 ^ n)%Z).
      { change 2%Z with (2 ^ 1)%Z at 1. apply Z.pow_le_mono_r; lia. }
      pose proof (Z.div_mod (Zpos m) (2 ^ n) ltac:(lia)) as Hdm.
      pose proof (Z.mod_pos_bound (Zpos m) (2 ^ n) H2n) as Hr.
      set (r := (Zpos m mod 2 ^ n)%Z) in *. rewrite <- Hq in Hdm.
      assert (Hq0 : (0 <= q)%Z) by (rewrite Hq; apply Z.div_pos; lia).
      assert (Hqlt : (q + 1 < 2 ^ 53)%Z) by nia.
      assert (Hval : IZR (Zpos m) * pow2 e = IZR q + IZR r / IZR (2 ^ n)).
      { rewrite Hdm at 1. rewrite plus_IZR, mult_IZR.
        replace e with (- n)%Z by (subst n; lia).
        rewrite pow2_opp, (pow2_IZR n) by lia.
        assert (0 < IZR (2 ^ n)) by (apply IZR_lt; lia). field. lra. }
      assert (Hfrac : 0 <= IZR r / IZR (2 ^ n) < 1).
      { assert (0 < IZR (2 ^ n)) by (apply IZR_lt; lia).
        assert (0 <= IZR r) by (apply IZR_le; lia).
        assert (IZR r < IZR (2 ^ n)) by (apply IZR_lt; lia).
        split.
        - apply Rmult_le_pos; [assumption |]. apply Rlt_le, Rinv_0_lt_compat. assumption.
        - apply (Rmult_lt_reg_r (IZR (2 ^ n))); [assumption |].
          unfold Rdiv. rewrite Rmult_assoc, Rinv_l by lra. lra. }
      destruct s; cbn [sgn].
      * assert (Hint : (Z.shiftl q n =? Zpos m)%Z = (r =? 0)%Z).
        { rewrite Z.shiftl_mul_pow2 by lia.
          destruct (Z.eqb_spec (q * 2 ^ n) (Zpos m)), (Z.eqb_spec r 0);
            try reflexivity; lia. }
        rewrite Hint.
        destruct (Z.eqb_spec r 0) as [Hr0 | Hr0].
        -- destruct (of_uint63_integer q ltac:(lia)) as [Fq Vq].
           split; [apply finite_opp; exact Fq |].
           exists (- q)%Z. rewrite F2R_opp, Vq, opp_IZR.
           split; [reflexivity |].
           rewrite Hval, Hr0. unfold Rdiv. rewrite Rmult_0_l. lra.
        -- destruct (of_uint63_integer (q + 1) ltac:(lia)) as [Fq Vq].
           split; [apply finite_opp; exact Fq |].
           exists (- (q + 1))%Z. rewrite F2R_opp, Vq, opp_IZR, plus_IZR.
           split; [reflexivity |].
           rewrite Hval.
           assert (0 < IZR r / IZR (2 ^ n)).
           { assert (0 < IZR (2 ^ n)) by (apply IZR_lt; lia).
             assert (0 < IZR r) by (apply IZR_lt; lia).
             apply Rmult_lt_0_compat; [assumption |].
             apply Rinv_0_lt_compat. assumption. }
           lra.
      * destruct (of_uint63_integer q ltac:(lia)) as [Fq Vq].
        split; [exact Fq |].
        exists q. rewrite Vq. split; [reflexivity |]. rewrite Hval. lra.
Qed.

(** [floor] does not make a NaN of a double that is not one. *)
Lemma floor_not_nan (x : double) :
  Prim2SF x <> S754_nan -> Prim2SF (floor x) <> S754_nan.
Proof.
  intros H. unfold floor.
  destruct (Prim2SF x) as [s | s | | s m e] eqn:E; try (rewrite E; exact H).
  destruct (0 <=? e)%Z; [rewrite E; discriminate |].
  cbv zeta. destruct s.
  - rewrite FloatAxioms.opp_spec, of_uint63_spec.
    match goal with
    | |- SFopp ?b <> _ =>
        assert (Hn : b <> S754_nan) by apply binary_normalize_not_nan;
        destruct b; cbn [SFopp]; try discriminate; exact Hn
    end.
  - rewrite of_uint63_spec. apply binary_normalize_not_nan.
Qed.

End floor_properties.

(** * Properties of the angle-wrap utility *)

Module common_properties.
Import cmath common.

(** Sanity checks of [floor] on both signs, on integral values and on the
    special values. *)
Example floor_examples :
  floor 2.5 = 2 /\ floor (-2.5) = -3 /\ floor (-0.3) = -1 /\ floor 0.3 = 0 /\
  floor (-3) = -3 /\ floor 1e300 = 1e300 /\ floor neg_zero = neg_zero /\
  floor infinity = infinity /\ floor neg_infinity = neg_infinity /\
  floor nan = nan.
Proof. vm_compute. repeat split. Qed.

(** C9: [Mod(x, 0)] returns [x] unchanged, for every [x]: the zero modulus
    is answered by the first [return] of the function, before any
    arithmetic on [x].  The same holds for the negative zero, which also
    compares equal to [0.0]. *)
Theorem Mod_zero_modulus :
  forall x : double, Mod x 0 = x /\ Mod x neg_zero = x.
Proof. intro x. split; reflexivity. Qed.

(** C8: on the two inputs the source names in its comments the boundary
    corrections fire: [Mod(-1e-16, 360.)] is exactly [0], and
    [Mod(106.81415022205296, 2*M_PI)] lies in [[0, 2*M_PI)]. *)
Theorem Mod_boundary_cases :
  Mod (-1e-16) 360 = 0 /\
  (0 <=? Mod 106.81415022205296 (2 * M_PI)) = true /\
  (Mod 106.81415022205296 (2 * M_PI) <? 2 * M_PI) = true.
Proof. vm_compute. repeat split. Qed.

(** The residuals [m] behind C8, as the comments of the source give them:
    [360.] for the first input and [-1.421e-14], which is [-2^-46], for the
    second. *)
Example Mod_boundary_residuals :
  -1e-16 - 360 * floor (-1e-16 / 360) = 360 /\
  106.81415022205296 - (2 * M_PI) * floor (106.81415022205296 / (2 * M_PI))
    = -0x1p-46.
Proof. vm_compute. split; reflexivity. Qed.

(** C2: the result of [Mod] can leave the interval the source declares.
    For [x = 54043195528445960] (that is [1.5 * 2^55 + 8]) and [y = 3] the
    quotient [x / y] rounds up to [18014398509481988], [floor] leaves it,
    the product [y * 18014398509481988] rounds to [x + 8], so [m = -8] and
    the function returns [y + m = -5], which is negative.  The mirrored
    input gives [5] for [y = -3]. *)
Theorem Mod_leaves_interval :
  Mod 54043195528445960 3 = -5 /\
  Mod (-54043195528445960) (-3) = 5.
Proof. vm_compute. split; reflexivity. Qed.

(** The steps of the first evaluation of C2. *)
Example Mod_leaves_interval_steps :
  54043195528445960 / 3 = 18014398509481988 /\
  floor 18014398509481988 = 18014398509481988 /\
  3 * 18014398509481988 = 54043195528445968 /\
  54043195528445960 - 54043195528445968 = -8 /\
  3 + -8 = -5.
Proof. vm_compute. repeat split. Qed.

(** Further inputs on which the result is negative for a positive [y]; on
    the last one the quotient overflows. *)
Example Mod_leaves_interval_more :
  (Mod 27021597764222980 3 <? 0) = true /\
  (Mod 1e17 0.3 <? 0) = true /\
  Mod 1e308 1e-308 = neg_infinity.
Proof. vm_compute. repeat split. Qed.

(** The end [y] of the interval is never returned: for every [x] and every
    [y] that does not compare equal to zero, the result of [Mod] does not
    compare equal to [y].  Each leaf of the function is either [0], or a sum
    [y + m] tested to differ from [y], or a residual [m] tested not to reach
    [y]. *)
Theorem Mod_never_modulus :
  forall x y : double, (y =? 0) = false -> (Mod x y =? y) = false.
Proof.
  intros x y Hy0. unfold Mod. rewrite Hy0.
  set (m := x - y * floor (x / y)).
  destruct (0 <? y) eqn:Hpos.
  - pose proof (ieee_facts.ltb_not_eqb _ _ Hpos) as H0y.
    destruct (y <=? m) eqn:Hym; [exact H0y |].
    destruct (m <? 0) eqn:Hm0.
    + destruct (y + m =? y) eqn:Hsum; [exact H0y | exact Hsum].
    + rewrite ieee_facts.eqb_sym. apply ieee_facts.not_leb_not_eqb. exact Hym.
  - assert (H0y : (0 =? y) = false) by (rewrite ieee_facts.eqb_sym; exact Hy0).
    destruct (m <=? y) eqn:Hmy; [exact H0y |].
    destruct (0 <? m) eqn:Hm0.
    + destruct (y + m =? y) eqn:Hsum; [exact H0y | exact Hsum].
    + apply ieee_facts.not_leb_not_eqb. exact Hmy.
Qed.

(** Witness of [Mod_never_modulus]: the first boundary input of the source. *)
Lemma Mod_never_modulus_witness :
  (360 =? 0) = false /\ (Mod (-1e-16) 360 =? 360) = false.
Proof.
  split; [reflexivity |].
  apply (Mod_never_modulus (-1e-16) 360). reflexivity.
Defined.

(** C7: for the finite angle [-1e18] both wrap functions return a value
    below their interval: [wrapTwoPI] a negative one and [wrapPosNegPI] one
    below [-M_PI].  In both calls the residual inside [Mod] is [m = -128],
    and [Mod] returns [2*M_PI + m]. *)
Theorem wrap_leaves_interval :
  wrapTwoPI (-1e18) = -121.71681469282041 /\
  (wrapTwoPI (-1e18) <? 0) = true /\
  wrapPosNegPI (-1e18) = -124.8584073464102 /\
  (wrapPosNegPI (-1e18) <? - M_PI) = true.
Proof. vm_compute. repeat split. Qed.

(** The steps of the evaluation of [wrapTwoPI] in C7. *)
Example wrap_leaves_interval_steps :
  -1e18 / (2 * M_PI) = -159154943091895328 /\
  floor (-159154943091895328) = -159154943091895328 /\
  (2 * M_PI) * -159154943091895328 = -999999999999999872 /\
  -1e18 - -999999999999999872 = -128 /\
  2 * M_PI + -128 = -121.71681469282041.
Proof. vm_compute. repeat split. Qed.

End common_properties.

(** * More properties of the angle-wrap utility *)

Module Mod_properties.
Import real_value binary64_rounding norm_accuracy binary64_order binary64_shape.
Import floor_properties.
Import cmath common.
Local Open Scope R_scope.

Lemma eta64_tiny : eta64 <= / 1606938044258990275541962092341162602522202993782792835301376.
Proof.
  unfold eta64.
  replace (/ 1606938044258990275541962092341162602522202993782792835301376)
    with (pow2 (-200)) by exact (pow2_neg_val 200 ltac:(lia)).
  apply pow2_le. lia.
Qed.

Lemma least_positive : pow2 (-1074) = 2 * eta64.
Proof. unfold eta64. rewrite <- pow2_succ. reflexivity. Qed.

Lemma F2R_zero_double : finite 0%float /\ F2R 0%float = 0.
Proof.
  unfold finite, F2R.
  replace (Prim2SF 0%float) with (S754_zero false) by (vm_compute; reflexivity).
  split; reflexivity.
Qed.

(** A double that is a number and does not compare equal to zero has a
    mantissa. *)
Lemma nonzero_finite (y : double) :
  finite y -> (y =? 0)%float = false ->
  exists s m e, Prim2SF y = S754_finite s m e.
Proof.
  unfold finite. rewrite FloatAxioms.eqb_spec.
  replace (Prim2SF 0%float) with (S754_zero false) by (vm_compute; reflexivity).
  destruct (Prim2SF y) as [s | s | | s m e]; try discriminate.
  intros _ _. exists s, m, e. reflexivity.
Qed.

(** The residual [x - y * floor (x / y)] of [Mod] is not a NaN when [x] and
    [y] are numbers and [y] is not zero. *)
Lemma residual_not_nan (x y : double) :
  finite x -> finite y -> (y =? 0)%float = false ->
  Prim2SF (x - y * floor (x / y))%float <> S754_nan.
Proof.
  intros Fx Fy Hy. destruct (nonzero_finite y Fy Hy) as (s & m & e & Ey).
  rewrite FloatAxioms.sub_spec. apply SFsub_not_nan; [exact Fx |].
  rewrite FloatAxioms.mul_spec, Ey. apply SFmul_not_nan.
  apply floor_not_nan. rewrite FloatAxioms.div_spec, Ey.
  apply SFdiv_not_nan. exact Fx.
Qed.

Lemma Mod_not_nan (x y : double) :
  finite x -> finite y -> is_nan (Mod x y) = false.
Proof.
  intros Fx Fy. apply is_nan_false. unfold Mod.
  destruct (y =? 0)%float eqn:Hy; [apply finite_not_nan; exact Fx |].
  pose proof (residual_not_nan x y Fx Fy Hy) as Hm.
  cbv zeta. set (m := (x - y * floor (x / y))%float) in *.
  assert (H0 : Prim2SF 0%float <> S754_nan) by (vm_compute; discriminate).
  assert (Hs : Prim2SF (y + m)%float <> S754_nan).
  { rewrite FloatAxioms.add_spec. apply SFadd_not_nan; assumption. }
  destruct (0 <? y)%float.
  - destruct (y <=? m)%float; [exact H0 |].
    destruct (m <? 0)%float; [| exact Hm].
    destruct (y + m =? y)%float; assumption.
  - destruct (m <=? y)%float; [exact H0 |].
    destruct (0 <? m)%float; [| exact Hm].
    destruct (y + m =? y)%float; assumption.
Qed.

(** [Mod] does not make a NaN of numbers: for every [x] and [y] that are
    numbers, zero included, the result is not a NaN.  It can be infinite:
    [Mod(1e308, 1e-308)] is minus infinity. *)
Theorem Mod_never_nan :
  (forall x y : double, finite x -> finite y -> is_nan (Mod x y) = false) /\
  Mod 1e308 1e-308 = neg_infinity.
Proof.
  split.
  - intros x y Fx Fy. apply Mod_not_nan; assumption.
  - vm_compute. reflexivity.
Qed.

Lemma Mod_never_nan_witness :
  is_nan (Mod 1e308 1e-308) = false /\ is_nan (Mod 5 0) = false.
Proof.
  split; apply (proj1 Mod_never_nan); vm_compute; reflexivity.
Defined.

(** ** Arguments inside the interval *)

(** A double between two doubles that are numbers is a number. *)
Lemma finite_between (a x b : double) :
  finite a -> finite b ->
  (a <=? x)%float = true -> (x <=? b)%float = true -> finite x.
Proof.
  unfold finite. rewrite !FloatAxioms.leb_spec. unfold SFleb.
  intros Fa Fb.
  destruct (Prim2SF x) as [sx | sx | | sx mx ex]; try reflexivity.
  - destruct (Prim2SF a) as [sa | sa | | sa ma ea]; try discriminate;
      destruct (Prim2SF b) as [sb | sb | | sb mb eb]; try discriminate;
      cbn [SFcompare]; destruct sx; discriminate.
  - destruct (Prim2SF a) as [sa | sa | | sa ma ea]; try discriminate;
      cbn [SFcompare]; discriminate.
Qed.

Lemma ltb_leb (a b : double) : (a <? b)%float = true -> (a <=? b)%float = true.
Proof.
  rewrite FloatAxioms.ltb_spec, FloatAxioms.leb_spec. unfold SFltb, SFleb.
  destruct (SFcompare (Prim2SF a) (Prim2SF b)) as [[] |]; congruence.
Qed.

(** The quotient of two doubles of the same sign, the first one smaller in
    magnitude, has the floor zero. *)
Lemma floor_of_proper_quotient (x y : double) :
  finite x -> finite y ->
  0 <= F2R x / F2R y -> F2R y <> 0 ->
  (0 <= F2R x < F2R y \/ F2R y < F2R x <= 0) ->
  exists s, Prim2SF (floor (x / y)) = S754_zero s.
Proof.
  intros Fx Fy Hq0 Hy Hcase. pose proof u64_val as Hu.
  destruct constants as (He & Hel & Hlo & Hlo1 & Hhi1 & Hbig).
  assert (Hq1 : F2R x / F2R y <= 1 - u64).
  { destruct Hcase as [[H0 Hlt] | [Hlt H0]].
    - pose proof (spacing x y Fx Fy (conj H0 Hlt)) as Hs.
      apply (Rmult_le_reg_r (F2R y)); [lra |].
      unfold Rdiv. rewrite Rmult_assoc, Rinv_l by lra. lra.
    - assert (Fx' : finite (- x)%float) by (apply finite_opp; exact Fx).
      assert (Fy' : finite (- y)%float) by (apply finite_opp; exact Fy).
      pose proof (spacing (- x) (- y) Fx' Fy') as Hs.
      rewrite !F2R_opp in Hs. specialize (Hs ltac:(lra)).
      replace (F2R x / F2R y) with ((- F2R x) / (- F2R y)) by (field; lra).
      apply (Rmult_le_reg_r (- F2R y)); [lra |].
      unfold Rdiv. rewrite Rmult_assoc, Rinv_l by lra. lra. }
  destruct (div_correct x y Fx Fy Hy) as [Fq Hq].
  { rewrite Rabs_pos_eq by exact Hq0.
    apply Rle_lt_trans with 1; [rewrite Hu in Hq1; lra |].
    rewrite <- pow2_0. apply pow2_lt. lia. }
  rewrite (Rabs_pos_eq (F2R x / F2R y)) in Hq by exact Hq0.
  apply Rabs_le_inv in Hq.
  pose proof eta64_tiny as Het.
  rewrite Hu in *.
  assert (HQ : 0 <= F2R (x / y)%float < 1).
  { split; [| nra].
    destruct (Rle_lt_dec 0 (F2R (x / y)%float)) as [| Hneg]; [assumption |].
    pose proof (F2R_negative_magnitude _ Hneg) as Hmag.
    rewrite least_positive in Hmag. nra. }
  destruct (floor_correct _ Fq) as (Ff & k & Hk & Hkb).
  assert (k = 0%Z).
  { assert (IZR k < 1) by lra. assert (-1 < IZR k) by lra.
    apply lt_IZR in H, H0. lia. }
  subst k. unfold finite, F2R in Ff, Hk.
  pose proof (Prim2SF_valid (floor (x / y)%float)) as V.
  destruct (Prim2SF (floor (x / y)%float)) as [s | s | | s m e]; try discriminate.
  - exists s. reflexivity.
  - exfalso. cbn [SF2R] in Hk.
    pose proof (finite_nonzero_magnitude s m e V). pose proof (pow2_pos (-1074)).
    destruct s; cbn [sgn] in Hk; lra.
Qed.

(** With a zero floor the residual of [Mod] is [x]. *)
Lemma residual_of_zero_floor (x y : double) s :
  finite x -> finite y -> F2R y <> 0 ->
  Prim2SF (floor (x / y)) = S754_zero s ->
  let m := (x - y * floor (x / y))%float in
  finite m /\ F2R m = F2R x.
Proof.
  intros Fx Fy Hy Ef m. subst m. unfold finite, F2R in *.
  rewrite FloatAxioms.sub_spec, FloatAxioms.mul_spec, Ef.
  unfold SF64sub, SF64mul.
  destruct (Prim2SF y) as [sy | sy | | sy my ey]; try discriminate;
    [cbn [SF2R] in Hy; lra |].
  cbn [SFmul].
  destruct (Prim2SF x) as [sx | sx | | sx mx ex]; try discriminate; cbn [SFsub].
  - destruct sx, (xorb sy s); split; reflexivity.
  - split; reflexivity.
Qed.

(** A double inside the interval is returned as it is. *)
Lemma Mod_fixed_real (x y : double) :
  finite x -> finite y ->
  (0 <= F2R x < F2R y \/ F2R y < F2R x <= 0) ->
  finite (Mod x y) /\ F2R (Mod x y) = F2R x.
Proof.
  intros Fx Fy HR.
  destruct F2R_zero_double as [F0 V0].
  assert (Hy : F2R y <> 0) by lra.
  assert (Hq0 : 0 <= F2R x / F2R y).
  { destruct HR as [[H0 Hlt] | [Hlt H0]].
    - apply Rmult_le_pos; [lra |]. apply Rlt_le, Rinv_0_lt_compat. lra.
    - replace (F2R x / F2R y) with ((- F2R x) / (- F2R y)) by (field; lra).
      apply Rmult_le_pos; [lra |]. apply Rlt_le, Rinv_0_lt_compat. lra. }
  destruct (floor_of_proper_quotient x y Fx Fy Hq0 Hy HR) as [s Ef].
  destruct (residual_of_zero_floor x y s Fx Fy Hy Ef) as [Fm Vm].
  cbv zeta in Fm, Vm. unfold Mod.
  assert (Ey : (y =? 0)%float = false)
    by (apply (eqb_real_false y 0 Fy F0); rewrite V0; exact Hy).
  rewrite Ey. cbv zeta.
  set (m := (x - y * floor (x / y))%float) in *.
  destruct HR as [[H0 Hlt] | [Hlt H0]].
  - assert (E1 : (0 <? y)%float = true)
      by (apply (ltb_real 0 y F0 Fy); rewrite V0; lra).
    assert (E2 : (y <=? m)%float = false)
      by (apply (leb_real_false y m Fy Fm); rewrite Vm; lra).
    assert (E3 : (m <? 0)%float = false)
      by (apply (ltb_real_false m 0 Fm F0); rewrite Vm, V0; lra).
    rewrite E1, E2, E3. split; assumption.
  - assert (E1 : (0 <? y)%float = false)
      by (apply (ltb_real_false 0 y F0 Fy); rewrite V0; lra).
    assert (E2 : (m <=? y)%float = false)
      by (apply (leb_real_false m y Fm Fy); rewrite Vm; lra).
    assert (E3 : (0 <? m)%float = false)
      by (apply (ltb_real_false 0 m F0 Fm); rewrite Vm, V0; lra).
    rewrite E1, E2, E3. split; assumption.
Qed.

(** The same with the comparisons of the code. *)
Lemma interval_real (x y : double) :
  finite y ->
  ((0 <=? x)%float = true /\ (x <? y)%float = true) \/
  ((y <? x)%float = true /\ (x <=? 0)%float = true) ->
  finite x /\ (0 <= F2R x < F2R y \/ F2R y < F2R x <= 0).
Proof.
  intros Fy Hcase. destruct F2R_zero_double as [F0 V0].
  assert (Fx : finite x).
  { destruct Hcase as [[H1 H2] | [H1 H2]].
    - exact (finite_between 0 x y F0 Fy H1 (ltb_leb _ _ H2)).
    - exact (finite_between y x 0 Fy F0 (ltb_leb _ _ H1) H2). }
  split; [exact Fx |].
  destruct Hcase as [[H1 H2] | [H1 H2]]; [left | right].
  - apply (leb_real 0 x F0 Fx) in H1. apply (ltb_real x y Fx Fy) in H2.
    rewrite V0 in H1. lra.
  - apply (ltb_real y x Fy Fx) in H1. apply (leb_real x 0 Fx F0) in H2.
    rewrite V0 in H2. lra.
Qed.

(** [Mod] leaves a value of the interval as it is: for every [y] that is a
    number and every [x] with [0 <= x < y], or with [y < x <= 0], the result
    [Mod(x, y)] compares equal to [x]. *)
Theorem Mod_of_value_in_interval :
  forall x y : double,
    finite y ->
    ((0 <=? x)%float = true /\ (x <? y)%float = true) \/
    ((y <? x)%float = true /\ (x <=? 0)%float = true) ->
    (Mod x y =? x)%float = true.
Proof.
  intros x y Fy Hcase.
  destruct (interval_real x y Fy Hcase) as [Fx HR].
  destruct (Mod_fixed_real x y Fx Fy HR) as [Fr Vr].
  apply (eqb_real _ _ Fr Fx). exact Vr.
Qed.

(** ** Arguments of moderate size *)

Lemma moderate_constants :
  pow2 50 = 1125899906842624 /\
  pow2 900 * 9007199254740992 <= pow2 970 /\
  eta64 * 1267650600228229401496703205376 <= pow2 (-900) /\
  0 < pow2 (-900).
Proof.
  split; [rewrite pow2_IZR by lia; reflexivity |].
  split; [| split; [| apply pow2_pos]].
  - replace 9007199254740992 with (pow2 53) by (rewrite pow2_IZR by lia; reflexivity).
    rewrite <- pow2_add. apply pow2_le. lia.
  - replace 1267650600228229401496703205376 with (pow2 100)
      by (rewrite pow2_IZR by lia; reflexivity).
    unfold eta64. rewrite <- pow2_add. apply pow2_le. lia.
Qed.

(** The residual [x - y * floor (x / y)] is between [-|y|/2] and [3|y|/2]
    on the side of [y], when [|x| <= 2^50 * |y|]. *)
Lemma residual_bounds (x y : double) :
  finite x -> finite y ->
  pow2 (-900) <= Rabs (F2R y) <= pow2 900 ->
  Rabs (F2R x) <= pow2 50 * Rabs (F2R y) ->
  let m := (x - y * floor (x / y))%float in
  finite m /\
  (0 < F2R y -> - (F2R y / 2) <= F2R m <= 3 * F2R y / 2) /\
  (F2R y < 0 -> 3 * F2R y / 2 <= F2R m <= - (F2R y / 2)).
Proof.
  intros Fx Fy Hy Hx m. subst m.
  pose proof u64_val as Hu. pose proof eta64_tiny as Het. pose proof eta64_pos as Hep.
  destruct moderate_constants as (H50 & H900 & Heta & Hp900).
  rewrite H50 in Hx. change (pow2 970) with big in H900.
  remember (F2R x) as X. remember (F2R y) as Y.
  remember (pow2 900) as Ymax. remember (pow2 (-900)) as Ymin.
  assert (HA : 0 < Rabs Y) by lra.
  assert (HYnz : Y <> 0) by (intros E; rewrite E, Rabs_R0 in HA; lra).
  set (t := X / Y).
  assert (HXt : X = t * Y) by (unfold t; field; exact HYnz).
  assert (Ht : - 1125899906842624 <= t <= 1125899906842624).
  { apply Rabs_le_inv. unfold t, Rdiv. rewrite Rabs_mult, Rabs_inv.
    apply (Rmult_le_reg_r (Rabs Y)); [exact HA |].
    rewrite Rmult_assoc, Rinv_l by lra. lra. }
  (* the quotient *)
  destruct (div_bound x y 1125899906842624 Fx Fy) as [Fq Hq];
    [rewrite <- HeqY; exact HYnz
    | rewrite <- HeqX, <- HeqY; fold t; apply Rabs_bound; exact Ht
    | unfold big; apply Rlt_le_trans with (pow2 51);
        [rewrite pow2_IZR by lia; apply IZR_lt; reflexivity | apply pow2_le; lia] |].
  rewrite <- HeqX, <- HeqY, Hu in Hq. fold t in Hq.
  remember (F2R (x / y)%float) as Q.
  (* its floor *)
  destruct (floor_correct _ Fq) as (Ff & k & Hk & Hkb). rewrite <- HeqQ in Hkb.
  remember (IZR k) as K.
  assert (HtK : - (126 / 1000) <= t - K <= 1 + 126 / 1000) by lra.
  assert (HK : - 1125899906842626 <= K <= 1125899906842626) by lra.
  (* the product *)
  assert (HYK : Rabs (Y * K) <= Rabs Y * 1125899906842626).
  { rewrite Rabs_mult. apply Rmult_le_compat_l; [apply Rabs_pos |].
    apply Rabs_bound. lra. }
  destruct (mul_bound y (floor (x / y)) (Rabs Y * 1125899906842626) Fy Ff) as [Fp Hp];
    [rewrite <- HeqY, Hk; exact HYK | lra |].
  rewrite <- HeqY, Hk, Hu in Hp.
  remember (F2R (y * floor (x / y))%float) as P.
  (* the difference *)
  assert (Hd : X - Y * K = Y * (t - K)) by (rewrite HXt; ring).
  assert (Hdpos : 0 < Y -> - (126 / 1000) * Y <= X - Y * K <= (1 + 126 / 1000) * Y)
    by (clear - Hd HtK; intros Hpos; rewrite Hd; split; nra).
  assert (Hdneg : Y < 0 -> (1 + 126 / 1000) * Y <= X - Y * K <= - (126 / 1000) * Y)
    by (clear - Hd HtK; intros Hneg; rewrite Hd; split; nra).
  remember (Y * K) as YK. clear Hd HeqYK HXt HtK HK Hq Hkb HYK.
  assert (HXP : Rabs (X - P) <= Rabs Y * (13 / 10)).
  { apply Rabs_bound.
    destruct (Rlt_le_dec 0 Y) as [Hpos | Hneg].
    - rewrite (Rabs_pos_eq Y) in * by lra. specialize (Hdpos Hpos). split; lra.
    - rewrite (Rabs_left Y) in * by lra. specialize (Hdneg ltac:(lra)). split; lra. }
  destruct (sub_bound x (y * floor (x / y)) (Rabs Y * (13 / 10)) Fx Fp) as [Fm Hm];
    [rewrite <- HeqX, <- HeqP; exact HXP | lra |].
  rewrite <- HeqX, <- HeqP, Hu in Hm.
  remember (F2R (x - y * floor (x / y))%float) as M.
  split; [exact Fm |]. split; intros Hsign.
  - rewrite (Rabs_pos_eq Y) in * by lra. specialize (Hdpos Hsign). split; lra.
  - rewrite (Rabs_left Y) in * by lra. specialize (Hdneg Hsign). split; lra.
Qed.

(** In the branch [return y+m] the sum is inside the interval. *)
Lemma corrected_residual_pos (y m : double) :
  finite y -> finite m ->
  pow2 (-900) <= F2R y <= pow2 900 ->
  - (F2R y / 2) <= F2R m < 0 ->
  (y + m =? y)%float = false ->
  finite (y + m)%float /\ 0 <= F2R (y + m)%float < F2R y.
Proof.
  intros Fy Fm Hy Hm Hne.
  pose proof u64_val as Hu. pose proof eta64_pos as Hep.
  destruct moderate_constants as (_ & H900 & Heta & Hp900).
  change (pow2 970) with big in H900.
  destruct (add_bound y m (F2R y) Fy Fm) as [Fs Hs];
    [apply Rabs_bound; lra | lra |].
  split; [exact Fs |].
  apply (eqb_real_false _ _ Fs Fy) in Hne.
  pose proof (F2R_negative_magnitude m ltac:(lra)) as Hmag.
  rewrite least_positive in Hmag.
  destruct (add_correct y m Fy Fm) as [_ Hrel];
    [change (pow2 970) with big;
     apply Rle_lt_trans with (F2R y); [apply Rabs_bound; lra | lra] |].
  rewrite (Rabs_pos_eq (F2R y + F2R m)) in Hrel by lra. apply Rabs_le_inv in Hrel.
  rewrite Hu in *.
  remember (F2R y) as Y. remember (F2R m) as M. remember (F2R (y + m)%float) as S.
  split; [lra |].
  destruct (Rle_lt_dec S Y) as [Hle | Hgt]; [lra |].
  exfalso.
  assert (Hsp : Y <= S * (1 - u64)) by (rewrite HeqY, HeqS; apply spacing; [assumption .. | lra]).
  rewrite Hu in Hsp. lra.
Qed.

Lemma corrected_residual_neg (y m : double) :
  finite y -> finite m ->
  pow2 (-900) <= - F2R y <= pow2 900 ->
  0 < F2R m <= - (F2R y / 2) ->
  (y + m =? y)%float = false ->
  finite (y + m)%float /\ F2R y < F2R (y + m)%float <= 0.
Proof.
  intros Fy Fm Hy Hm Hne.
  pose proof u64_val as Hu. pose proof eta64_pos as Hep.
  destruct moderate_constants as (_ & H900 & Heta & Hp900).
  change (pow2 970) with big in H900.
  destruct (add_bound y m (- F2R y) Fy Fm) as [Fs Hs];
    [apply Rabs_bound; lra | lra |].
  split; [exact Fs |].
  apply (eqb_real_false _ _ Fs Fy) in Hne.
  pose proof (F2R_positive_magnitude m ltac:(lra)) as Hmag.
  rewrite least_positive in Hmag.
  destruct (add_correct y m Fy Fm) as [_ Hrel];
    [change (pow2 970) with big;
     apply Rle_lt_trans with (- F2R y); [apply Rabs_bound; lra | lra] |].
  rewrite (Rabs_left (F2R y + F2R m)) in Hrel by lra. apply Rabs_le_inv in Hrel.
  rewrite Hu in *.
  assert (Fs' : finite (- (y + m))%float) by (apply finite_opp; exact Fs).
  assert (Fy' : finite (- y)%float) by (apply finite_opp; exact Fy).
  pose proof (spacing (- y) (- (y + m)) Fy' Fs') as Hsp. rewrite !F2R_opp, Hu in Hsp.
  remember (F2R y) as Y. remember (F2R m) as M. remember (F2R (y + m)%float) as S.
  split; [| lra].
  destruct (Rle_lt_dec Y S) as [Hle | Hgt]; [lra |].
  exfalso. specialize (Hsp ltac:(lra)). lra.
Qed.

(** The result of [Mod] is inside the interval when [|x| <= 2^50 * |y|]. *)
Lemma Mod_range_real (x y : double) :
  finite x -> finite y ->
  pow2 (-900) <= Rabs (F2R y) <= pow2 900 ->
  Rabs (F2R x) <= pow2 50 * Rabs (F2R y) ->
  finite (Mod x y) /\
  (0 < F2R y -> 0 <= F2R (Mod x y) < F2R y) /\
  (F2R y < 0 -> F2R y < F2R (Mod x y) <= 0).
Proof.
  intros Fx Fy Hy Hx.
  destruct F2R_zero_double as [F0 V0].
  destruct moderate_constants as (_ & _ & _ & Hp900).
  destruct (residual_bounds x y Fx Fy Hy Hx) as (Fm & Hpos & Hneg).
  cbv zeta in Fm, Hpos, Hneg.
  assert (HYnz : F2R y <> 0).
  { intros E. rewrite E, Rabs_R0 in Hy. lra. }
  unfold Mod.
  assert (Ey : (y =? 0)%float = false)
    by (apply (eqb_real_false y 0 Fy F0); rewrite V0; exact HYnz).
  rewrite Ey. cbv zeta.
  set (m := (x - y * floor (x / y))%float) in *.
  destruct (Rlt_le_dec 0 (F2R y)) as [HY | HY].
  - specialize (Hpos HY). clear Hneg.
    rewrite (Rabs_pos_eq (F2R y)) in Hy by lra.
    assert (E1 : (0 <? y)%float = true)
      by (apply (ltb_real 0 y F0 Fy); rewrite V0; lra).
    rewrite E1.
    assert (Hin : forall r : double,
               finite r -> 0 <= F2R r < F2R y ->
               finite r /\ (0 < F2R y -> 0 <= F2R r < F2R y) /\
               (F2R y < 0 -> F2R y < F2R r <= 0)).
    { intros r Fr Hr. split; [exact Fr |]. split; intros; lra. }
    destruct (y <=? m)%float eqn:E2.
    + apply Hin; [exact F0 | rewrite V0; lra].
    + apply (leb_real_false y m Fy Fm) in E2.
      destruct (m <? 0)%float eqn:E3.
      * apply (ltb_real m 0 Fm F0) in E3. rewrite V0 in E3.
        destruct (y + m =? y)%float eqn:E4.
        -- apply Hin; [exact F0 | rewrite V0; lra].
        -- destruct (corrected_residual_pos y m Fy Fm Hy ltac:(lra) E4) as [Fs Hs].
           apply Hin; assumption.
      * apply (ltb_real_false m 0 Fm F0) in E3. rewrite V0 in E3.
        apply Hin; [exact Fm | lra].
  - assert (HY' : F2R y < 0) by lra. specialize (Hneg HY'). clear Hpos.
    rewrite (Rabs_left (F2R y)) in Hy by lra.
    assert (E1 : (0 <? y)%float = false)
      by (apply (ltb_real_false 0 y F0 Fy); rewrite V0; lra).
    rewrite E1.
    assert (Hin : forall r : double,
               finite r -> F2R y < F2R r <= 0 ->
               finite r /\ (0 < F2R y -> 0 <= F2R r < F2R y) /\
               (F2R y < 0 -> F2R y < F2R r <= 0)).
    { intros r Fr Hr. split; [exact Fr |]. split; intros; lra. }
    destruct (m <=? y)%float eqn:E2.
    + apply Hin; [exact F0 | rewrite V0; lra].
    + apply (leb_real_false m y Fm Fy) in E2.
      destruct (0 <? m)%float eqn:E3.
      * apply (ltb_real 0 m F0 Fm) in E3. rewrite V0 in E3.
        destruct (y + m =? y)%float eqn:E4.
        -- apply Hin; [exact F0 | rewrite V0; lra].
        -- destruct (corrected_residual_neg y m Fy Fm Hy ltac:(lra) E4) as [Fs Hs].
           apply Hin; assumption.
      * apply (ltb_real_false 0 m F0 Fm) in E3. rewrite V0 in E3.
        apply Hin; [exact Fm | lra].
Qed.

(** The declared range of [Mod] on arguments of moderate size: for all
    numbers [x] and [y] with [2^-900 <= |y| <= 2^900] and
    [|x| <= 2^50 * |y|], the result is a number in [[0, y)] when [y > 0]
    and in [(y, 0]] when [y < 0], by the comparisons of the code. *)
Theorem Mod_in_interval :
  forall x y : double,
    finite x -> finite y ->
    pow2 (-900) <= Rabs (F2R y) <= pow2 900 ->
    Rabs (F2R x) <= pow2 50 * Rabs (F2R y) ->
    finite (Mod x y) /\
    (if (0 <? y)%float
     then (0 <=? Mod x y)%float && (Mod x y <? y)%float
     else (y <? Mod x y)%float && (Mod x y <=? 0)%float) = true.
Proof.
  intros x y Fx Fy Hy Hx.
  destruct F2R_zero_double as [F0 V0].
  destruct moderate_constants as (_ & _ & _ & Hp900).
  destruct (Mod_range_real x y Fx Fy Hy Hx) as (Fr & Hpos & Hneg).
  split; [exact Fr |].
  destruct (0 <? y)%float eqn:E.
  - apply (ltb_real 0 y F0 Fy) in E. rewrite V0 in E. specialize (Hpos E).
    apply andb_true_intro. split.
    + apply (leb_real 0 _ F0 Fr). rewrite V0. lra.
    + apply (ltb_real _ y Fr Fy). lra.
  - apply (ltb_real_false 0 y F0 Fy) in E. rewrite V0 in E.
    assert (HYnz : F2R y <> 0).
    { intros E0. rewrite E0, Rabs_R0 in Hy. lra. }
    specialize (Hneg ltac:(lra)).
    apply andb_true_intro. split.
    + apply (ltb_real y _ Fy Fr). lra.
    + apply (leb_real _ 0 Fr F0). rewrite V0. lra.
Qed.

(** On those arguments wrapping twice is wrapping once:
    [Mod(Mod(x, y), y)] compares equal to [Mod(x, y)]. *)
Theorem Mod_idempotent :
  forall x y : double,
    finite x -> finite y ->
    pow2 (-900) <= Rabs (F2R y) <= pow2 900 ->
    Rabs (F2R x) <= pow2 50 * Rabs (F2R y) ->
    (Mod (Mod x y) y =? Mod x y)%float = true.
Proof.
  intros x y Fx Fy Hy Hx.
  destruct (Mod_range_real x y Fx Fy Hy Hx) as (Fr & Hpos & Hneg).
  assert (HYnz : F2R y <> 0).
  { intros E0. rewrite E0, Rabs_R0 in Hy. pose proof (pow2_pos (-900)). lra. }
  assert (HR : 0 <= F2R (Mod x y) < F2R y \/ F2R y < F2R (Mod x y) <= 0).
  { destruct (Rlt_le_dec 0 (F2R y)); [left; apply Hpos | right; apply Hneg]; lra. }
  destruct (Mod_fixed_real (Mod x y) y Fr Fy HR) as [Frr Vrr].
  apply (eqb_real _ _ Frr Fr). exact Vrr.
Qed.

(** ** The wrap functions *)

Lemma two_pi_value :
  finite (2 * M_PI)%float /\
  F2R (2 * M_PI)%float = 2 * F2R M_PI /\
  3 < F2R M_PI < 4.
Proof.
  assert (F : finite (2 * M_PI)%float) by (vm_compute; reflexivity).
  split; [exact F |].
  assert (E2 : (2 * M_PI)%float = 6.2831853071795862%float) by (vm_compute; reflexivity).
  rewrite E2. unfold M_PI.
  F2R_value 6.2831853071795862%float V2.
  F2R_value 3.14159265358979323846%float V1.
  rewrite V1, V2. split; lra.
Qed.

(** [wrapTwoPI] keeps its promise for every angle up to [2^52] in
    magnitude: the result is in [[0, 2*M_PI)], and wrapping it again gives
    the same value. *)
Theorem wrapTwoPI_in_interval :
  forall angle : double,
    finite angle -> Rabs (F2R angle) <= pow2 52 ->
    (0 <=? wrapTwoPI angle)%float && (wrapTwoPI angle <? 2 * M_PI)%float = true /\
    (wrapTwoPI (wrapTwoPI angle) =? wrapTwoPI angle)%float = true.
Proof.
  intros angle Fa Ha. unfold wrapTwoPI.
  destruct two_pi_value as (F2 & V2 & Hpi).
  destruct F2R_zero_double as [F0 V0].
  assert (Hy : pow2 (-900) <= Rabs (F2R (2 * M_PI)%float) <= pow2 900).
  { rewrite V2, Rabs_pos_eq by lra. split.
    - apply Rle_trans with (pow2 0); [apply pow2_le; lia | rewrite pow2_0; lra].
    - apply Rle_trans with (pow2 3); [| apply pow2_le; lia].
      rewrite pow2_IZR by lia. change (IZR (2 ^ 3)) with 8. lra. }
  assert (Hx : Rabs (F2R angle) <= pow2 50 * Rabs (F2R (2 * M_PI)%float)).
  { rewrite V2, (Rabs_pos_eq (2 * F2R M_PI)) by lra.
    apply Rle_trans with (1 := Ha).
    replace 52%Z with (50 + 2)%Z by lia. rewrite pow2_add.
    pose proof (pow2_pos 50). rewrite (pow2_IZR 2) by lia. change (IZR (2 ^ 2)) with 4. nra. }
  destruct (Mod_range_real angle _ Fa F2 Hy Hx) as (Fr & Hr & _).
  rewrite V2 in Hr. specialize (Hr ltac:(lra)).
  set (r := Mod angle (2 * M_PI)) in *.
  split.
  - apply andb_true_intro. split.
    + apply (leb_real 0 r F0 Fr). rewrite V0. lra.
    + apply (ltb_real r _ Fr F2). rewrite V2. lra.
  - destruct (Mod_fixed_real r (2 * M_PI) Fr F2) as [Frr Vrr];
      [left; rewrite V2; exact Hr |].
    apply (eqb_real _ _ Frr Fr). exact Vrr.
Qed.




(** ** Witnesses *)

Lemma moderate_example :
  (pow2 (-900) <= Rabs (F2R 360%float) <= pow2 900) /\
  Rabs (F2R (-725)%float) <= pow2 50 * Rabs (F2R 360%float) /\
  Rabs (F2R 100%float) <= pow2 51.
Proof.
  F2R_value 360%float V1. F2R_value (-725)%float V2. F2R_value 100%float V3.
  rewrite V1, V2, V3.
  assert (H1 : pow2 (-900) <= 1) by (rewrite <- pow2_0; apply pow2_le; lia).
  assert (H2 : 1024 <= pow2 900).
  { apply Rle_trans with (pow2 10); [| apply pow2_le; lia].
    rewrite pow2_IZR by lia. change (IZR (2 ^ 10)) with 1024. lra. }
  assert (H3 : pow2 50 = 1125899906842624) by (rewrite pow2_IZR by lia; reflexivity).
  assert (H4 : pow2 51 = 2251799813685248) by (rewrite pow2_IZR by lia; reflexivity).
  rewrite H3, H4.
  rewrite (Rabs_pos_eq (1 * (6333186975989760 * / 17592186044416))) by lra.
  rewrite (Rabs_left (-1 * (6377167441100800 * / 8796093022208))) by lra.
  rewrite (Rabs_pos_eq (1 * (7036874417766400 * / 70368744177664))) by lra.
  split; [split |]; [lra | lra | split; lra].
Qed.

Lemma Mod_of_value_in_interval_witness :
  (Mod 1 3 =? 1)%float = true /\ (Mod (-1) (-3) =? -1)%float = true.
Proof.
  split.
  - apply Mod_of_value_in_interval; [vm_compute; reflexivity |].
    left. split; vm_compute; reflexivity.
  - apply Mod_of_value_in_interval; [vm_compute; reflexivity |].
    right. split; vm_compute; reflexivity.
Defined.

Lemma Mod_in_interval_witness :
  (0 <=? Mod (-725) 360)%float && (Mod (-725) 360 <? 360)%float = true.
Proof.
  refine (proj2 (Mod_in_interval (-725) 360 _ _ _ _)).
  - vm_compute. reflexivity.
  - vm_compute. reflexivity.
  - exact (proj1 moderate_example).
  - exact (proj1 (proj2 moderate_example)).
Defined.

Lemma Mod_idempotent_witness :
  (Mod (Mod (-725) 360) 360 =? Mod (-725) 360)%float = true.
Proof.
  apply Mod_idempotent.
  - vm_compute. reflexivity.
  - vm_compute. reflexivity.
  - exact (proj1 moderate_example).
  - exact (proj1 (proj2 moderate_example)).
Defined.

Lemma wrapTwoPI_in_interval_witness :
  (0 <=? wrapTwoPI 100)%float && (wrapTwoPI 100 <? 2 * M_PI)%float = true.
Proof.
  refine (proj1 (wrapTwoPI_in_interval 100 _ _)).
  - vm_compute. reflexivity.
  - apply Rle_trans with (1 := proj2 (proj2 moderate_example)).
    apply pow2_le. lia.
Defined.


(** ** wrapAngle *)

Lemma SFsub_opp a b : SFsub 53 1024 a (SFopp b) = SFadd 53 1024 a b.
Proof.
  destruct a as [sa | sa | | sa ma ea], b as [sb | sb | | sb mb eb];
    cbn [SFsub SFadd SFopp]; rewrite ?negb_involutive; try reflexivity.
  - destruct sa, sb; reflexivity.
  - destruct sa, sb; reflexivity.
  - f_equal. destruct sb; cbn [negb cond_Zopp]; lia.
Qed.

Lemma SFadd_opp a b : SFadd 53 1024 a (SFopp b) = SFsub 53 1024 a b.
Proof.
  destruct a as [sa | sa | | sa ma ea], b as [sb | sb | | sb mb eb];
    cbn [SFsub SFadd SFopp]; rewrite ?negb_involutive; try reflexivity.
  - destruct sa, sb; reflexivity.
  - destruct sa, sb; reflexivity.
  - f_equal. destruct sb; cbn [negb cond_Zopp]; lia.
Qed.

Lemma sub_opp (a b : double) : (a - - b)%float = (a + b)%float.
Proof.
  apply Prim2SF_inj.
  rewrite FloatAxioms.sub_spec, FloatAxioms.add_spec, FloatAxioms.opp_spec.
  apply SFsub_opp.
Qed.

Lemma add_opp (a b : double) : (a + - b)%float = (a - b)%float.
Proof.
  apply Prim2SF_inj.
  rewrite FloatAxioms.sub_spec, FloatAxioms.add_spec, FloatAxioms.opp_spec.
  apply SFadd_opp.
Qed.

Lemma sub_zero (a : double) : (a - 0)%float = a.
Proof.
  apply Prim2SF_inj. rewrite FloatAxioms.sub_spec.
  replace (Prim2SF 0%float) with (S754_zero false) by (vm_compute; reflexivity).
  unfold SF64sub.
  destruct (Prim2SF a) as [[] | [] | | [] m e]; reflexivity.
Qed.

Lemma add_zero_eqb (r : double) :
  is_nan r = false -> (r + 0 =? r)%float = true.
Proof.
  unfold is_nan. rewrite !FloatAxioms.eqb_spec, FloatAxioms.add_spec.
  replace (Prim2SF 0%float) with (S754_zero false) by (vm_compute; reflexivity).
  unfold SF64add, SFeqb.
  destruct (Prim2SF r) as [[] | [] | | [] m e]; cbn [SFadd SFcompare negb];
    try discriminate; try reflexivity; intros _;
    rewrite Z.compare_refl;
    change (Pos.compare_cont Eq m m) with (Pos.compare m m);
    rewrite Pos.compare_refl; reflexivity.
Qed.

(** The two special wraps are [wrapAngle] at their intervals:
    [wrapAngle(angle, -M_PI, M_PI)] is [wrapPosNegPI(angle)] for every
    double, bit for bit; [wrapAngle(angle, 0, 2*M_PI)] is
    [wrapTwoPI(angle) + 0], which compares equal to [wrapTwoPI(angle)] for
    every angle that is a number. *)
Theorem wrapAngle_specialised :
  (forall angle : double,
      wrapAngle angle (- M_PI) M_PI = wrapPosNegPI angle) /\
  (forall angle : double,
      wrapAngle angle 0 (2 * M_PI) = (wrapTwoPI angle + 0)%float) /\
  (forall angle : double,
      finite angle ->
      (wrapAngle angle 0 (2 * M_PI) =? wrapTwoPI angle)%float = true).
Proof.
  assert (E1 : forall angle : double,
             wrapAngle angle (- M_PI) M_PI = wrapPosNegPI angle).
  { intros angle. unfold wrapAngle, wrapPosNegPI.
    rewrite !sub_opp, add_opp.
    replace (M_PI + M_PI)%float with (2 * M_PI)%float by (vm_compute; reflexivity).
    reflexivity. }
  assert (E2 : forall angle : double,
             wrapAngle angle 0 (2 * M_PI) = (wrapTwoPI angle + 0)%float).
  { intros angle. unfold wrapAngle, wrapTwoPI. rewrite !sub_zero. reflexivity. }
  split; [exact E1 |]. split; [exact E2 |].
  intros angle Fa. rewrite E2. apply add_zero_eqb.
  unfold wrapTwoPI. apply Mod_not_nan; [exact Fa | vm_compute; reflexivity].
Qed.

Lemma wrapAngle_specialised_witness :
  (wrapAngle 100 0 (2 * M_PI) =? wrapTwoPI 100)%float = true.
Proof.
  apply (proj2 (proj2 wrapAngle_specialised)). vm_compute. reflexivity.
Defined.

End Mod_properties.

(** * How close Mod is to the exact remainder *)

Module Mod_accuracy.
Import real_value binary64_rounding norm_accuracy binary64_order binary64_shape.
Import floor_properties Mod_properties.
Import cmath common.
Local Open Scope R_scope.

(** The residual [x - y * floor (x / y)] against the exact residual
    [x - k * y] for the integer [k] that [floor] returns. *)
Lemma residual_accuracy (x y : double) :
  finite x -> finite y ->
  pow2 (-900) <= Rabs (F2R y) <= pow2 900 ->
  Rabs (F2R x) <= pow2 50 * Rabs (F2R y) ->
  let m := (x - y * floor (x / y))%float in
  exists k : Z,
    let d := F2R x - IZR k * F2R y in
    let c := u64 * Rabs (F2R x) + u64 * Rabs (F2R y) in
    Rabs (F2R m - d) <= u64 * Rabs (F2R x) + 3 * u64 * Rabs (F2R y) /\
    (0 < F2R y -> - c <= d <= F2R y + c) /\
    (F2R y < 0 -> F2R y - c <= d <= c).
Proof.
  intros Fx Fy Hy Hx m. subst m.
  pose proof u64_val as Hu. pose proof eta64_tiny as Het. pose proof eta64_pos as Hep.
  destruct moderate_constants as (H50 & H900 & Heta & Hp900).
  rewrite H50 in Hx. change (pow2 970) with big in H900.
  remember (F2R x) as X. remember (F2R y) as Y.
  remember (pow2 900) as Ymax. remember (pow2 (-900)) as Ymin.
  assert (HA : 0 < Rabs Y) by lra.
  assert (HYnz : Y <> 0) by (intros E; rewrite E, Rabs_R0 in HA; lra).
  set (t := X / Y).
  assert (HXt : X = t * Y) by (unfold t; field; exact HYnz).
  assert (Habst : Rabs X = Rabs t * Rabs Y) by (rewrite HXt at 1; apply Rabs_mult).
  assert (Ht : Rabs t <= 1125899906842624).
  { unfold t, Rdiv. rewrite Rabs_mult, Rabs_inv.
    apply (Rmult_le_reg_r (Rabs Y)); [exact HA |].
    rewrite Rmult_assoc, Rinv_l by lra. lra. }
  (* the quotient *)
  destruct (div_correct x y Fx Fy) as [Fq Hq];
    [rewrite <- HeqY; exact HYnz
    | rewrite <- HeqX, <- HeqY; fold t;
      apply Rle_lt_trans with (1 := Ht); apply Rlt_le_trans with (pow2 51);
        [rewrite pow2_IZR by lia; apply IZR_lt; reflexivity | apply pow2_le; lia] |].
  rewrite <- HeqX, <- HeqY, Hu in Hq. fold t in Hq. apply Rabs_le_inv in Hq.
  remember (F2R (x / y)%float) as Q.
  (* its floor *)
  destruct (floor_correct _ Fq) as (Ff & k & Hk & Hkb). rewrite <- HeqQ in Hkb.
  exists k. cbv zeta. rewrite Hu.
  remember (IZR k) as K.
  set (e1 := / 9007199254740992 * Rabs t + eta64) in *.
  assert (He1 : 0 <= e1 <= 126 / 1000) by (pose proof (Rabs_pos t); unfold e1; lra).
  assert (HtK : - e1 <= t - K <= 1 + e1) by lra.
  assert (HK : - 1125899906842626 <= K <= 1125899906842626)
    by (apply Rabs_le_inv in Ht; lra).
  (* the exact residual *)
  assert (Hd : X - K * Y = Y * (t - K)) by (rewrite HXt; ring).
  assert (He1Y : e1 * Rabs Y <= / 9007199254740992 * Rabs X
                                + / 9007199254740992 * Rabs Y).
  { unfold e1. rewrite Rmult_plus_distr_r, Rmult_assoc, <- Habst.
    apply Rplus_le_compat_l. clear - Het HA Hep. nra. }
  assert (Hdpos : 0 < Y -> - (e1 * Rabs Y) <= X - K * Y <= Y + e1 * Rabs Y).
  { clear - Hd HtK He1. intros Hpos. rewrite Hd, (Rabs_pos_eq Y) by lra. split; nra. }
  assert (Hdneg : Y < 0 -> Y - e1 * Rabs Y <= X - K * Y <= e1 * Rabs Y).
  { clear - Hd HtK He1. intros Hneg. rewrite Hd, (Rabs_left Y) by lra. split; nra. }
  assert (Hdabs : Rabs (X - K * Y) <= Rabs Y * (1126 / 1000)).
  { apply Rabs_bound. destruct (Rlt_le_dec 0 Y) as [Hpos | Hneg].
    - specialize (Hdpos Hpos). rewrite (Rabs_pos_eq Y) in * by lra.
      clear - Hdpos He1 Hpos. split; nra.
    - assert (Hn : Y < 0) by lra. specialize (Hdneg Hn).
      rewrite (Rabs_left Y) in * by lra. clear - Hdneg He1 Hn. split; nra. }
  (* the product *)
  assert (HYKabs : Rabs (Y * K) <= Rabs X + Rabs Y * (1126 / 1000)).
  { replace (Y * K) with (X - (X - K * Y)) by ring.
    apply Rle_trans with (Rabs X + Rabs (X - K * Y)).
    - unfold Rminus at 1. eapply Rle_trans; [apply Rabs_triang |].
      rewrite Rabs_Ropp. lra.
    - lra. }
  destruct (mul_correct y (floor (x / y)) Fy Ff) as [Fp Hp].
  { rewrite <- HeqY, Hk. apply Rle_lt_trans with (1 := HYKabs).
    change (pow2 970) with big. lra. }
  rewrite <- HeqY, Hk, Hu in Hp.
  remember (F2R (y * floor (x / y))%float) as P.
  assert (HP : Rabs (P - Y * K) <= / 9007199254740992 * Rabs X
                                   + / 9007199254740992 * Rabs Y * (1126 / 1000)
                                   + eta64) by lra.
  (* the difference *)
  assert (HXP : Rabs (X - P) <= Rabs Y * (13 / 10)).
  { replace (X - P) with ((X - K * Y) - (P - Y * K)) by ring.
    unfold Rminus at 1. eapply Rle_trans; [apply Rabs_triang |].
    rewrite Rabs_Ropp. lra. }
  destruct (sub_correct x (y * floor (x / y)) Fx Fp) as [Fm Hm].
  { rewrite <- HeqX, <- HeqP. apply Rle_lt_trans with (1 := HXP).
    change (pow2 970) with big. lra. }
  rewrite <- HeqX, <- HeqP, Hu in Hm.
  remember (F2R (x - y * floor (x / y))%float) as M.
  split; [| split].
  - replace (M - (X - K * Y)) with ((M - (X - P)) - (P - Y * K)) by ring.
    unfold Rminus at 1. eapply Rle_trans; [apply Rabs_triang |].
    rewrite Rabs_Ropp. lra.
  - intros Hpos. specialize (Hdpos Hpos). lra.
  - intros Hneg. specialize (Hdneg Hneg). lra.
Qed.

(** The sum of the branch [return y+m], against the exact sum. *)
Lemma corrected_residual_error (y m : double) :
  finite y -> finite m ->
  pow2 (-900) <= Rabs (F2R y) <= pow2 900 ->
  Rabs (F2R y + F2R m) <= Rabs (F2R y) ->
  finite (y + m)%float /\
  Rabs (F2R (y + m)%float - (F2R y + F2R m)) <= 2 * u64 * Rabs (F2R y).
Proof.
  intros Fy Fm Hy Hs.
  pose proof u64_val as Hu. pose proof eta64_tiny as Het. pose proof eta64_pos as Hep.
  destruct moderate_constants as (_ & H900 & Heta & Hp900).
  change (pow2 970) with big in H900.
  destruct (add_correct y m Fy Fm) as [Fs Hrel];
    [change (pow2 970) with big; lra |].
  split; [exact Fs |]. rewrite Hu in *. lra.
Qed.

(** [Mod x y] is [x] minus a whole multiple of [y], up to the rounding of
    the three operations of the residual and of the correcting sum. *)
Lemma Mod_congruent_real (x y : double) :
  finite x -> finite y ->
  pow2 (-900) <= Rabs (F2R y) <= pow2 900 ->
  Rabs (F2R x) <= pow2 50 * Rabs (F2R y) ->
  exists k : Z,
    Rabs (F2R (Mod x y) - (F2R x - IZR k * F2R y))
    <= u64 * Rabs (F2R x) + 5 * u64 * Rabs (F2R y).
Proof.
  intros Fx Fy Hy Hx.
  destruct F2R_zero_double as [F0 V0].
  pose proof u64_val as Hu.
  destruct moderate_constants as (_ & _ & _ & Hp900).
  destruct (residual_bounds x y Fx Fy Hy Hx) as (Fm & Hpos & Hneg).
  destruct (residual_accuracy x y Fx Fy Hy Hx) as (k & Hacc & Hdpos & Hdneg).
  cbv zeta in Fm, Hpos, Hneg, Hacc, Hdpos, Hdneg.
  assert (HYnz : F2R y <> 0).
  { intros E. rewrite E, Rabs_R0 in Hy. lra. }
  unfold Mod.
  assert (Ey : (y =? 0)%float = false)
    by (apply (eqb_real_false y 0 Fy F0); rewrite V0; exact HYnz).
  rewrite Ey. cbv zeta.
  set (m := (x - y * floor (x / y))%float) in *.
  pose proof (Rabs_pos (F2R x)) as HX0.
  assert (Hsame : Rabs (F2R m - (F2R x - IZR k * F2R y))
                  <= u64 * Rabs (F2R x) + 5 * u64 * Rabs (F2R y)) by (rewrite Hu in *; lra).
  apply Rabs_le_inv in Hacc.
  destruct (Rlt_le_dec 0 (F2R y)) as [HY | HY].
  - specialize (Hpos HY). specialize (Hdpos HY). clear Hneg Hdneg.
    assert (E1 : (0 <? y)%float = true)
      by (apply (ltb_real 0 y F0 Fy); rewrite V0; lra).
    rewrite E1.
    destruct (y <=? m)%float eqn:E2.
    + apply (leb_real y m Fy Fm) in E2.
      exists (k + 1)%Z. rewrite V0, plus_IZR.
      rewrite (Rabs_pos_eq (F2R y)) in * by lra.
      apply Rabs_bound. rewrite Hu in *. lra.
    + apply (leb_real_false y m Fy Fm) in E2.
      destruct (m <? 0)%float eqn:E3.
      * apply (ltb_real m 0 Fm F0) in E3. rewrite V0 in E3.
        assert (Hsum : Rabs (F2R y + F2R m) <= Rabs (F2R y))
          by (rewrite !Rabs_pos_eq by lra; lra).
        destruct (corrected_residual_error y m Fy Fm Hy Hsum) as [Fs Hs].
        apply Rabs_le_inv in Hs.
        rewrite (Rabs_pos_eq (F2R y)) in * by lra.
        destruct (y + m =? y)%float eqn:E4.
        -- apply (eqb_real _ _ Fs Fy) in E4. rewrite E4 in Hs.
           exists k. rewrite V0. apply Rabs_bound. rewrite Hu in *. lra.
        -- exists (k - 1)%Z. rewrite minus_IZR.
           apply Rabs_bound. rewrite Hu in *. lra.
      * exists k. exact Hsame.
  - assert (HY' : F2R y < 0) by lra. specialize (Hneg HY'). specialize (Hdneg HY').
    clear Hpos Hdpos.
    assert (E1 : (0 <? y)%float = false)
      by (apply (ltb_real_false 0 y F0 Fy); rewrite V0; lra).
    rewrite E1.
    destruct (m <=? y)%float eqn:E2.
    + apply (leb_real m y Fm Fy) in E2.
      exists (k + 1)%Z. rewrite V0, plus_IZR.
      rewrite (Rabs_left (F2R y)) in * by lra.
      apply Rabs_bound. rewrite Hu in *. lra.
    + apply (leb_real_false m y Fm Fy) in E2.
      destruct (0 <? m)%float eqn:E3.
      * apply (ltb_real 0 m F0 Fm) in E3. rewrite V0 in E3.
        assert (Hsum : Rabs (F2R y + F2R m) <= Rabs (F2R y))
          by (rewrite !Rabs_left by lra; lra).
        destruct (corrected_residual_error y m Fy Fm Hy Hsum) as [Fs Hs].
        apply Rabs_le_inv in Hs.
        rewrite (Rabs_left (F2R y)) in * by lra.
        destruct (y + m =? y)%float eqn:E4.
        -- apply (eqb_real _ _ Fs Fy) in E4. rewrite E4 in Hs.
           exists k. rewrite V0. apply Rabs_bound. rewrite Hu in *. lra.
        -- exists (k - 1)%Z. rewrite minus_IZR.
           apply Rabs_bound. rewrite Hu in *. lra.
      * exists k. exact Hsame.
Qed.

Lemma accuracy_constants :
  pow2 (-53) = / 9007199254740992 /\
  pow2 (-51) = / 2251799813685248 /\
  pow2 (-50) = / 1125899906842624 /\
  pow2 (-47) = / 140737488355328 /\
  pow2 51 = 2251799813685248.
Proof.
  repeat split.
  - exact u64_val.
  - change (-51)%Z with (- (51))%Z. rewrite pow2_neg_val by lia. reflexivity.
  - change (-50)%Z with (- (50))%Z. rewrite pow2_neg_val by lia. reflexivity.
  - change (-47)%Z with (- (47))%Z. rewrite pow2_neg_val by lia. reflexivity.
  - rewrite pow2_IZR by lia. reflexivity.
Qed.


(** How far [Mod x y] is from [x] modulo [y]: for all numbers [x] and [y]
    with [2^-900 <= |y| <= 2^900] and [|x| <= 2^50 * |y|] there is an
    integer [k] with [|Mod(x, y) - (x - k*y)| <= 2^-53 * |x| + 2^-50 * |y|]:
    the result is [x] reduced by a whole number of moduli, up to the
    rounding of the quotient, the product and the difference. *)
Theorem Mod_congruent :
  forall x y : double,
    finite x -> finite y ->
    pow2 (-900) <= Rabs (F2R y) <= pow2 900 ->
    Rabs (F2R x) <= pow2 50 * Rabs (F2R y) ->
    exists k : Z,
      Rabs (F2R (Mod x y) - (F2R x - IZR k * F2R y))
      <= pow2 (-53) * Rabs (F2R x) + pow2 (-50) * Rabs (F2R y).
Proof.
  intros x y Fx Fy Hy Hx.
  destruct (Mod_congruent_real x y Fx Fy Hy Hx) as [k Hk].
  exists k.
  destruct accuracy_constants as (H53 & _ & H50 & _ & _).
  pose proof u64_val as Hu. rewrite Hu in Hk. rewrite H53, H50.
  pose proof (Rabs_pos (F2R y)) as HY0.
  eapply Rle_trans; [exact Hk |].
  apply Rplus_le_compat_l. lra.
Qed.


Lemma Mod_congruent_witness :
  exists k : Z,
    Rabs (F2R (Mod (-725) 360) - (F2R (-725)%float - IZR k * F2R 360%float))
    <= pow2 (-53) * Rabs (F2R (-725)%float) + pow2 (-50) * Rabs (F2R 360%float).
Proof.
  apply Mod_congruent.
  - vm_compute. reflexivity.
  - vm_compute. reflexivity.
  - exact (proj1 moderate_example).
  - exact (proj1 (proj2 moderate_example)).
Defined.


End Mod_accuracy.

(** * Infinities, NaN and intervals without a width *)

Module Mod_special_values.
Import real_value binary64_rounding norm_accuracy binary64_order binary64_shape.
Import floor_properties Mod_properties.
Import cmath common.

(** [floor] returns zeros, infinities and NaN as they are. *)
Lemma floor_keeps (q : double) :
  (forall s m e, Prim2SF q <> S754_finite s m e) -> floor q = q.
Proof.
  intros H. unfold floor.
  destruct (Prim2SF q) as [s | s | | s m e] eqn:E; try reflexivity.
  exfalso. exact (H s m e eq_refl).
Qed.

(** A NaN compares false with everything. *)
Lemma nan_compares_false (m a : double) :
  Prim2SF m = S754_nan ->
  (a <=? m)%float = false /\ (m <=? a)%float = false /\
  (a <? m)%float = false /\ (m <? a)%float = false.
Proof.
  intros E.
  rewrite !FloatAxioms.leb_spec, !FloatAxioms.ltb_spec, E.
  unfold SFleb, SFltb.
  destruct (Prim2SF a) as [s | s | | s k e]; repeat split; reflexivity.
Qed.

Lemma is_nan_true (m : double) : Prim2SF m = S754_nan -> is_nan m = true.
Proof.
  intros E. unfold is_nan. rewrite FloatAxioms.eqb_spec, E. reflexivity.
Qed.

Lemma is_nan_inv (m : double) : is_nan m = true -> Prim2SF m = S754_nan.
Proof.
  intros H. destruct (Prim2SF m) as [s | s | | s k e] eqn:E; [| | reflexivity |];
    exfalso; rewrite is_nan_false in H by (rewrite E; discriminate); discriminate.
Qed.

(** The residual [x - y * floor (x / y)] is a NaN as soon as [x] or [y] is
    an infinity or a NaN, for [y] other than zero. *)
Lemma residual_nan (x y : double) :
  (forall s, Prim2SF y <> S754_zero s) ->
  ~ (finite x /\ finite y) ->
  Prim2SF (x - y * floor (x / y))%float = S754_nan.
Proof.
  intros Hy Hnot.
  pose proof (FloatAxioms.div_spec x y) as Eq.
  assert (Hstep : forall v, Prim2SF (x / y)%float = v ->
             (forall s m e, v <> S754_finite s m e) ->
             SFsub prec emax (Prim2SF x) (SFmul prec emax (Prim2SF y) v) = S754_nan ->
             Prim2SF (x - y * floor (x / y))%float = S754_nan).
  { intros v Ev Hv Hres.
    rewrite floor_keeps by (intros s m e; rewrite Ev; apply Hv).
    rewrite FloatAxioms.sub_spec, FloatAxioms.mul_spec, Ev. exact Hres. }
  unfold finite in Hnot. unfold SF64div in Eq.
  destruct (Prim2SF x) as [sx | sx | | sx mx ex] eqn:Ex;
    destruct (Prim2SF y) as [sy | sy | | sy my ey] eqn:Ey;
    try (exfalso; exact (Hy sy eq_refl));
    try (exfalso; apply Hnot; split; reflexivity);
    cbn [SFdiv] in Eq;
    (eapply Hstep; [exact Eq | intros; discriminate |]);
    try reflexivity;
    destruct sx, sy; reflexivity.
Qed.

Lemma not_zero_of_eqb (y : double) :
  (y =? 0)%float = false -> forall s, Prim2SF y <> S754_zero s.
Proof.
  intros H s E. rewrite FloatAxioms.eqb_spec, E in H.
  replace (Prim2SF 0%float) with (S754_zero false) in H by (vm_compute; reflexivity).
  discriminate.
Qed.

Lemma eqb_zero_false (y : double) :
  (forall s, Prim2SF y <> S754_zero s) -> (y =? 0)%float = false.
Proof.
  intros H. rewrite FloatAxioms.eqb_spec.
  replace (Prim2SF 0%float) with (S754_zero false) by (vm_compute; reflexivity).
  destruct (Prim2SF y) as [s | s | | s m e]; try reflexivity;
    [exfalso; exact (H s eq_refl) | destruct s; reflexivity | destruct s; reflexivity].
Qed.

(** [Mod] hands the NaN of its residual on: no branch replaces it. *)
Lemma Mod_nan (x y : double) :
  (forall s, Prim2SF y <> S754_zero s) ->
  ~ (finite x /\ finite y) ->
  Prim2SF (Mod x y) = S754_nan.
Proof.
  intros Hy Hnot. unfold Mod. rewrite (eqb_zero_false y Hy). cbv zeta.
  pose proof (residual_nan x y Hy Hnot) as Em.
  set (m := (x - y * floor (x / y))%float) in *.
  destruct (nan_compares_false m y Em) as (E1 & E2 & _ & _).
  destruct (nan_compares_false m 0%float Em) as (_ & _ & E3 & E4).
  rewrite E1, E2, E3, E4.
  destruct (0 <? y)%float; exact Em.
Qed.

(** A sum with a NaN is a NaN. *)
Lemma add_nan (m a : double) :
  Prim2SF m = S754_nan -> Prim2SF (m + a)%float = S754_nan.
Proof.
  intros E. rewrite FloatAxioms.add_spec, E. reflexivity.
Qed.

(** The difference of a number with itself is a zero. *)
Lemma sub_self (a : double) : finite a -> (a - a =? 0)%float = true.
Proof.
  unfold finite. intros Fa.
  rewrite FloatAxioms.eqb_spec, FloatAxioms.sub_spec.
  replace (Prim2SF 0%float) with (S754_zero false) by (vm_compute; reflexivity).
  unfold SF64sub.
  destruct (Prim2SF a) as [s | s | | s m e]; try discriminate.
  - destruct s; reflexivity.
  - cbn [SFsub]. rewrite Z.sub_diag. reflexivity.
Qed.

(** When does [Mod] return a NaN: for a modulus other than zero, exactly
    when [x] or [y] is an infinity or a NaN.  In particular an infinite
    modulus gives a NaN for every number [x], where [fmod] gives [x]; and
    [wrapTwoPI] gives a NaN exactly for the angles that are not numbers. *)
Theorem Mod_nan_exactly :
  (forall x y : double,
     (y =? 0)%float = false ->
     (is_nan (Mod x y) = true <-> ~ (finite x /\ finite y))) /\
  (forall x : double,
     finite x ->
     is_nan (Mod x infinity) = true /\ is_nan (Mod x neg_infinity) = true) /\
  (forall angle : double,
     is_nan (wrapTwoPI angle) = true <-> ~ finite angle).
Proof.
  assert (Hgen : forall x y : double,
            (y =? 0)%float = false ->
            (is_nan (Mod x y) = true <-> ~ (finite x /\ finite y))).
  { intros x y Hy. split.
    - intros Hn [Fx Fy]. rewrite (Mod_not_nan x y Fx Fy) in Hn. discriminate.
    - intros Hnot. apply is_nan_true.
      apply Mod_nan; [apply not_zero_of_eqb; exact Hy | exact Hnot]. }
  split; [exact Hgen |]. split.
  - intros x Fx. split; apply Hgen; try (vm_compute; reflexivity);
      intros [_ Finf]; vm_compute in Finf; discriminate.
  - intros angle. unfold wrapTwoPI.
    assert (F2 : finite (2 * M_PI)%float) by (vm_compute; reflexivity).
    assert (E2 : (2 * M_PI =? 0)%float = false) by (vm_compute; reflexivity).
    destruct (Hgen angle (2 * M_PI)%float E2) as [H1 H2].
    split.
    + intros Hn Fa. apply (H1 Hn). split; assumption.
    + intros Hnot. apply H2. intros [Fa _]. exact (Hnot Fa).
Qed.

(** [wrapAngle] on intervals without a width.  With [x1 = x2] the modulus
    is zero and the angle comes back shifted by [x1] and back; with a width
    [x2 - x1] that is not a number (a bound that is infinite or NaN, or a
    width that overflows) the result is a NaN for every angle. *)
Theorem wrapAngle_without_width :
  (forall angle x1 : double,
     finite x1 -> wrapAngle angle x1 x1 = (angle - x1 + x1)%float) /\
  (forall angle x1 x2 : double,
     ~ finite (x2 - x1)%float -> is_nan (wrapAngle angle x1 x2) = true).
Proof.
  split.
  - intros angle x1 F1. unfold wrapAngle, Mod.
    rewrite (sub_self x1 F1). reflexivity.
  - intros angle x1 x2 Hw. unfold wrapAngle.
    apply is_nan_true, add_nan, Mod_nan.
    + intros s E. apply Hw. unfold finite. rewrite E. reflexivity.
    + intros [_ Fw]. exact (Hw Fw).
Qed.

Lemma Mod_nan_exactly_witness :
  is_nan (Mod 1 infinity) = true /\ is_nan (Mod infinity 1) = true.
Proof.
  split.
  - apply (proj1 (proj1 (proj2 Mod_nan_exactly) 1%float ltac:(vm_compute; reflexivity))).
  - apply (proj1 Mod_nan_exactly infinity 1%float); [vm_compute; reflexivity |].
    intros [Finf _]. vm_compute in Finf. discriminate.
Defined.

Lemma wrapAngle_without_width_witness :
  wrapAngle 1e-20 1 1 = (1e-20 - 1 + 1)%float /\
  is_nan (wrapAngle 0 (-1e308) 1e308) = true.
Proof.
  split.
  - apply (proj1 wrapAngle_without_width). vm_compute. reflexivity.
  - apply (proj2 wrapAngle_without_width).
    intros F. vm_compute in F. discriminate.
Defined.

End Mod_special_values.

(** * Rounding never crosses an integer *)

Module rounding_grid.
Import real_value binary64_rounding norm_accuracy binary64_order binary64_shape.
Local Open Scope R_scope.

Local Abbreviation prec := 53%Z (only parsing).
Local Abbreviation emax := 1024%Z (only parsing).

(** ** The exponent that rounding returns *)

Lemma shr_exponent r e n : snd (shr r e n) = (e + Z.max 0 n)%Z.
Proof. destruct n; cbn [shr snd]; lia. Qed.

Lemma binary_round_aux_exponent s mx ex lx s' p e :
  binary_round_aux prec emax s mx ex lx = S754_finite s' p e ->
  (fexp prec emax (Zdigits2 mx + ex) <= e)%Z.
Proof.
  unfold binary_round_aux, shr_fexp.
  set (e0 := fexp prec emax (Zdigits2 mx + ex)).
  pose proof (shr_exponent (shr_record_of_loc mx lx) ex (e0 - ex)) as H1.
  destruct (shr (shr_record_of_loc mx lx) ex (e0 - ex)) as [r1 e1].
  cbn [snd] in H1.
  set (mr := round_nearest_even (shr_m r1) (loc_of_shr_record r1)).
  pose proof (shr_exponent (shr_record_of_loc mr loc_Exact) e1
                (fexp prec emax (Zdigits2 mr + e1) - e1)) as H2.
  destruct (shr (shr_record_of_loc mr loc_Exact) e1
              (fexp prec emax (Zdigits2 mr + e1) - e1)) as [r2 e2].
  cbn [snd] in H2.
  destruct (shr_m r2); try discriminate.
  destruct (e2 <=? 1024 - 53)%Z; try discriminate.
  intros [= _ _ <-]. lia.
Qed.

(** The result of rounding is a multiple of [2^e0], where [e0] is the
    exponent of the format for the value at hand, and within half of
    [2^e0] of the value. *)
Lemma binary_round_aux_grid sx mx ex lx v :
  (0 <= mx)%Z -> inloc (v / pow2 ex) mx lx ->
  let e0 := fexp prec emax (Zdigits2 mx + ex) in
  (lx = loc_Exact \/ (ex <= e0)%Z) ->
  let r := binary_round_aux prec emax sx mx ex lx in
  SFfinite r = true ->
  exists A : Z,
    SF2R r = sgn sx * (IZR A * pow2 e0) /\
    Rabs (IZR A * pow2 e0 - v) <= pow2 (e0 - 1).
Proof.
  intros Hmx Hv e0 Hcase r Fr.
  destruct (binary_round_aux_correct sx mx ex lx v Hmx Hv Hcase)
    as (m & e & Hm & Hr & Herr & He).
  fold e0 in Herr. fold r in Hr.
  destruct m as [| p | p]; [| | lia].
  - exists 0%Z. rewrite Hr. cbn [SF2R]. rewrite Rmult_0_l in *. split; [lra | exact Herr].
  - destruct (e <=? 971)%Z eqn:Ee.
    + pose proof (binary_round_aux_exponent _ _ _ _ _ _ _ Hr) as Hexp. fold e0 in Hexp.
      exists (Zpos p * 2 ^ (e - e0))%Z.
      assert (Hval : IZR (Zpos p * 2 ^ (e - e0)) * pow2 e0 = IZR (Zpos p) * pow2 e).
      { rewrite mult_IZR, <- pow2_IZR by lia. rewrite Rmult_assoc, <- pow2_add.
        f_equal. f_equal. lia. }
      rewrite Hval, Hr. split; [reflexivity | exact Herr].
    + rewrite Hr in Fr. discriminate.
Qed.

(** ** Integers on the grid *)

Lemma grid_compare (A N : Z) e0 v :
  (e0 <= 0)%Z -> Rabs (IZR A * pow2 e0 - v) <= pow2 (e0 - 1) ->
  (IZR N <= v -> IZR N <= IZR A * pow2 e0) /\
  (v <= IZR N -> IZR A * pow2 e0 <= IZR N).
Proof.
  intros He Herr. set (B := (N * 2 ^ (- e0))%Z).
  assert (HB : IZR N = IZR B * pow2 e0).
  { unfold B. rewrite mult_IZR, <- pow2_IZR by lia.
    rewrite Rmult_assoc, <- pow2_add.
    replace (- e0 + e0)%Z with 0%Z by lia. rewrite pow2_0. lra. }
  rewrite pow2_pred in Herr. apply Rabs_le_inv in Herr.
  pose proof (pow2_pos e0) as Hp. rewrite HB. clearbody B. clear HB.
  split; intros H.
  - assert (Hlt : IZR B < IZR A + 1) by nra.
    assert (Hle : (B <= A)%Z).
    { apply Z.lt_succ_r. apply lt_IZR. rewrite succ_IZR. exact Hlt. }
    apply Rmult_le_compat_r; [lra | apply IZR_le; exact Hle].
  - assert (Hlt : IZR A < IZR B + 1) by nra.
    assert (Hle : (A <= B)%Z).
    { apply Z.lt_succ_r. apply lt_IZR. rewrite succ_IZR. exact Hlt. }
    apply Rmult_le_compat_r; [lra | apply IZR_le; exact Hle].
Qed.

Lemma integer_monotone_refl v : integer_monotone v v.
Proof. intros N. split; intros H; exact H. Qed.

Lemma integer_monotone_eq r v : r = v -> integer_monotone r v.
Proof. intros ->. apply integer_monotone_refl. Qed.

Lemma integer_monotone_exact r v N :
  integer_monotone r v -> v = IZR N -> r = IZR N.
Proof.
  intros H E. destruct (H N) as [H1 H2]. rewrite E in H1, H2.
  apply Rle_antisym; [apply H2 | apply H1]; lra.
Qed.

Lemma signed_grid s A e0 v :
  (e0 <= 0)%Z -> Rabs (IZR A * pow2 e0 - v) <= pow2 (e0 - 1) ->
  integer_monotone (sgn s * (IZR A * pow2 e0)) (sgn s * v).
Proof.
  intros He Herr N. destruct s; cbn [sgn].
  - destruct (grid_compare A (- N) e0 v He Herr) as [H1 H2].
    rewrite opp_IZR in H1, H2.
    split; intros H; [specialize (H2 ltac:(lra)) | specialize (H1 ltac:(lra))]; lra.
  - destruct (grid_compare A N e0 v He Herr) as [H1 H2].
    split; intros H; [specialize (H1 ltac:(lra)) | specialize (H2 ltac:(lra))]; lra.
Qed.

Lemma fexp_small m e v :
  (0 < m)%Z -> IZR m * pow2 e <= v -> v < pow2 53 ->
  (fexp prec emax (Zdigits2 m + e) <= 0)%Z.
Proof.
  intros Hm Hle Hlt. rewrite fexp64.
  pose proof (Zdigits2_R m Hm) as [Hlo _].
  destruct (Z_le_gt_dec (Zdigits2 m + e) 53) as [| Hgt]; [lia | exfalso].
  assert (H : pow2 53 <= pow2 (Zdigits2 m - 1 + e)) by (apply pow2_le; lia).
  rewrite pow2_add in H. pose proof (pow2_pos e). nra.
Qed.

Lemma below_53_970 v : v < pow2 53 -> v < pow2 970.
Proof.
  intros H. apply Rlt_le_trans with (1 := H). apply pow2_le. lia.
Qed.

(** ** Rounding of the operations *)

Lemma binary_round_aux_exact_grid sx mx ex :
  let v := IZR (Zpos mx) * pow2 ex in
  v < pow2 53 ->
  integer_monotone (SF2R (binary_round_aux prec emax sx (Zpos mx) ex loc_Exact))
    (sgn sx * v).
Proof.
  intros v Hv.
  destruct (binary_round_aux_exact sx mx ex (below_53_970 _ Hv)) as [Fr _].
  assert (Hden : inloc (v / pow2 ex) (Zpos mx) loc_Exact).
  { cbn. unfold v. pose proof (pow2_pos ex). field. lra. }
  destruct (binary_round_aux_grid sx (Zpos mx) ex loc_Exact v ltac:(lia) Hden
              (or_introl eq_refl) Fr) as (A & EA & Herr).
  rewrite EA. apply signed_grid; [| exact Herr].
  apply (fexp_small (Zpos mx) ex v); [lia | unfold v; lra | exact Hv].
Qed.

Lemma binary_round_grid sx mx ex :
  let v := IZR (Zpos mx) * pow2 ex in
  v < pow2 53 ->
  integer_monotone (SF2R (binary_round prec emax sx mx ex)) (sgn sx * v).
Proof.
  intros v Hv. unfold binary_round.
  pose proof (shl_align_correct mx ex (fexp prec emax (Zpos (digits2_pos mx) + ex))) as Hal.
  destruct (shl_align mx ex (fexp prec emax (Zpos (digits2_pos mx) + ex))) as [mz ez].
  cbn [fst snd] in Hal. fold v in Hal.
  pose proof (binary_round_aux_exact_grid sx mz ez) as H. cbv zeta in H.
  rewrite Hal in H. exact (H Hv).
Qed.

Lemma binary_normalize_grid m e szero :
  let v := IZR m * pow2 e in
  Rabs v < pow2 53 ->
  integer_monotone (SF2R (binary_normalize prec emax m e szero)) v.
Proof.
  pose proof (pow2_pos e) as Hpe.
  intros v Hv. subst v. destruct m as [| p | p]; cbn [binary_normalize].
  - cbn [SF2R]. rewrite Rmult_0_l. apply integer_monotone_refl.
  - assert (Hpos : 0 < IZR (Zpos p) * pow2 e)
      by (apply Rmult_lt_0_compat; [apply IZR_lt; lia | exact Hpe]).
    rewrite (Rabs_pos_eq (IZR (Zpos p) * pow2 e)) in Hv by lra.
    pose proof (binary_round_grid false p e Hv) as H. cbv zeta in H.
    unfold sgn in H. rewrite Rmult_1_l in H. exact H.
  - assert (Hpos : 0 < IZR (Zpos p) * pow2 e)
      by (apply Rmult_lt_0_compat; [apply IZR_lt; lia | exact Hpe]).
    assert (Hneg : IZR (Zneg p) * pow2 e = - (IZR (Zpos p) * pow2 e)).
    { change (Zneg p) with (- Zpos p)%Z. rewrite opp_IZR. ring. }
    rewrite Hneg in Hv |- *.
    rewrite Rabs_Ropp, (Rabs_pos_eq (IZR (Zpos p) * pow2 e)) in Hv by lra.
    pose proof (binary_round_grid true p e Hv) as H. cbv zeta in H.
    unfold sgn in H.
    replace (-1 * (IZR (Zpos p) * pow2 e)) with (- (IZR (Zpos p) * pow2 e)) in H by lra.
    exact H.
Qed.

Lemma SFmul_grid x y :
  SFfinite x = true -> SFfinite y = true ->
  Rabs (SF2R x * SF2R y) < pow2 53 ->
  integer_monotone (SF2R (SFmul prec emax x y)) (SF2R x * SF2R y).
Proof.
  destruct x as [sx | sx | | sx mx ex], y as [sy | sy | | sy my ey];
    try discriminate; intros _ _ Hlt; cbn [SFmul SF2R] in *;
    rewrite ?Rmult_0_l, ?Rmult_0_r; try apply integer_monotone_refl.
  set (v := IZR (Zpos (mx * my)) * pow2 (ex + ey)).
  assert (Hprod : sgn sx * (IZR (Zpos mx) * pow2 ex) * (sgn sy * (IZR (Zpos my) * pow2 ey))
                  = sgn (xorb sx sy) * v).
  { unfold v. rewrite sgn_xorb, Pos2Z.inj_mul, mult_IZR, pow2_add. ring. }
  assert (Hv0 : 0 < v).
  { unfold v. apply Rmult_lt_0_compat; [apply IZR_lt; lia | apply pow2_pos]. }
  rewrite Hprod in Hlt |- *.
  rewrite Rabs_mult, Rabs_sgn, Rmult_1_l, (Rabs_pos_eq v) in Hlt by lra.
  exact (binary_round_aux_exact_grid (xorb sx sy) (mx * my) (ex + ey) Hlt).
Qed.


Lemma SFsub_grid x y :
  SFfinite x = true -> SFfinite y = true ->
  Rabs (SF2R x - SF2R y) < pow2 53 ->
  integer_monotone (SF2R (SFsub prec emax x y)) (SF2R x - SF2R y).
Proof.
  destruct x as [sx | sx | | sx mx ex], y as [sy | sy | | sy my ey];
    try discriminate; intros _ _ Hlt; cbn [SFsub].
  - apply integer_monotone_eq. destruct sx, sy; cbn; lra.
  - apply integer_monotone_eq. cbn [SF2R]. rewrite sgn_negb. lra.
  - apply integer_monotone_eq. cbn [SF2R]. lra.
  - set (ez := Z.min ex ey).
    set (S := (cond_Zopp sx (Zpos (fst (shl_align mx ex ez)))
               - cond_Zopp sy (Zpos (fst (shl_align my ey ez))))%Z).
    assert (HS : IZR S * pow2 ez = SF2R (S754_finite sx mx ex) - SF2R (S754_finite sy my ey)).
    { unfold S. rewrite minus_IZR, Rmult_minus_distr_r.
      rewrite !aligned_value by (unfold ez; lia). reflexivity. }
    rewrite <- HS in *.
    exact (binary_normalize_grid S ez false Hlt).
Qed.

Lemma SFdiv_grid x y :
  SFfinite x = true -> SFfinite y = true -> SF2R y <> 0 ->
  Rabs (SF2R x / SF2R y) < pow2 53 ->
  integer_monotone (SF2R (SFdiv prec emax x y)) (SF2R x / SF2R y).
Proof.
  intros Fx Fy Hy Hlt.
  destruct (SFdiv_correct x y Fx Fy Hy (below_53_970 _ Hlt)) as [Fr _].
  revert Fx Fy Hy Hlt Fr.
  destruct x as [sx | sx | | sx mx ex], y as [sy | sy | | sy my ey];
    try discriminate; intros _ _ Hy Hlt; cbn [SFdiv];
    try (exfalso; apply Hy; reflexivity).
  - intros _. cbn [SF2R]. unfold Rdiv. rewrite Rmult_0_l. apply integer_monotone_refl.
  - cbn [SF2R] in *.
    set (v := IZR (Zpos mx) * pow2 ex / (IZR (Zpos my) * pow2 ey)).
    pose proof (pow2_pos ex) as Hpex. pose proof (pow2_pos ey) as Hpey.
    assert (HmxR : 0 < IZR (Zpos mx)) by (apply IZR_lt; lia).
    assert (HmyR : 0 < IZR (Zpos my)) by (apply IZR_lt; lia).
    assert (Hv0 : 0 < v).
    { unfold v. apply Rdiv_lt_0_compat; apply Rmult_lt_0_compat; assumption. }
    assert (Hquot : sgn sx * (IZR (Zpos mx) * pow2 ex) / (sgn sy * (IZR (Zpos my) * pow2 ey))
                    = sgn (xorb sx sy) * v).
    { unfold v. rewrite sgn_xorb. destruct sx, sy; unfold sgn; field; nra. }
    rewrite Hquot in Hlt |- *.
    rewrite Rabs_mult, Rabs_sgn, Rmult_1_l, (Rabs_pos_eq v) in Hlt by lra.
    pose proof (SFdiv_core_binary_correct mx ex my ey) as Hcore.
    destruct (SFdiv_core_binary prec emax (Zpos mx) ex (Zpos my) ey) as [[q e'] l].
    cbv zeta in Hcore. fold v in Hcore.
    destruct Hcore as (Hq & Hloc & Hdig & Hzero).
    intros Fr.
    destruct (binary_round_aux_grid (xorb sx sy) q e' l v Hq Hloc (or_intror Hdig) Fr)
      as (A & EA & Herr).
    rewrite EA. apply signed_grid; [| exact Herr].
    destruct (Z.eq_dec q 0) as [Hq0 | Hqnz].
    + rewrite (Hzero Hq0). lia.
    + pose proof (inloc_bounds _ _ _ Hloc) as [Hqv _].
      apply div_pow2_le in Hqv.
      apply (fexp_small q e' v); [lia | exact Hqv | exact Hlt].
Qed.

(** ** Binary64 operations on primitive floats *)

Lemma mul_grid (x y : double) :
  finite x -> finite y -> Rabs (F2R x * F2R y) < pow2 53 ->
  finite (x * y)%float /\ integer_monotone (F2R (x * y)%float) (F2R x * F2R y).
Proof.
  intros Fx Fy H. split; [apply mul_correct; try assumption; apply below_53_970; exact H |].
  revert Fx Fy H. unfold finite, F2R. rewrite FloatAxioms.mul_spec. apply SFmul_grid.
Qed.


Lemma sub_grid (x y : double) :
  finite x -> finite y -> Rabs (F2R x - F2R y) < pow2 53 ->
  finite (x - y)%float /\ integer_monotone (F2R (x - y)%float) (F2R x - F2R y).
Proof.
  intros Fx Fy H. split; [apply sub_correct; try assumption; apply below_53_970; exact H |].
  revert Fx Fy H. unfold finite, F2R. rewrite FloatAxioms.sub_spec. apply SFsub_grid.
Qed.

Lemma div_grid (x y : double) :
  finite x -> finite y -> F2R y <> 0 -> Rabs (F2R x / F2R y) < pow2 53 ->
  finite (x / y)%float /\ integer_monotone (F2R (x / y)%float) (F2R x / F2R y).
Proof.
  intros Fx Fy Hy H.
  split; [apply div_correct; try assumption; apply below_53_970; exact H |].
  revert Fx Fy Hy H. unfold finite, F2R. rewrite FloatAxioms.div_spec. apply SFdiv_grid.
Qed.

End rounding_grid.

(** * Mod and wrapAngle on integers *)

Module integer_arguments.
Import real_value binary64_rounding norm_accuracy binary64_order binary64_shape.
Import floor_properties Mod_properties rounding_grid.
Import cmath common.
Local Open Scope R_scope.

Lemma two_52 : IZR (2 ^ 52) = 4503599627370496 /\ pow2 53 = 9007199254740992.
Proof. split; [reflexivity | rewrite pow2_IZR by lia; reflexivity]. Qed.

Lemma IZR_abs_lt (a : Z) (k : Z) :
  (Z.abs a < k)%Z -> - IZR k < IZR a < IZR k.
Proof. intros H. split; [rewrite <- opp_IZR |]; apply IZR_lt; lia. Qed.

Lemma IZR_below_53 (n : Z) : (Z.abs n < 2 ^ 53)%Z -> Rabs (IZR n) < pow2 53.
Proof.
  intros H. rewrite pow2_IZR by lia.
  apply Rabs_def1; [| rewrite <- opp_IZR]; apply IZR_lt; lia.
Qed.

(** The quotient of two integers below [2^52], rounded and floored, is the
    quotient of the integers. *)
Lemma floor_of_integer_quotient (x y : double) (a b : Z) :
  finite x -> finite y -> F2R x = IZR a -> F2R y = IZR b ->
  (Z.abs a < 2 ^ 52)%Z -> (Z.abs b < 2 ^ 52)%Z -> b <> 0%Z ->
  finite (floor (x / y)) /\ F2R (floor (x / y)) = IZR (a / b).
Proof.
  intros Fx Fy Ex Ey Ha Hb Hnz.
  destruct two_52 as [H52 H53].
  pose proof u64_val as Hu. pose proof eta64_tiny as Het. pose proof eta64_pos as Hep.
  pose proof (IZR_abs_lt a _ Ha) as HA. pose proof (IZR_abs_lt b _ Hb) as HB.
  rewrite H52 in HA, HB.
  pose proof (Z.div_mod a b Hnz) as Hdm.
  assert (HdmR : IZR a = IZR b * IZR (a / b) + IZR (a mod b))
    by (rewrite <- mult_IZR, <- plus_IZR; f_equal; exact Hdm).
  assert (HBnz : IZR b <> 0) by (intros E; apply Hnz; apply eq_IZR; exact E).
  set (t := IZR a / IZR b).
  set (iB := / Rabs (IZR b)).
  assert (HB1 : 1 <= Rabs (IZR b)).
  { destruct (Z_lt_le_dec b 0) as [Hneg | Hpos].
    - rewrite Rabs_left by (apply IZR_lt; lia). rewrite <- opp_IZR. apply IZR_le. lia.
    - rewrite Rabs_pos_eq by (apply IZR_le; lia). apply IZR_le. lia. }
  assert (HBhi : Rabs (IZR b) < 4503599627370496) by (apply Rabs_def1; lra).
  assert (HiB : 0 < iB /\ iB <= 1 /\ Rabs (IZR b) * iB = 1 /\ / 4503599627370496 < iB).
  { unfold iB. split; [apply Rinv_0_lt_compat; lra |].
    split; [rewrite <- Rinv_1; apply Rinv_le_contravar; lra |].
    split; [apply Rinv_r; lra |].
    apply Rinv_lt_contravar; [apply Rmult_lt_0_compat; lra | exact HBhi]. }
  destruct HiB as (HiB0 & HiB1 & HiBm & HiBlo).
  (* the exact quotient is between a / b and a / b + 1 - 1 / |b| *)
  assert (Ht : IZR (a / b) <= t <= IZR (a / b) + 1 - iB).
  { assert (Et : t = IZR (a / b) + IZR (a mod b) / IZR b).
    { unfold t. rewrite HdmR. field. exact HBnz. }
    rewrite Et. clear Et.
    destruct (Z_lt_le_dec b 0) as [Hneg | Hpos].
    - pose proof (Z.mod_neg_bound a b Hneg) as Hr.
      assert (HbR : IZR b < 0) by (apply IZR_lt; lia).
      assert (HrR : IZR b + 1 <= IZR (a mod b) <= 0).
      { split; [rewrite <- plus_IZR |]; apply IZR_le; lia. }
      assert (Ei : / IZR b = - iB).
      { unfold iB. rewrite Rabs_left by exact HbR. rewrite Rinv_opp. lra. }
      rewrite (Rabs_left (IZR b)) in HiBm by exact HbR.
      unfold Rdiv. rewrite Ei.
      clear - HrR HiB0 HiBm. split; nra.
    - assert (Hpos' : (0 < b)%Z) by lia.
      pose proof (Z.mod_pos_bound a b Hpos') as Hr.
      assert (HbR : 0 < IZR b) by (apply IZR_lt; lia).
      assert (HrR : 0 <= IZR (a mod b) <= IZR b - 1).
      { split; [| rewrite <- minus_IZR]; apply IZR_le; lia. }
      assert (Ei : / IZR b = iB).
      { unfold iB. rewrite Rabs_pos_eq by lra. reflexivity. }
      rewrite (Rabs_pos_eq (IZR b)) in HiBm by lra.
      unfold Rdiv. rewrite Ei.
      clear - HrR HiB0 HiBm. split; nra. }
  assert (Habst : Rabs t <= 4503599627370496 * iB).
  { unfold t, Rdiv. rewrite Rabs_mult, Rabs_inv. fold iB.
    apply Rmult_le_compat_r; [lra |]. apply Rabs_le. lra. }
  assert (Hlt53 : Rabs (F2R x / F2R y) < pow2 53).
  { rewrite Ex, Ey. fold t. rewrite H53. nra. }
  destruct (div_grid x y Fx Fy ltac:(rewrite Ey; exact HBnz) Hlt53) as [Fq Hmono].
  destruct (div_correct x y Fx Fy ltac:(rewrite Ey; exact HBnz)
              (below_53_970 _ Hlt53)) as [_ Herr].
  rewrite Ex, Ey in Hmono, Herr. fold t in Hmono, Herr.
  rewrite Hu in Herr. apply Rabs_le_inv in Herr.
  destruct (Hmono (a / b)%Z) as [Hlow _]. specialize (Hlow (proj1 Ht)).
  destruct (floor_correct _ Fq) as (Ff & k & Ek & Hk).
  split; [exact Ff |]. rewrite Ek. f_equal.
  remember (F2R (x / y)%float) as Q.
  assert (Hup : Q < IZR (a / b) + 1).
  { clear - Herr Ht Habst HiB0 HiBlo Het Hep. nra. }
  assert (H1 : (k < a / b + 1)%Z) by (apply lt_IZR; rewrite plus_IZR; lra).
  assert (H2 : (a / b < k + 1)%Z) by (apply lt_IZR; rewrite plus_IZR; lra).
  lia.
Qed.

(** On integers below [2^52] in magnitude [Mod] is the modulo of the
    integers, the one whose sign follows the modulus. *)
Lemma Mod_integers (x y : double) (a b : Z) :
  finite x -> finite y -> F2R x = IZR a -> F2R y = IZR b ->
  (Z.abs a < 2 ^ 52)%Z -> (Z.abs b < 2 ^ 52)%Z ->
  finite (Mod x y) /\ F2R (Mod x y) = IZR (a mod b).
Proof.
  intros Fx Fy Ex Ey Ha Hb.
  destruct F2R_zero_double as [F0 V0].
  destruct two_52 as [H52 H53].
  unfold Mod.
  destruct (Z.eq_dec b 0) as [-> | Hnz].
  - assert (E0 : (y =? 0)%float = true)
      by (apply (eqb_real y 0 Fy F0); rewrite Ey, V0; reflexivity).
    rewrite E0, Z.mod_0_r. split; assumption.
  - assert (HBnz : IZR b <> 0) by (intros E; apply Hnz; apply eq_IZR; exact E).
    assert (E0 : (y =? 0)%float = false)
      by (apply (eqb_real_false y 0 Fy F0); rewrite Ey, V0; exact HBnz).
    rewrite E0. cbv zeta.
    destruct (floor_of_integer_quotient x y a b Fx Fy Ex Ey Ha Hb Hnz) as [Ff Ef].
    pose proof (Z.div_mod a b Hnz) as Hdm.
    assert (Hr : (Z.abs (a mod b) < Z.abs b)%Z).
    { destruct (Z_lt_le_dec b 0) as [Hneg | Hpos].
      - pose proof (Z.mod_neg_bound a b Hneg). lia.
      - pose proof (Z.mod_pos_bound a b ltac:(lia)). lia. }
    (* the product *)
    assert (Ep : F2R y * F2R (floor (x / y)) = IZR (b * (a / b)))
      by (rewrite Ey, Ef, mult_IZR; reflexivity).
    destruct (mul_grid y (floor (x / y)) Fy Ff) as [Fp Hp].
    { rewrite Ep. apply IZR_below_53. lia. }
    apply (integer_monotone_exact _ _ _ Hp) in Ep.
    (* the difference *)
    assert (Em : F2R x - F2R (y * floor (x / y))%float = IZR (a mod b)).
    { rewrite Ex, Ep, <- minus_IZR. f_equal. lia. }
    destruct (sub_grid x (y * floor (x / y)) Fx Fp) as [Fm Hm].
    { rewrite Em. apply IZR_below_53. lia. }
    apply (integer_monotone_exact _ _ _ Hm) in Em.
    set (m := (x - y * floor (x / y))%float) in *.
    (* the branches *)
    destruct (Z_lt_le_dec b 0) as [Hneg | Hpos].
    + pose proof (Z.mod_neg_bound a b Hneg) as Hb'.
      assert (E1 : (0 <? y)%float = false).
      { apply (ltb_real_false 0 y F0 Fy). rewrite V0, Ey. apply IZR_le. lia. }
      assert (E2 : (m <=? y)%float = false).
      { apply (leb_real_false m y Fm Fy). rewrite Em, Ey. apply IZR_lt. lia. }
      assert (E3 : (0 <? m)%float = false).
      { apply (ltb_real_false 0 m F0 Fm). rewrite V0, Em. apply IZR_le. lia. }
      rewrite E1, E2, E3. split; assumption.
    + pose proof (Z.mod_pos_bound a b ltac:(lia)) as Hb'.
      assert (E1 : (0 <? y)%float = true).
      { apply (ltb_real 0 y F0 Fy). rewrite V0, Ey. apply IZR_lt. lia. }
      assert (E2 : (y <=? m)%float = false).
      { apply (leb_real_false y m Fy Fm). rewrite Em, Ey. apply IZR_lt. lia. }
      assert (E3 : (m <? 0)%float = false).
      { apply (ltb_real_false m 0 Fm F0). rewrite V0, Em. apply IZR_le. lia. }
      rewrite E1, E2, E3. split; assumption.
Qed.

(** [Mod] on integers: for all doubles [x] and [y] whose values are integers
    [a] and [b] below [2^52] in magnitude, [Mod(x, y)] is the integer
    [a mod b] exactly, the floored modulo whose sign follows [b]; for
    [b = 0] that is [a]. *)
Theorem Mod_on_integers :
  forall (x y : double) (a b : Z),
    finite x -> finite y -> F2R x = IZR a -> F2R y = IZR b ->
    (Z.abs a < 2 ^ 52)%Z -> (Z.abs b < 2 ^ 52)%Z ->
    finite (Mod x y) /\ F2R (Mod x y) = IZR (a mod b) /\
    (b <> 0%Z -> F2R (Mod x y) = F2R x - IZR (a / b) * F2R y).
Proof.
  intros x y a b Fx Fy Ex Ey Ha Hb.
  destruct (Mod_integers x y a b Fx Fy Ex Ey Ha Hb) as [Fr Er].
  split; [exact Fr |]. split; [exact Er |].
  intros Hnz. rewrite Er, Ex, Ey, <- mult_IZR, <- minus_IZR. f_equal.
  pose proof (Z.div_mod a b Hnz). lia.
Qed.


Lemma integer_examples :
  F2R (-725)%float = IZR (-725) /\ F2R 360%float = IZR 360 /\
  F2R 540%float = IZR 540 /\ F2R (-180)%float = IZR (-180) /\
  F2R 180%float = IZR 180.
Proof.
  F2R_value (-725)%float V1. F2R_value 360%float V2. F2R_value 540%float V3.
  F2R_value (-180)%float V4. F2R_value 180%float V5.
  rewrite V1, V2, V3, V4, V5. repeat split; lra.
Qed.

Lemma Mod_on_integers_witness :
  F2R (Mod (-725) 360) = IZR 355.
Proof.
  refine (proj1 (proj2 (Mod_on_integers (-725) 360 (-725) 360 _ _ _ _ _ _))).
  - vm_compute. reflexivity.
  - vm_compute. reflexivity.
  - exact (proj1 integer_examples).
  - exact (proj1 (proj2 integer_examples)).
  - vm_compute. reflexivity.
  - vm_compute. reflexivity.
Defined.


End integer_arguments.

(** * Mod of the opposite arguments *)

Module Mod_symmetry.
Import real_value binary64_rounding norm_accuracy binary64_order binary64_shape.
Import ieee_facts.
Import floor_properties Mod_properties Mod_special_values.
Import cmath common.

Local Abbreviation prec := 53%Z (only parsing).
Local Abbreviation emax := 1024%Z (only parsing).

(** ** Rounding and the sign *)

Lemma binary_round_aux_opp s m e l :
  binary_round_aux prec emax (negb s) m e l = SFopp (binary_round_aux prec emax s m e l).
Proof.
  unfold binary_round_aux.
  destruct (shr_fexp prec emax m e l) as [r1 e1].
  destruct (shr_fexp prec emax (round_nearest_even (shr_m r1) (loc_of_shr_record r1))
              e1 loc_Exact) as [r2 e2].
  destruct (shr_m r2); [reflexivity | | reflexivity].
  destruct (e2 <=? 1024 - 53)%Z; reflexivity.
Qed.

Lemma binary_round_opp s m e :
  binary_round prec emax (negb s) m e = SFopp (binary_round prec emax s m e).
Proof.
  unfold binary_round.
  destruct (shl_align m e (fexp prec emax (Zpos (digits2_pos m) + e))) as [mz ez].
  apply binary_round_aux_opp.
Qed.

Lemma binary_normalize_opp m e :
  same_number (binary_normalize prec emax (- m) e false)
    (SFopp (binary_normalize prec emax m e false)).
Proof.
  destruct m as [| p | p]; cbn [Z.opp binary_normalize].
  - right. exists false, true. split; reflexivity.
  - left. exact (binary_round_opp false p e).
  - left. exact (binary_round_opp true p e).
Qed.

Lemma cond_Zopp_negb s m : cond_Zopp (negb s) m = (- cond_Zopp s m)%Z.
Proof. destruct s; cbn [negb cond_Zopp]; lia. Qed.

(** ** The operations on mirrored arguments *)

Lemma same_number_refl a : same_number a a.
Proof. left. reflexivity. Qed.

Lemma same_number_zeros s s' : same_number (S754_zero s) (S754_zero s').
Proof. right. exists s, s'. split; reflexivity. Qed.

Lemma SFdiv_opp_opp a b :
  SFdiv prec emax (SFopp a) (SFopp b) = SFdiv prec emax a b.
Proof.
  destruct a as [sa | sa | | sa ma ea], b as [sb | sb | | sb mb eb];
    cbn [SFopp SFdiv]; try reflexivity;
    replace (xorb (negb sa) (negb sb)) with (xorb sa sb) by (destruct sa, sb; reflexivity);
    reflexivity.
Qed.

Lemma SFmul_opp_l a b :
  SFmul prec emax (SFopp a) b = SFopp (SFmul prec emax a b).
Proof.
  destruct a as [sa | sa | | sa ma ea], b as [sb | sb | | sb mb eb];
    cbn [SFopp SFmul]; try reflexivity;
    replace (xorb (negb sa) sb) with (negb (xorb sa sb)) by (destruct sa, sb; reflexivity);
    try reflexivity.
  apply binary_round_aux_opp.
Qed.

Lemma SFsub_opp_opp a b :
  same_number (SFsub prec emax (SFopp a) (SFopp b)) (SFopp (SFsub prec emax a b)).
Proof.
  destruct a as [sa | sa | | sa ma ea], b as [sb | sb | | sb mb eb];
    cbn [SFopp SFsub]; try apply same_number_refl.
  - destruct sa, sb; apply same_number_zeros.
  - destruct sa, sb; apply same_number_refl.
  - rewrite !cond_Zopp_negb.
    replace (- cond_Zopp sa (Zpos (fst (shl_align ma ea (Z.min ea eb))))
             - - cond_Zopp sb (Zpos (fst (shl_align mb eb (Z.min ea eb)))))%Z
      with (- (cond_Zopp sa (Zpos (fst (shl_align ma ea (Z.min ea eb))))
               - cond_Zopp sb (Zpos (fst (shl_align mb eb (Z.min ea eb))))))%Z by lia.
    apply binary_normalize_opp.
Qed.

Lemma SFadd_opp_opp a b :
  same_number (SFadd prec emax (SFopp a) (SFopp b)) (SFopp (SFadd prec emax a b)).
Proof.
  destruct a as [sa | sa | | sa ma ea], b as [sb | sb | | sb mb eb];
    cbn [SFopp SFadd]; try apply same_number_refl.
  - destruct sa, sb; apply same_number_zeros.
  - destruct sa, sb; apply same_number_refl.
  - rewrite !cond_Zopp_negb.
    replace (- cond_Zopp sa (Zpos (fst (shl_align ma ea (Z.min ea eb))))
             + - cond_Zopp sb (Zpos (fst (shl_align mb eb (Z.min ea eb)))))%Z
      with (- (cond_Zopp sa (Zpos (fst (shl_align ma ea (Z.min ea eb))))
               + cond_Zopp sb (Zpos (fst (shl_align mb eb (Z.min ea eb))))))%Z by lia.
    apply binary_normalize_opp.
Qed.

(** The sign of a zero does not matter to a sum or a difference, up to the
    sign of a zero result. *)
Lemma SFadd_same a a' b b' :
  same_number a a' -> same_number b b' ->
  same_number (SFadd prec emax a b) (SFadd prec emax a' b').
Proof.
  intros [-> | (s1 & s1' & -> & ->)] [-> | (s2 & s2' & -> & ->)];
    try apply same_number_refl.
  - destruct a' as [sa | sa | | sa ma ea]; cbn [SFadd]; try apply same_number_refl.
    destruct sa, s2, s2'; apply same_number_zeros.
  - destruct b' as [sb | sb | | sb mb eb]; cbn [SFadd]; try apply same_number_refl.
    destruct s1, s1', sb; apply same_number_zeros.
  - cbn [SFadd]. destruct s1, s1', s2, s2'; apply same_number_zeros.
Qed.

Lemma SFsub_same a a' b b' :
  same_number a a' -> same_number b b' ->
  same_number (SFsub prec emax a b) (SFsub prec emax a' b').
Proof.
  intros [-> | (s1 & s1' & -> & ->)] [-> | (s2 & s2' & -> & ->)];
    try apply same_number_refl.
  - destruct a' as [sa | sa | | sa ma ea]; cbn [SFsub]; try apply same_number_refl.
    destruct sa, s2, s2'; apply same_number_zeros.
  - destruct b' as [sb | sb | | sb mb eb]; cbn [SFsub]; try apply same_number_refl.
    destruct s1, s1', sb; apply same_number_zeros.
  - cbn [SFsub]. destruct s1, s1', s2, s2'; apply same_number_zeros.
Qed.

Lemma same_number_trans a b c :
  same_number a b -> same_number b c -> same_number a c.
Proof.
  intros [-> | (s1 & s1' & -> & ->)] [<- | (s2 & s2' & E & ->)];
    try apply same_number_refl; try apply same_number_zeros.
  rewrite E. apply same_number_zeros.
Qed.

Lemma same_number_opp a b : same_number a b -> same_number (SFopp a) (SFopp b).
Proof.
  intros [-> | (s & s' & -> & ->)]; [apply same_number_refl | apply same_number_zeros].
Qed.

(** ** Comparisons *)

Lemma SFcompare_same a a' b b' :
  same_number a a' -> same_number b b' -> SFcompare a b = SFcompare a' b'.
Proof.
  intros [-> | (s1 & s1' & -> & ->)] [-> | (s2 & s2' & -> & ->)]; reflexivity.
Qed.

Lemma SFcompare_opp a b : SFcompare (SFopp a) (SFopp b) = SFcompare b a.
Proof.
  destruct a as [sa | sa | | sa ma ea], b as [sb | sb | | sb mb eb];
    cbn [SFopp SFcompare]; try reflexivity;
    try (destruct sa; reflexivity); try (destruct sb; reflexivity);
    try (destruct sa, sb; reflexivity).
  f_equal. rewrite (Z.compare_antisym ea eb).
  change (Pos.compare_cont Eq ma mb) with (Pos.compare ma mb).
  change (Pos.compare_cont Eq mb ma) with (Pos.compare mb ma).
  rewrite (Pos.compare_antisym ma mb).
  destruct sa, sb; cbn [negb]; try reflexivity;
    destruct (ea ?= eb)%Z; cbn [CompOpp]; try reflexivity;
    destruct (ma ?= mb)%positive; reflexivity.
Qed.

Lemma SFcompare_mirror a' a b' b :
  same_number a' (SFopp a) -> same_number b' (SFopp b) ->
  SFcompare a' b' = SFcompare b a.
Proof.
  intros Ha Hb. rewrite (SFcompare_same _ _ _ _ Ha Hb). apply SFcompare_opp.
Qed.

Lemma mirrored_leb (a' a b' b : double) :
  mirrored a' a -> mirrored b' b -> (a' <=? b')%float = (b <=? a)%float.
Proof.
  intros Ha Hb. rewrite !FloatAxioms.leb_spec. unfold SFleb.
  rewrite (SFcompare_mirror _ _ _ _ Ha Hb). reflexivity.
Qed.

Lemma mirrored_ltb (a' a b' b : double) :
  mirrored a' a -> mirrored b' b -> (a' <? b')%float = (b <? a)%float.
Proof.
  intros Ha Hb. rewrite !FloatAxioms.ltb_spec. unfold SFltb.
  rewrite (SFcompare_mirror _ _ _ _ Ha Hb). reflexivity.
Qed.

Lemma mirrored_eqb (a' a b' b : double) :
  mirrored a' a -> mirrored b' b -> (a' =? b')%float = (a =? b)%float.
Proof.
  intros Ha Hb. rewrite (eqb_sym a b), !FloatAxioms.eqb_spec. unfold SFeqb.
  rewrite (SFcompare_mirror _ _ _ _ Ha Hb). reflexivity.
Qed.

(** ** Mirrored doubles *)

Lemma mirrored_opp (a : double) : mirrored (- a) a.
Proof. unfold mirrored. rewrite FloatAxioms.opp_spec. apply same_number_refl. Qed.

Lemma mirrored_zero : mirrored 0 0.
Proof.
  unfold mirrored.
  replace (Prim2SF 0%float) with (S754_zero false) by (vm_compute; reflexivity).
  apply same_number_zeros.
Qed.

Lemma mirrored_add (a' a b' b : double) :
  mirrored a' a -> mirrored b' b -> mirrored (a' + b') (a + b).
Proof.
  unfold mirrored. intros Ha Hb. rewrite !FloatAxioms.add_spec. unfold SF64add.
  eapply same_number_trans; [apply SFadd_same; eassumption |].
  apply SFadd_opp_opp.
Qed.

Lemma mirrored_sub (a' a b' b : double) :
  mirrored a' a -> mirrored b' b -> mirrored (a' - b') (a - b).
Proof.
  unfold mirrored. intros Ha Hb. rewrite !FloatAxioms.sub_spec. unfold SF64sub.
  eapply same_number_trans; [apply SFsub_same; eassumption |].
  apply SFsub_opp_opp.
Qed.

Lemma mirrored_mul_opp (y f : double) : mirrored (- y * f) (y * f).
Proof.
  unfold mirrored. rewrite !FloatAxioms.mul_spec, FloatAxioms.opp_spec. unfold SF64mul.
  rewrite SFmul_opp_l. apply same_number_refl.
Qed.

Lemma div_opp_opp (x y : double) : (- x / - y)%float = (x / y)%float.
Proof.
  apply Prim2SF_inj. rewrite !FloatAxioms.div_spec, !FloatAxioms.opp_spec.
  unfold SF64div. apply SFdiv_opp_opp.
Qed.

Lemma mirrored_eqb_true (a' a : double) :
  mirrored a' a -> is_nan a = false -> (a' =? - a)%float = true.
Proof.
  unfold mirrored. intros Hm Hn.
  rewrite FloatAxioms.eqb_spec, FloatAxioms.opp_spec. unfold SFeqb.
  rewrite (SFcompare_same _ _ _ _ Hm (same_number_refl _)).
  rewrite SFcompare_refl; [reflexivity |].
  intros E. destruct (Prim2SF a) as [s | s | | s m e] eqn:Ea; try discriminate.
  rewrite (is_nan_true a Ea) in Hn. discriminate.
Qed.

(** A double that is neither zero, nor above, nor below zero is a NaN. *)
Lemma unordered_nan (y : double) :
  (y =? 0)%float = false -> (0 <? y)%float = false -> (y <? 0)%float = false ->
  Prim2SF y = S754_nan.
Proof.
  rewrite FloatAxioms.eqb_spec, !FloatAxioms.ltb_spec.
  replace (Prim2SF 0%float) with (S754_zero false) by (vm_compute; reflexivity).
  unfold SFeqb, SFltb.
  destruct (Prim2SF y) as [s | s | | s k e]; cbn [SFcompare];
    try discriminate; try reflexivity; destruct s; discriminate.
Qed.

(** [Mod] of the mirrored arguments is the mirrored result. *)
Lemma Mod_mirrored (x y : double) : mirrored (Mod (- x) (- y)) (Mod x y).
Proof.
  unfold Mod.
  pose proof mirrored_zero as M0.
  pose proof (mirrored_opp x) as Mx. pose proof (mirrored_opp y) as My.
  rewrite (mirrored_eqb (- y) y 0 0 My M0).
  destruct (y =? 0)%float eqn:E0; [exact Mx |].
  cbv zeta. rewrite div_opp_opp.
  pose proof (mirrored_sub _ _ _ _ Mx (mirrored_mul_opp y (floor (x / y)))) as Mm.
  set (m := (x - y * floor (x / y))%float) in *.
  set (m' := (- x - - y * floor (x / y))%float) in *.
  pose proof (mirrored_add _ _ _ _ My Mm) as Ms.
  rewrite (mirrored_ltb 0 0 (- y) y M0 My).
  rewrite (mirrored_leb m' m (- y) y Mm My).
  rewrite (mirrored_ltb 0 0 m' m M0 Mm).
  rewrite (mirrored_leb (- y) y m' m My Mm).
  rewrite (mirrored_ltb m' m 0 0 Mm M0).
  rewrite (mirrored_eqb _ _ _ _ Ms My).
  destruct (0 <? y)%float eqn:E1; destruct (y <? 0)%float eqn:E2.
  - exfalso. revert E1 E2. rewrite !FloatAxioms.ltb_spec.
    replace (Prim2SF 0%float) with (S754_zero false) by (vm_compute; reflexivity).
    unfold SFltb. destruct (Prim2SF y) as [s | s | | s k e]; cbn [SFcompare];
      try discriminate; destruct s; discriminate.
  - destruct (y <=? m)%float; [exact M0 |].
    destruct (m <? 0)%float; [| exact Mm].
    destruct (y + m =? y)%float; [exact M0 | exact Ms].
  - destruct (m <=? y)%float; [exact M0 |].
    destruct (0 <? m)%float; [| exact Mm].
    destruct (y + m =? y)%float; [exact M0 | exact Ms].
  - (* neither sign: the modulus is a NaN, and so is the residual *)
    pose proof (unordered_nan y E0 E1 E2) as Ey.
    assert (Em : Prim2SF m = S754_nan).
    { unfold m. rewrite FloatAxioms.sub_spec, FloatAxioms.mul_spec, Ey.
      unfold SF64sub, SF64mul. cbn [SFmul].
      destruct (Prim2SF x) as [s | s | | s k e]; reflexivity. }
    destruct (nan_compares_false m y Em) as (H1 & H2 & _ & _).
    destruct (nan_compares_false m 0%float Em) as (_ & _ & H3 & H4).
    rewrite H1, H2, H3, H4. exact Mm.
Qed.

(** [Mod] is odd in both arguments together: for all numbers [x] and [y],
    zero included, [Mod(-x, -y)] compares equal to [-Mod(x, y)]; the
    branch for a negative modulus mirrors the branch for a positive one. *)
Theorem Mod_of_opposites :
  forall x y : double,
    finite x -> finite y ->
    (Mod (- x) (- y) =? - Mod x y)%float = true.
Proof.
  intros x y Fx Fy.
  apply mirrored_eqb_true; [apply Mod_mirrored |].
  apply Mod_not_nan; assumption.
Qed.

Lemma Mod_of_opposites_witness :
  let x := (-725)%float in
  let y := 360%float in
  (Mod (- x) (- y) =? - Mod x y)%float = true.
Proof.
  exact (Mod_of_opposites (-725) 360 ltac:(vm_compute; reflexivity)
           ltac:(vm_compute; reflexivity)).
Defined.

End Mod_symmetry.

(** * Properties of the quaternion classes *)

Module quaternion_properties.
Import ieee_facts real_value binary64_rounding norm_accuracy.

(** ** The assertion *)

Section assertion.
Context {PrimType : Type} `{Scalar PrimType}.

Lemma assert_unit_length_disabled (this : UnitQuaternion PrimType) :
  assert_unit_length false this = Returns tt.
Proof. reflexivity. Qed.

Lemma assert_unit_length_passes (this : UnitQuaternion PrimType) :
  unit_within_tolerance (UnitQuaternion_toImplementation this) = true ->
  assert_unit_length true this = Returns tt.
Proof.
  unfold assert_unit_length, RM_ASSERT_SCALAR_NEAR_DBG, unit_within_tolerance,
    UnitQuaternion_norm, Quaternion_norm, UnitQuaternion_toImplementation.
  intros ->. reflexivity.
Qed.

Lemma assert_unit_length_fires (this : UnitQuaternion PrimType) :
  unit_within_tolerance (UnitQuaternion_toImplementation this) = false ->
  assert_unit_length true this = Throws not_unit_length.
Proof.
  unfold assert_unit_length, RM_ASSERT_SCALAR_NEAR_DBG, unit_within_tolerance,
    UnitQuaternion_norm, Quaternion_norm, UnitQuaternion_toImplementation.
  intros ->. reflexivity.
Qed.

(** With checks the assertion returns exactly on the values within the
    tolerance. *)
Lemma assert_unit_length_returns (this : UnitQuaternion PrimType) :
  assert_unit_length true this = Returns tt <->
  unit_within_tolerance (UnitQuaternion_toImplementation this) = true.
Proof.
  split; [| apply assert_unit_length_passes].
  destruct (unit_within_tolerance (UnitQuaternion_toImplementation this)) eqn:E;
    [reflexivity |].
  rewrite (assert_unit_length_fires this E). discriminate.
Qed.

(** A validating constructor either returns the object it has built or
    throws; it returns no other object. *)
Lemma validated_returns checks (this u : UnitQuaternion PrimType) :
  (assert_unit_length checks this ;; Returns this)%completion = Returns u ->
  u = this /\ assert_unit_length checks this = Returns tt.
Proof.
  unfold completion_bind.
  destruct (assert_unit_length checks this) as [[] | what]; intro E.
  - injection E as <-. split; reflexivity.
  - discriminate E.
Qed.

Lemma validated_passes checks (this : UnitQuaternion PrimType) :
  assert_unit_length checks this = Returns tt ->
  (assert_unit_length checks this ;; Returns this)%completion = Returns this.
Proof. intros ->. reflexivity. Qed.

Lemma validated_throws checks (this : UnitQuaternion PrimType) what :
  assert_unit_length checks this = Throws what ->
  (assert_unit_length checks this ;; Returns this)%completion = Throws what.
Proof. intros ->. reflexivity. Qed.

(** The three validating constructors accept what passes the comparison. *)
Lemma ctors_accept (w x y z : PrimType) :
  unit_within_tolerance (Eigen.Build w x y z) = true ->
  UnitQuaternion_ctor true w x y z
    = Returns (UnitQuaternion_of_uq (Quaternion_ctor w x y z)) /\
  UnitQuaternion_ctor_Base true (Quaternion_ctor w x y z)
    = Returns (UnitQuaternion_of_uq (Quaternion_ctor w x y z)) /\
  UnitQuaternion_ctor_Implementation true (Eigen.Build w x y z)
    = Returns (UnitQuaternion_of_uq (Quaternion_ctor w x y z)).
Proof.
  intros Hunit.
  assert (Hok : assert_unit_length true
                  (UnitQuaternion_of_uq (Quaternion_ctor w x y z)) = Returns tt)
    by (apply assert_unit_length_passes; exact Hunit).
  repeat split;
    exact (validated_passes true
             (UnitQuaternion_of_uq (Quaternion_ctor w x y z)) Hok).
Qed.

(** And they refuse what does not. *)
Lemma ctors_refuse (w x y z : PrimType) :
  unit_within_tolerance (Eigen.Build w x y z) = false ->
  UnitQuaternion_ctor true w x y z = Throws not_unit_length /\
  UnitQuaternion_ctor_Base true (Quaternion_ctor w x y z) = Throws not_unit_length /\
  UnitQuaternion_ctor_Implementation true (Eigen.Build w x y z)
    = Throws not_unit_length.
Proof.
  intros Hunit.
  assert (Hno : assert_unit_length true
                  (UnitQuaternion_of_uq (Quaternion_ctor w x y z))
                = Throws not_unit_length)
    by (apply assert_unit_length_fires; exact Hunit).
  repeat split;
    exact (validated_throws true
             (UnitQuaternion_of_uq (Quaternion_ctor w x y z)) _ Hno).
Qed.

End assertion.

(** ** Quaternion::operator = *)

Section assignment.
Context {PrimType : Type}.

(** No bound on the depth of the calls lets [Quaternion::operator =]
    return. *)
Lemma Quaternion_assign_out_of_fuel (fuel : nat) (this other : Quaternion PrimType) :
  Quaternion_assign fuel this other = None.
Proof.
  induction fuel as [| fuel IH]; simpl; [reflexivity |].
  rewrite IH. reflexivity.
Qed.

End assignment.

(** C5: the assignment operators of [Quaternion] do not terminate.  For
    every target and every source of the same precision, a [Quaternion] or a
    [UnitQuaternion], and for every bound on the depth of the calls, the call
    has not returned when the bound is reached: the body of
    [operator =(const Quaternion&)] starts with the assignment it defines,
    and [operator =(const UnitQuaternion&)] calls that operator. So the
    target never receives the coefficients of the source. *)
Theorem Quaternion_assign_never_returns :
  forall (PrimType : Type) (fuel : nat) (this : Quaternion PrimType),
    (forall other : Quaternion PrimType,
        Quaternion_assign fuel this other = None) /\
    (forall other : UnitQuaternion PrimType,
        Quaternion_assign_UnitQuaternion fuel this other = None).
Proof.
  intros PrimType fuel this. split; intro other.
  - apply Quaternion_assign_out_of_fuel.
  - unfold Quaternion_assign_UnitQuaternion.
    rewrite Quaternion_assign_out_of_fuel. reflexivity.
Qed.

(** ** The validating constructors *)

(** C1, as the code has it: with the checks enabled, each of the three
    validating constructors of [UnitQuaternion] (from the four coefficients,
    from a [Quaternion] holding them and from an implementation value
    holding them) returns the object built from the inputs when the norm
    that [norm()] computes in the scalar type compares within [1e-6] of [1]
    in that type, and throws the invariant-violation assertion when it does
    not.  In double precision the constructors therefore accept every
    quadruple of numbers whose Euclidean norm is within [1e-6 - 1e-14] of
    [1], the [1e-14] being left to the rounding of [norm()], and with them
    every quadruple of the spec's form [w^2 + x^2 + y^2 + z^2 == 1 +- 1e-6].
    The quadruple [(2,0,0,0)], of norm [2], makes each of the constructors
    throw, in double and in single precision. *)
Theorem UnitQuaternion_ctor_validates :
  (forall (PrimType : Type) (ops : Scalar PrimType) (w x y z : PrimType),
      let outcome : completion (UnitQuaternion PrimType) :=
        if unit_within_tolerance (Eigen.Build w x y z)
        then Returns (UnitQuaternion_of_uq (Quaternion_ctor w x y z))
        else Throws not_unit_length in
      UnitQuaternion_ctor true w x y z = outcome /\
      UnitQuaternion_ctor_Base true (Quaternion_ctor w x y z) = outcome /\
      UnitQuaternion_ctor_Implementation true (Eigen.Build w x y z) = outcome) /\
  (forall w x y z : double,
      finite w -> finite x -> finite y -> finite z ->
      (Rabs (exact_norm (Eigen.Build w x y z) - 1)
       <= / 1000000 - / 100000000000000)%R ->
      UnitQuaternion_ctor true w x y z
        = Returns (UnitQuaternion_of_uq (Quaternion_ctor w x y z)) /\
      UnitQuaternion_ctor_Base true (Quaternion_ctor w x y z)
        = Returns (UnitQuaternion_of_uq (Quaternion_ctor w x y z)) /\
      UnitQuaternion_ctor_Implementation true (Eigen.Build w x y z)
        = Returns (UnitQuaternion_of_uq (Quaternion_ctor w x y z))) /\
  (forall w x y z : double,
      finite w -> finite x -> finite y -> finite z ->
      (Rabs (sumsq w x y z - 1) <= / 1000000)%R ->
      UnitQuaternion_ctor true w x y z
        = Returns (UnitQuaternion_of_uq (Quaternion_ctor w x y z)) /\
      UnitQuaternion_ctor_Base true (Quaternion_ctor w x y z)
        = Returns (UnitQuaternion_of_uq (Quaternion_ctor w x y z)) /\
      UnitQuaternion_ctor_Implementation true (Eigen.Build w x y z)
        = Returns (UnitQuaternion_of_uq (Quaternion_ctor w x y z))) /\
  (let two : double := 2 in let zero : double := 0 in
   Eigen.norm (Eigen.Build two zero zero zero) = 2 /\
   UnitQuaternion_ctor true two zero zero zero = Throws not_unit_length /\
   UnitQuaternion_ctor_Base true (Quaternion_ctor two zero zero zero)
     = Throws not_unit_length /\
   UnitQuaternion_ctor_Implementation true (Eigen.Build two zero zero zero)
     = Throws not_unit_length) /\
  (let two : float32 := constant 2 in let zero : float32 := constant 0 in
   Eigen.norm (Eigen.Build two zero zero zero) = two /\
   UnitQuaternion_ctor true two zero zero zero = Throws not_unit_length /\
   UnitQuaternion_ctor_Base true (Quaternion_ctor two zero zero zero)
     = Throws not_unit_length /\
   UnitQuaternion_ctor_Implementation true (Eigen.Build two zero zero zero)
     = Throws not_unit_length).
Proof.
  split; [| split; [| split; [| split]]].
  - intros PrimType ops w x y z outcome. subst outcome.
    destruct (unit_within_tolerance (Eigen.Build w x y z)) eqn:Hunit.
    + apply ctors_accept. exact Hunit.
    + apply ctors_refuse. exact Hunit.
  - intros w x y z Fw Fx Fy Fz HN. apply ctors_accept.
    apply unit_within_tolerance_exact; [repeat split; assumption | exact HN].
  - intros w x y z Fw Fx Fy Fz HS. apply ctors_accept.
    apply unit_within_tolerance_squares; assumption.
  - vm_compute. repeat split.
  - vm_compute. repeat split.
Qed.

(** Witness of C1: the quadruple [(0.5, 0.5, 0.5, 0.5)], whose Euclidean
    norm is [1], and the quadruple [(0.6, 0.8, 0, 0)], the sum of whose
    squares differs from [1] by less than [1e-16]. *)
Lemma UnitQuaternion_ctor_validates_witness :
  ((let halves : Eigen.Quaternion double := Eigen.Build 0.5 0.5 0.5 0.5 in
    (Rabs (exact_norm halves - 1) <= / 1000000 - / 100000000000000)%R) /\
   UnitQuaternion_ctor true (0.5 : double) 0.5 0.5 0.5
     = Returns (UnitQuaternion_of_uq (Quaternion_ctor 0.5 0.5 0.5 0.5))) /\
  ((Rabs (sumsq 0.6 0.8 0 0 - 1) <= / 1000000)%R /\
   UnitQuaternion_ctor true (0.6 : double) 0.8 0 0
     = Returns (UnitQuaternion_of_uq (Quaternion_ctor 0.6 0.8 0 0))).
Proof.
  cbv zeta. split; split.
  - exact exact_norm_halves_unit.
  - apply (proj1 (proj2 UnitQuaternion_ctor_validates) 0.5 0.5 0.5 0.5);
      try (vm_compute; reflexivity).
    exact exact_norm_halves_unit.
  - exact sumsq_345_unit.
  - apply (proj1 (proj2 (proj2 UnitQuaternion_ctor_validates)) 0.6 0.8 0 0);
      try (vm_compute; reflexivity).
    exact sumsq_345_unit.
Defined.

(** Counterexample to C1 as the spec states it: two quadruples whose
    Euclidean norm is within [1e-6] of [1] and which the three constructors
    refuse.  In double precision [(0.017, 0.9998564897028973, 0, 0)]: its
    Euclidean norm is short of [1 + 1e-6] by less than [4e-18], and the norm
    the code computes for it is [1.0000010000000001].  In single precision
    [(0.9947061538696289, 0.10275071859359741, 0, 0)]: its Euclidean norm
    is above [0.999999], and the norm the code computes for it is
    [0.9999989867210388], the seventeenth single-precision value below
    [1]. *)
Lemma UnitQuaternion_ctor_refuses_unit_norm :
  (let w : double := 0.017 in
   let x : double := 0.9998564897028973 in
   let q : Eigen.Quaternion double := Eigen.Build w x 0 0 in
   finite_coefficients q /\
   (Rabs (exact_norm q - 1) <= / 1000000)%R /\
   Eigen.norm q = 1.0000010000000001 /\
   UnitQuaternion_ctor true w x 0 0 = Throws not_unit_length /\
   UnitQuaternion_ctor_Base true (Quaternion_ctor w x 0 0) = Throws not_unit_length /\
   UnitQuaternion_ctor_Implementation true q = Throws not_unit_length) /\
  (let w : float32 := constant 0.9947061538696289 in
   let x : float32 := constant 0.10275071859359741 in
   let zero : float32 := constant 0 in
   let q : Eigen.Quaternion float32 := Eigen.Build w x zero zero in
   (Rabs (exact_norm_float32 q - 1) <= / 1000000)%R /\
   Eigen.norm q = constant 0.9999989867210388 /\
   UnitQuaternion_ctor true w x zero zero = Throws not_unit_length /\
   UnitQuaternion_ctor_Base true (Quaternion_ctor w x zero zero)
     = Throws not_unit_length /\
   UnitQuaternion_ctor_Implementation true q = Throws not_unit_length).
Proof.
  cbv zeta. split.
  - split; [repeat split; vm_compute; reflexivity |].
    split; [| vm_compute; repeat split].
    unfold exact_norm, sumsq. cbn [Eigen.w Eigen.x Eigen.y Eigen.z].
    F2R_value 0.017 Vw. F2R_value 0.9998564897028973 Vx.
    rewrite Vw, Vx, F2R_zero.
    match goal with
    | |- (Rabs (R_sqrt.sqrt ?S - 1) <= _)%R =>
        assert (Hlow : (1 <= R_sqrt.sqrt S)%R) by (apply sqrt_ge; lra);
        assert (Hhigh : (R_sqrt.sqrt S <= 1 + / 1000000)%R) by (apply sqrt_le'; lra)
    end.
    apply Rabs_bound. lra.
  - split; [| vm_compute; repeat split].
    unfold exact_norm_float32. cbn [Eigen.w Eigen.x Eigen.y Eigen.z].
    SF2R_value (constant 0.9947061538696289 : float32) Vw.
    SF2R_value (constant 0.10275071859359741 : float32) Vx.
    rewrite Vw, Vx.
    replace (SF2R (constant 0 : float32)) with 0%R by reflexivity.
    match goal with
    | |- (Rabs (R_sqrt.sqrt ?S - 1) <= _)%R =>
        assert (Hlow : (1 - / 1000000 <= R_sqrt.sqrt S)%R) by (apply sqrt_ge; lra);
        assert (Hhigh : (R_sqrt.sqrt S <= 1)%R) by (apply sqrt_le'; lra)
    end.
    apply Rabs_bound. lra.
Qed.

(** Quadruples of the spec's form [w^2 + x^2 + y^2 + z^2 == 1 +- 1e-6] are
    accepted, in both precisions; one just outside is refused. *)
Example UnitQuaternion_ctor_examples :
  (exists u, UnitQuaternion_ctor true (1 : double) 0 0 0 = Returns u) /\
  (exists u, UnitQuaternion_ctor true (0.5 : double) 0.5 0.5 0.5 = Returns u) /\
  (exists u, UnitQuaternion_ctor true (1.0000004 : double) 0 0 0 = Returns u) /\
  (exists u, UnitQuaternion_ctor true (0.9999996 : double) 0 0 0 = Returns u) /\
  (exists u, UnitQuaternion_ctor true
               (constant 0.6 : float32) (constant 0.8) (constant 0) (constant 0)
             = Returns u) /\
  UnitQuaternion_ctor true (1.000002 : double) 0 0 0 = Throws not_unit_length.
Proof. vm_compute. repeat split; eexists; reflexivity. Qed.

(** C10: the validating constructors store what they are given.  Whenever
    one of them returns, with or without checks, the coefficients of the new
    object are the inputs themselves: nothing is renormalized.  The stored
    norm can therefore differ from [1]: [(1.0000005, 0, 0, 0)] is accepted
    with the checks enabled and keeps the norm [1.0000005]. *)
Theorem UnitQuaternion_ctor_stores_input :
  (forall (PrimType : Type) (ops : Scalar PrimType) (checks : bool)
          (u : UnitQuaternion PrimType),
      (forall w x y z : PrimType,
          UnitQuaternion_ctor checks w x y z = Returns u ->
          UnitQuaternion_w u = w /\ UnitQuaternion_x u = x /\
          UnitQuaternion_y u = y /\ UnitQuaternion_z u = z) /\
      (forall other : Quaternion PrimType,
          UnitQuaternion_ctor_Base checks other = Returns u ->
          UnitQuaternion_w u = Quaternion_w other /\
          UnitQuaternion_x u = Quaternion_x other /\
          UnitQuaternion_y u = Quaternion_y other /\
          UnitQuaternion_z u = Quaternion_z other) /\
      (forall other : Eigen.Quaternion PrimType,
          UnitQuaternion_ctor_Implementation checks other = Returns u ->
          UnitQuaternion_w u = Eigen.w other /\
          UnitQuaternion_x u = Eigen.x other /\
          UnitQuaternion_y u = Eigen.y other /\
          UnitQuaternion_z u = Eigen.z other)) /\
  (exists u : UnitQuaternion double,
      UnitQuaternion_ctor true 1.0000005 0 0 0 = Returns u /\
      UnitQuaternion_norm u = 1.0000005 /\
      (UnitQuaternion_norm u =? 1) = false).
Proof.
  split.
  - intros PrimType ops checks u. repeat apply conj.
    all: intros; match goal with
         | E : _ = Returns _ |- _ =>
             apply validated_returns in E; destruct E as [-> _]
         end; repeat split.
  - eexists. vm_compute. repeat split.
Qed.

(** Witness of C10: the accepted quadruple [(0.6, 0.8, 0, 0)]. *)
Lemma UnitQuaternion_ctor_stores_input_witness :
  let u : UnitQuaternion double := UnitQuaternion_of_uq (Quaternion_ctor 0.6 0.8 0 0) in
  UnitQuaternion_ctor true 0.6 0.8 0 0 = Returns u /\
  (UnitQuaternion_w u = 0.6 /\ UnitQuaternion_x u = 0.8 /\
   UnitQuaternion_y u = 0 /\ UnitQuaternion_z u = 0).
Proof.
  assert (E : UnitQuaternion_ctor true (0.6 : double) 0.8 0 0
              = Returns (UnitQuaternion_of_uq (Quaternion_ctor 0.6 0.8 0 0)))
    by (vm_compute; reflexivity).
  split; [exact E |].
  exact (proj1 (proj1 UnitQuaternion_ctor_stores_input double _ true _) _ _ _ _ E).
Defined.

(** ** UnitQuaternion::operator () from a Quaternion *)

Section call.
Context {PrimType : Type} `{Scalar PrimType}.

(** With source and target of one precision the casts are the identity: the
    four writes leave the source in [uq], and the assertion is evaluated on
    the result. *)
Lemma UnitQuaternion_call_Quaternion_same
    (checks : bool) (other : Quaternion PrimType) (this : UnitQuaternion PrimType) :
  UnitQuaternion_call_Quaternion checks (H0 := StaticCast_same PrimType) other this
  = (UnitQuaternion_of_uq other,
     assert_unit_length checks (UnitQuaternion_of_uq other)).
Proof.
  destruct other as [[w x y z]], this as [[[w0 x0 y0 z0]]]. reflexivity.
Qed.

End call.

(** C3, as the code has it: the element-wise [operator ()] taking a
    [Quaternion] of the target's precision copies the four coefficients
    into the target and then asserts on the norm.  Without checks it always
    returns, whatever the norm; with checks it returns when the norm of the
    copied coefficients is within [1e-6] of [1] and throws the
    invariant-violation assertion otherwise, the coefficients having been
    written already. *)
Theorem UnitQuaternion_call_Quaternion_validates :
  forall (PrimType : Type) (ops : Scalar PrimType) (checks : bool)
         (other : Quaternion PrimType) (this : UnitQuaternion PrimType),
    let after :=
      UnitQuaternion_call_Quaternion checks (H0 := StaticCast_same PrimType)
        other this in
    uq (fst after) = other /\
    (checks = false -> snd after = Returns tt) /\
    (checks = true ->
     unit_within_tolerance (Quaternion_toImplementation other) = true ->
     snd after = Returns tt) /\
    (checks = true ->
     unit_within_tolerance (Quaternion_toImplementation other) = false ->
     snd after = Throws not_unit_length).
Proof.
  intros PrimType ops checks other this after. subst after.
  rewrite UnitQuaternion_call_Quaternion_same. cbn [fst snd uq].
  repeat split.
  - intros ->. apply assert_unit_length_disabled.
  - intros -> Hunit. apply assert_unit_length_passes. exact Hunit.
  - intros -> Hunit. apply assert_unit_length_fires. exact Hunit.
Qed.

(** Witness of C3: the source [(0.6, 0.8, 0, 0)] passes the assertion, the
    source [(2, 0, 0, 0)] is copied silently when the checks are disabled. *)
Lemma UnitQuaternion_call_Quaternion_validates_witness :
  snd (UnitQuaternion_call_Quaternion true (H0 := StaticCast_same double)
         (Quaternion_ctor 0.6 0.8 0 0) UnitQuaternion_default) = Returns tt /\
  snd (UnitQuaternion_call_Quaternion false (H0 := StaticCast_same double)
         (Quaternion_ctor 2 0 0 0) UnitQuaternion_default) = Returns tt.
Proof.
  split.
  - refine (proj1 (proj2 (proj2
             (UnitQuaternion_call_Quaternion_validates double _ true
                (Quaternion_ctor 0.6 0.8 0 0) UnitQuaternion_default))) _ _).
    + reflexivity.
    + vm_compute. reflexivity.
  - refine (proj1 (proj2
             (UnitQuaternion_call_Quaternion_validates double _ false
                (Quaternion_ctor 2 0 0 0) UnitQuaternion_default)) _).
    reflexivity.
Defined.

(** Counterexample to C3 as the spec states it: with the checks enabled,
    [operator ()] applied to the identity target and the source
    [Quaternion(2, 0, 0, 0)] throws the invariant-violation assertion; the
    target holds [(2, 0, 0, 0)] by then. *)
Lemma UnitQuaternion_call_Quaternion_asserts :
  UnitQuaternion_call_Quaternion true (H0 := StaticCast_same double)
    (Quaternion_ctor 2 0 0 0) UnitQuaternion_default
  = (UnitQuaternion_of_uq (Quaternion_ctor 2 0 0 0), Throws not_unit_length).
Proof. vm_compute. reflexivity. Qed.

(** ** UnitQuaternion::operator = *)

(** C4: the cross-precision assignment of a [UnitQuaternion] is to leave the
    target with the coefficients of the source in the target's precision,
    unit-norm within the tolerance; the code never completes it.  Whatever
    the member [cast] is that the body calls, for every target, every
    source and every bound on the depth of the calls, [operator =] does not
    return: when [cast] throws, the exception ends it with the target as it
    was, and when [cast] returns, the assignment to the member [uq] is
    [Quaternion::operator =], which calls itself.  In particular the
    identity in double precision, assigned to a single-precision target,
    never arrives: not with a [cast] that converts every coefficient with
    [static_cast], as the commented-out lines of the body do, and not with
    one that also checks the norm of the result in the target precision. *)
Theorem UnitQuaternion_assign_never_returns :
  (forall (PrimType PrimTypeIn : Type)
          (cast : UnitQuaternion PrimTypeIn ->
                  completion (Quaternion PrimType + UnitQuaternion PrimType))
          (fuel : nat) (this : UnitQuaternion PrimType)
          (other : UnitQuaternion PrimTypeIn),
      UnitQuaternion_assign cast fuel this other
      = match cast other with
        | Returns _ => None
        | Throws what => Some (this, Throws what)
        end /\
      forall this' : UnitQuaternion PrimType,
        UnitQuaternion_assign cast fuel this other <> Some (this', Returns tt)) /\
  (let converted (other : UnitQuaternion double) : Quaternion float32 :=
     Quaternion_ctor_Base (Eigen.cast (UnitQuaternion_toImplementation other)) in
   let unchecked (other : UnitQuaternion double)
         : completion (Quaternion float32 + UnitQuaternion float32) :=
     Returns (inl (converted other)) in
   let checked (other : UnitQuaternion double)
         : completion (Quaternion float32 + UnitQuaternion float32) :=
     (u <- UnitQuaternion_ctor_Base true (converted other) ;;
      Returns (inr u))%completion in
   let source : UnitQuaternion double := UnitQuaternion_default in
   let target : UnitQuaternion float32 := UnitQuaternion_default in
   forall fuel : nat,
     UnitQuaternion_assign unchecked fuel target source = None /\
     UnitQuaternion_assign checked fuel target source = None).
Proof.
  assert (Hgen : forall (PrimType PrimTypeIn : Type)
            (cast : UnitQuaternion PrimTypeIn ->
                    completion (Quaternion PrimType + UnitQuaternion PrimType))
            (fuel : nat) (this : UnitQuaternion PrimType)
            (other : UnitQuaternion PrimTypeIn),
            UnitQuaternion_assign cast fuel this other
            = match cast other with
              | Returns _ => None
              | Throws what => Some (this, Throws what)
              end).
  { intros PrimType PrimTypeIn cast fuel this other.
    unfold UnitQuaternion_assign, Quaternion_assign_UnitQuaternion.
    destruct (cast other) as [[q | u] | what];
      rewrite ?Quaternion_assign_out_of_fuel; reflexivity. }
  split.
  - intros PrimType PrimTypeIn cast fuel this other.
    split; [apply Hgen |].
    intros this'. rewrite Hgen. destruct (cast other); discriminate.
  - cbv zeta. intros fuel. rewrite !Hgen. split; reflexivity.
Qed.

(** ** The promotion Quaternion::toUnitQuaternion *)

Section promotion.
Context {PrimType : Type} `{Scalar PrimType}.

(** The round trip is the validating constructor applied to the
    coefficients normalized twice. *)
Lemma round_trip_unfold (checks : bool) (w x y z : PrimType) :
  let q := Eigen.normalized (Eigen.normalized (Eigen.Build w x y z)) in
  round_trip checks w x y z
  = (assert_unit_length checks (UnitQuaternion_of_uq (Quaternion_of_Base q)) ;;
     Returns q)%completion.
Proof.
  cbv zeta. unfold round_trip, Quaternion_toUnitQuaternion,
    UnitQuaternion_ctor_Implementation, completion_bind.
  cbn [Quaternion_normalized Quaternion_ctor Quaternion_ctor_Base
       Quaternion_toImplementation].
  destruct (assert_unit_length checks _); reflexivity.
Qed.

(** How the round trip completes: it returns the twice-normalized
    coefficients when they pass the comparison, and throws otherwise. *)
Lemma round_trip_checked (w x y z : PrimType) :
  let q := Eigen.normalized (Eigen.normalized (Eigen.Build w x y z)) in
  (forall r, round_trip true w x y z = Returns r ->
             r = q /\ unit_within_tolerance r = true) /\
  (unit_within_tolerance q = true -> round_trip true w x y z = Returns q) /\
  (unit_within_tolerance q = false ->
   round_trip true w x y z = Throws not_unit_length) /\
  round_trip false w x y z = Returns q.
Proof.
  intros q. subst q.
  rewrite !round_trip_unfold. cbv zeta.
  set (q := Eigen.normalized (Eigen.normalized (Eigen.Build w x y z))).
  rewrite assert_unit_length_disabled.
  destruct (unit_within_tolerance q) eqn:Hunit.
  - rewrite (assert_unit_length_passes (UnitQuaternion_of_uq (Quaternion_of_Base q)) Hunit).
    cbn [completion_bind]. split; [| split; [| split]].
    + intros r E. injection E as <-. split; [reflexivity | exact Hunit].
    + reflexivity.
    + discriminate.
    + reflexivity.
  - rewrite (assert_unit_length_fires (UnitQuaternion_of_uq (Quaternion_of_Base q)) Hunit).
    cbn [completion_bind]. split; [| split; [| split]].
    + discriminate.
    + discriminate.
    + reflexivity.
    + reflexivity.
Qed.

End promotion.

(** The promotion of a quaternion of doubles passes its check when the
    coefficients are numbers and their Euclidean norm is between [2^-480]
    and [2^480]: [toUnitQuaternion()] then returns, with the checks enabled,
    the [UnitQuaternion] that holds the normalized coefficients. *)
Lemma Quaternion_toUnitQuaternion_in_range (this : Quaternion double) :
  finite_coefficients (Quaternion_toImplementation this) ->
  (pow2 (-480) <= exact_norm (Quaternion_toImplementation this)
   <= pow2 480)%R ->
  Quaternion_toUnitQuaternion true this
  = Returns (UnitQuaternion_of_uq (Quaternion_normalized this)).
Proof.
  destruct this as [q]. intros Fq HN.
  destruct (normalized_exact q Fq HN) as (_ & _ & Hc).
  unfold Quaternion_toUnitQuaternion, UnitQuaternion_ctor_Implementation.
  cbn [Quaternion_toImplementation].
  apply validated_passes. apply assert_unit_length_passes. exact Hc.
Qed.

(** C6, as the code has it: [toUnitQuaternion()] hands the normalized
    coefficients to the validating constructor, so the promotion is checked
    like any other construction.  In every precision, with the checks
    enabled, the round trip returns exactly when the norm of the
    twice-normalized coefficients, as [norm()] computes it, is within [1e-6]
    of [1]; what it returns are those coefficients.  Otherwise it throws the
    invariant-violation assertion.  Without checks it returns the
    twice-normalized coefficients whatever their norm.  In double precision
    the check passes for every quadruple of numbers whose Euclidean norm is
    between [2^-480] and [2^480]: the round trip returns, the exact
    Euclidean norm of what it returns is within [1e-6] of [1], and the
    promotion [toUnitQuaternion()] of such a quadruple returns as well. *)
Theorem round_trip_validated :
  (forall (PrimType : Type) (ops : Scalar PrimType) (w x y z : PrimType),
      let q := Eigen.normalized (Eigen.normalized (Eigen.Build w x y z)) in
      (forall r, round_trip true w x y z = Returns r ->
                 r = q /\ unit_within_tolerance r = true) /\
      (unit_within_tolerance q = true -> round_trip true w x y z = Returns q) /\
      (unit_within_tolerance q = false ->
       round_trip true w x y z = Throws not_unit_length) /\
      round_trip false w x y z = Returns q) /\
  (forall w x y z : double,
      finite w -> finite x -> finite y -> finite z ->
      (pow2 (-480) <= exact_norm (Eigen.Build w x y z) <= pow2 480)%R ->
      let q := Eigen.normalized (Eigen.normalized (Eigen.Build w x y z)) in
      round_trip true w x y z = Returns q /\
      unit_within_tolerance q = true /\
      finite_coefficients q /\
      (Rabs (exact_norm q - 1) <= / 1000000)%R /\
      Quaternion_toUnitQuaternion true (Quaternion_ctor w x y z)
      = Returns (UnitQuaternion_of_uq
                   (Quaternion_normalized (Quaternion_ctor w x y z)))).
Proof.
  split.
  - intros PrimType ops w x y z. apply round_trip_checked.
  - intros w x y z Fw Fx Fy Fz HN q.
    destruct (normalized_twice_exact w x y z Fw Fx Fy Fz HN) as (Fq & Hq & Hc).
    fold q in Fq, Hq, Hc.
    split; [| split; [exact Hc | split; [exact Fq | split; [exact Hq |]]]].
    + exact (proj1 (proj2 (round_trip_checked w x y z)) Hc).
    + apply Quaternion_toUnitQuaternion_in_range; [| exact HN].
      repeat split; assumption.
Qed.

(** Witness of C6: the quadruple [(1, 2, 3, 4)] in double precision, of
    Euclidean norm [sqrt 30]. *)
Lemma round_trip_validated_witness :
  let q : Eigen.Quaternion double :=
    Eigen.normalized (Eigen.normalized (Eigen.Build 1 2 3 4)) in
  (let p : Eigen.Quaternion double := Eigen.Build 1 2 3 4 in
   (pow2 (-480) <= exact_norm p <= pow2 480)%R) /\
  round_trip true 1 2 3 4 = Returns q /\
  unit_within_tolerance q = true /\
  (Rabs (exact_norm q - 1) <= / 1000000)%R.
Proof.
  cbv zeta. split; [exact exact_norm_1234 |].
  destruct (proj2 round_trip_validated 1 2 3 4) as (_ & Hc & _ & Hq & _);
    try (vm_compute; reflexivity).
  - exact exact_norm_1234.
  - split; [| split; [exact Hc | exact Hq]].
    exact (proj1 (proj2 (proj1 round_trip_validated double _ 1 2 3 4)) Hc).
Defined.

(** Counterexample to C6 as the spec states it: the quadruple
    [(1e200, 0, 0, 0)] has a non-zero norm, but its square is beyond the
    range of a double: [norm()] is infinite, [normalized()] gives
    [(0, 0, 0, 0)], the normalization in [toUnitQuaternion()] divides zero
    by zero, and the constructor throws. *)
Lemma round_trip_overflow :
  let w : double := 1e200 in
  (w =? 0) = false /\
  Eigen.norm (Eigen.Build w 0 0 0) = infinity /\
  Eigen.normalized (Eigen.Build w 0 0 0) = Eigen.Build 0 0 0 0 /\
  round_trip true w 0 0 0 = Throws not_unit_length.
Proof. vm_compute. repeat split. Qed.

(** Round trips that succeed, in both precisions, and one that fails by
    underflow of the squares. *)
Example round_trip_examples :
  (exists q, round_trip true (1 : double) 2 3 4 = Returns q) /\
  (exists q, round_trip true (-3 : double) 0 4 0 = Returns q) /\
  (exists q, round_trip true
               (constant 1 : float32) (constant 2) (constant 3) (constant 4)
             = Returns q) /\
  round_trip true (1e-200 : double) 0 0 0 = Throws not_unit_length.
Proof. vm_compute. repeat split; eexists; reflexivity. Qed.

(** ** Accuracy of norm(), normalized() and the promotion *)

(** [norm()] returns the Euclidean norm of the four coefficients, up to
    rounding: for every [Quaternion] of doubles that are numbers and whose
    Euclidean norm is between [2^-480] and [2^480], the result is a number
    and differs from the Euclidean norm by at most [12 * 2^-53] of it. *)
Theorem Quaternion_norm_accurate :
  forall this : Quaternion double,
    finite_coefficients (Quaternion_toImplementation this) ->
    (pow2 (-480) <= exact_norm (Quaternion_toImplementation this)
     <= pow2 480)%R ->
    finite (Quaternion_norm this) /\
    (Rabs (F2R (Quaternion_norm this)
           - exact_norm (Quaternion_toImplementation this))
     <= 12 * pow2 (-53) * exact_norm (Quaternion_toImplementation this))%R.
Proof.
  intros [q] Fq HN. exact (norm_exact_accurate q Fq HN).
Qed.

(** Witness: the quaternion [(1, 2, 3, 4)]. *)
Lemma Quaternion_norm_accurate_witness :
  let this : Quaternion double := Quaternion_ctor 1 2 3 4 in
  finite (Quaternion_norm this) /\
  (Rabs (F2R (Quaternion_norm this)
         - exact_norm (Quaternion_toImplementation this))
   <= 12 * pow2 (-53) * exact_norm (Quaternion_toImplementation this))%R.
Proof.
  cbv zeta. apply Quaternion_norm_accurate.
  - repeat split; vm_compute; reflexivity.
  - exact exact_norm_1234.
Defined.

(** [normalized()] brings a quaternion to unit norm, up to rounding: for
    every [Quaternion] of doubles that are numbers and whose Euclidean norm
    is between [2^-480] and [2^480], the coefficients of the normalized copy
    are numbers and their Euclidean norm is within [200 * 2^-53] of [1]. *)
Theorem Quaternion_normalized_unit :
  forall this : Quaternion double,
    finite_coefficients (Quaternion_toImplementation this) ->
    (pow2 (-480) <= exact_norm (Quaternion_toImplementation this)
     <= pow2 480)%R ->
    let copy := Quaternion_normalized this in
    finite_coefficients (Quaternion_toImplementation copy) /\
    (Rabs (exact_norm (Quaternion_toImplementation copy) - 1)
     <= 200 * pow2 (-53))%R.
Proof.
  intros [q] Fq HN copy.
  destruct (normalized_exact q Fq HN) as (Fr & Hr & _).
  split; [exact Fr | exact Hr].
Qed.

(** Witness: the quaternion [(1, 2, 3, 4)]. *)
Lemma Quaternion_normalized_unit_witness :
  let this : Quaternion double := Quaternion_ctor 1 2 3 4 in
  let copy := Quaternion_normalized this in
  (Rabs (exact_norm (Quaternion_toImplementation copy) - 1)
   <= 200 * pow2 (-53))%R.
Proof.
  cbv zeta.
  refine (proj2 (Quaternion_normalized_unit (Quaternion_ctor 1 2 3 4) _ _)).
  - repeat split; vm_compute; reflexivity.
  - exact exact_norm_1234.
Defined.

(** ** Conjugation *)

Section conjugate.
Context {PrimType : Type} `{ScalarLaws PrimType}.

Lemma Eigen_conjugate_involutive (q : Eigen.Quaternion PrimType) :
  Eigen.conjugate (Eigen.conjugate q) = q.
Proof.
  destruct q as [w x y z]. unfold Eigen.conjugate. cbn.
  rewrite !negate_involutive. reflexivity.
Qed.

(** Conjugation preserves the computed norm exactly, not just up to
    rounding. *)
Lemma Eigen_norm_conjugate (q : Eigen.Quaternion PrimType) :
  Eigen.norm (Eigen.conjugate q) = Eigen.norm q.
Proof.
  destruct q as [w x y z].
  unfold Eigen.norm, Eigen.squaredNorm, Eigen.conjugate. cbn.
  rewrite !times_negate_negate. reflexivity.
Qed.

End conjugate.

(** [q.conjugate().conjugate()] equals [q] coefficient by coefficient, for
    every [Quaternion] in double and in single precision, whatever its
    coefficients (infinities and NaN included). *)
Theorem Quaternion_conjugate_involutive :
  (forall q : Quaternion double,
      Quaternion_conjugate (Quaternion_conjugate q) = q) /\
  (forall q : Quaternion float32,
      Quaternion_conjugate (Quaternion_conjugate q) = q).
Proof.
  split; intros [q]; unfold Quaternion_conjugate, Quaternion_ctor_Base; cbn;
    rewrite Eigen_conjugate_involutive; reflexivity.
Qed.

(** [UnitQuaternion::conjugate()] goes through the validating constructor.
    On a unit quaternion that passes the assertion it returns, since the
    norm of the conjugate is the norm of the receiver, and conjugating twice
    gives the receiver back.  This holds in double and in single precision,
    with and without checks. *)
Theorem UnitQuaternion_conjugate_involutive :
  forall (PrimType : Type) (ops : Scalar PrimType) (L : ScalarLaws PrimType)
         (checks : bool) (u : UnitQuaternion PrimType),
    assert_unit_length checks u = Returns tt ->
    (v <- UnitQuaternion_conjugate checks u ;;
     UnitQuaternion_conjugate checks v)%completion = Returns u.
Proof.
  intros PrimType ops L checks [[q]] Hu.
  assert (Hc : assert_unit_length checks
                 (UnitQuaternion_of_uq (Quaternion_of_Base (Eigen.conjugate q)))
               = Returns tt).
  { revert Hu. unfold assert_unit_length, UnitQuaternion_norm, Quaternion_norm.
    cbn. rewrite Eigen_norm_conjugate. exact (fun e => e). }
  unfold UnitQuaternion_conjugate, UnitQuaternion_ctor_Base, Quaternion_conjugate,
    Quaternion_ctor_Base. cbn [uq Quaternion_toImplementation].
  rewrite Hc. cbn [completion_bind]. cbn [uq Quaternion_toImplementation].
  rewrite Eigen_conjugate_involutive, Hu. reflexivity.
Qed.

(** Witness of [UnitQuaternion_conjugate_involutive]: the unit quaternion
    [(0.6, 0.8, 0, 0)] in double precision, with the checks enabled. *)
Lemma UnitQuaternion_conjugate_involutive_witness :
  let u : UnitQuaternion double := UnitQuaternion_of_uq (Quaternion_ctor 0.6 0.8 0 0) in
  assert_unit_length true u = Returns tt /\
  (v <- UnitQuaternion_conjugate true u ;;
   UnitQuaternion_conjugate true v)%completion = Returns u.
Proof.
  cbv zeta.
  assert (Hu : assert_unit_length true
                 (UnitQuaternion_of_uq (Quaternion_ctor (0.6 : double) 0.8 0 0))
               = Returns tt) by (vm_compute; reflexivity).
  split; [exact Hu |].
  exact (UnitQuaternion_conjugate_involutive double _ _ true _ Hu).
Defined.

End quaternion_properties.

(** * Edge cases of the quaternion classes *)

Module more_quaternion_properties.
Import ieee_facts real_value binary64_rounding norm_accuracy quaternion_properties.
Import binary64_shape.

(** [UnitQuaternion::operator ()(const UnitQuaternion &)] does not return:
    its body assigns to the member [uq] with [Quaternion::operator =],
    which calls itself.  For every bound on the depth of the calls, every
    target and every source, the source being the target included, the call
    has not returned when the bound is reached. *)
Theorem UnitQuaternion_call_UnitQuaternion_never_returns :
  forall (PrimType : Type) (fuel : nat) (this other : UnitQuaternion PrimType),
    UnitQuaternion_call_UnitQuaternion fuel this other = None /\
    UnitQuaternion_call_UnitQuaternion fuel this this = None.
Proof.
  intros PrimType fuel this other.
  unfold UnitQuaternion_call_UnitQuaternion.
  rewrite !Quaternion_assign_out_of_fuel. split; reflexivity.
Qed.

(** ** A zero norm *)

(** Division by a norm that compares equal to zero gives NaN or an
    infinity. *)
Lemma divide_by_zero_norm (c n : double) :
  (n =? 0)%float = true ->
  (c / n)%float = nan \/ (c / n)%float = infinity \/ (c / n)%float = neg_infinity.
Proof.
  intros Hn. rewrite FloatAxioms.eqb_spec in Hn.
  replace (Prim2SF 0%float) with (S754_zero false) in Hn by (vm_compute; reflexivity).
  rewrite <- (SF2Prim_Prim2SF (c / n)%float), FloatAxioms.div_spec.
  unfold SF64div, SFeqb in *.
  destruct (Prim2SF n) as [sn | sn | | sn mn en]; cbn [SFcompare] in Hn;
    try discriminate Hn; try (destruct sn; discriminate Hn).
  destruct (Prim2SF c) as [sc | sc | | sc mc ec]; cbn [SFdiv].
  - left. reflexivity.
  - destruct (xorb sc sn); [right; right | right; left]; reflexivity.
  - left. reflexivity.
  - destruct (xorb sc sn); [right; right | right; left]; reflexivity.
Qed.

(** The same in single precision. *)
Lemma SFdiv_by_zero (c : spec_float) s :
  let r := SFdiv binary32.prec binary32.emax c (S754_zero s) in
  r = S754_nan \/ r = S754_infinity false \/ r = S754_infinity true.
Proof.
  destruct c as [sc | sc | | sc mc ec]; cbn [SFdiv].
  - left. reflexivity.
  - destruct (xorb sc s); [right; right | right; left]; reflexivity.
  - left. reflexivity.
  - destruct (xorb sc s); [right; right | right; left]; reflexivity.
Qed.

(** A zero norm is not guarded.  For every [Quaternion] whose [norm()] is
    zero, in double and in single precision, [normalized()] divides by
    zero: no coefficient of the result is a number, [toUnitQuaternion()]
    throws the unit-length assertion when the checks are enabled, and
    returns a [UnitQuaternion] holding those coefficients when they are
    not. *)
Theorem Quaternion_toUnitQuaternion_zero_norm :
  (forall this : Quaternion double,
      (Quaternion_norm this =? 0)%float = true ->
      Quaternion_toUnitQuaternion true this = Throws not_unit_length /\
      Quaternion_toUnitQuaternion false this
        = Returns (UnitQuaternion_of_uq (Quaternion_normalized this)) /\
      is_finite (Quaternion_w (Quaternion_normalized this)) = false /\
      is_finite (Quaternion_x (Quaternion_normalized this)) = false /\
      is_finite (Quaternion_y (Quaternion_normalized this)) = false /\
      is_finite (Quaternion_z (Quaternion_normalized this)) = false) /\
  (forall (this : Quaternion float32) (s : bool),
      Quaternion_norm this = S754_zero s ->
      Quaternion_toUnitQuaternion true this = Throws not_unit_length /\
      Quaternion_toUnitQuaternion false this
        = Returns (UnitQuaternion_of_uq (Quaternion_normalized this)) /\
      SFfinite (Quaternion_w (Quaternion_normalized this)) = false /\
      SFfinite (Quaternion_x (Quaternion_normalized this)) = false /\
      SFfinite (Quaternion_y (Quaternion_normalized this)) = false /\
      SFfinite (Quaternion_z (Quaternion_normalized this)) = false).
Proof.
  split.
  - intros [[w x y z]] Hn.
    unfold Quaternion_toUnitQuaternion, UnitQuaternion_ctor_Implementation,
      Quaternion_normalized, Quaternion_ctor_Base, Quaternion_w, Quaternion_x,
      Quaternion_y, Quaternion_z, Quaternion_norm in *.
    cbn [Quaternion_toImplementation] in *.
    unfold Eigen.normalized. cbn [Eigen.w Eigen.x Eigen.y Eigen.z].
    set (n := Eigen.norm (Eigen.Build w x y z)) in *.
    change (divide w n) with (w / n)%float. change (divide x n) with (x / n)%float.
    change (divide y n) with (y / n)%float. change (divide z n) with (z / n)%float.
    destruct (divide_by_zero_norm w n Hn) as [-> | [-> | ->]];
      destruct (divide_by_zero_norm x n Hn) as [-> | [-> | ->]];
      destruct (divide_by_zero_norm y n Hn) as [-> | [-> | ->]];
      destruct (divide_by_zero_norm z n Hn) as [-> | [-> | ->]];
      vm_compute; repeat split.
  - intros [[w x y z]] s Hn.
    unfold Quaternion_toUnitQuaternion, UnitQuaternion_ctor_Implementation,
      Quaternion_normalized, Quaternion_ctor_Base, Quaternion_w, Quaternion_x,
      Quaternion_y, Quaternion_z, Quaternion_norm in *.
    cbn [Quaternion_toImplementation] in *.
    unfold Eigen.normalized. cbn [Eigen.w Eigen.x Eigen.y Eigen.z].
    rewrite Hn.
    change (@divide float32 _) with (SFdiv binary32.prec binary32.emax).
    destruct (SFdiv_by_zero w s) as [-> | [-> | ->]];
      destruct (SFdiv_by_zero x s) as [-> | [-> | ->]];
      destruct (SFdiv_by_zero y s) as [-> | [-> | ->]];
      destruct (SFdiv_by_zero z s) as [-> | [-> | ->]];
      vm_compute; repeat split.
Qed.

(** Witness: the default quaternion, all of whose coefficients are zero,
    in both precisions, and a quaternion whose squares underflow. *)
Lemma Quaternion_toUnitQuaternion_zero_norm_witness :
  Quaternion_toUnitQuaternion true (Quaternion_default (PrimType := double))
    = Throws not_unit_length /\
  Quaternion_toUnitQuaternion true (Quaternion_ctor (1e-200 : double) 0 0 0)
    = Throws not_unit_length /\
  SFfinite (Quaternion_w (Quaternion_normalized
                            (Quaternion_default (PrimType := float32)))) = false.
Proof.
  split; [| split].
  - refine (proj1 (proj1 Quaternion_toUnitQuaternion_zero_norm _ _)).
    vm_compute. reflexivity.
  - refine (proj1 (proj1 Quaternion_toUnitQuaternion_zero_norm _ _)).
    vm_compute. reflexivity.
  - refine (proj1 (proj2 (proj2 (proj2 Quaternion_toUnitQuaternion_zero_norm
                                   Quaternion_default false _)))).
    vm_compute. reflexivity.
Defined.

(** ** The escape hatch and the next validation *)

(** [UnitQuaternion::conjugate()] validates the receiver itself: the norm
    of the conjugate is the norm of the receiver, bit for bit, so with the
    checks enabled [conjugate()] throws exactly when the receiver is outside
    the tolerance, as after a write through a non-const accessor, and
    returns the conjugate otherwise. *)
Theorem UnitQuaternion_conjugate_revalidates :
  forall (PrimType : Type) (ops : Scalar PrimType) (L : ScalarLaws PrimType)
         (u : UnitQuaternion PrimType),
    (unit_within_tolerance (UnitQuaternion_toImplementation u) = false ->
     UnitQuaternion_conjugate true u = Throws not_unit_length) /\
    (unit_within_tolerance (UnitQuaternion_toImplementation u) = true ->
     UnitQuaternion_conjugate true u
     = Returns (UnitQuaternion_of_uq (Quaternion_conjugate (uq u)))) /\
    UnitQuaternion_norm (UnitQuaternion_of_uq (Quaternion_conjugate (uq u)))
    = UnitQuaternion_norm u.
Proof.
  intros PrimType ops L [[q]].
  assert (Hn : Eigen.norm (Eigen.conjugate q) = Eigen.norm q)
    by apply Eigen_norm_conjugate.
  assert (Hu : unit_within_tolerance (Eigen.conjugate q) = unit_within_tolerance q)
    by (unfold unit_within_tolerance; rewrite Hn; reflexivity).
  unfold UnitQuaternion_conjugate, UnitQuaternion_ctor_Base, Quaternion_conjugate,
    Quaternion_ctor_Base, UnitQuaternion_toImplementation, UnitQuaternion_norm,
    Quaternion_norm.
  cbn [uq Quaternion_toImplementation].
  split; [| split; [| exact Hn]]; intros Hq.
  - rewrite (assert_unit_length_fires
               (UnitQuaternion_of_uq (Quaternion_of_Base (Eigen.conjugate q))));
      [reflexivity |].
    unfold UnitQuaternion_toImplementation. cbn [uq Quaternion_toImplementation].
    rewrite Hu. exact Hq.
  - rewrite (assert_unit_length_passes
               (UnitQuaternion_of_uq (Quaternion_of_Base (Eigen.conjugate q))));
      [reflexivity |].
    unfold UnitQuaternion_toImplementation. cbn [uq Quaternion_toImplementation].
    rewrite Hu. exact Hq.
Qed.

(** Witness: the identity after the write [w() = 2], which no assertion
    guards; the next [conjugate()] throws. *)
Lemma UnitQuaternion_conjugate_revalidates_witness :
  let u : UnitQuaternion double :=
    UnitQuaternion_write_w 2 UnitQuaternion_default in
  unit_within_tolerance (UnitQuaternion_toImplementation u) = false /\
  UnitQuaternion_conjugate true u = Throws not_unit_length.
Proof.
  cbv zeta.
  assert (Hu : unit_within_tolerance
                 (UnitQuaternion_toImplementation
                    (UnitQuaternion_write_w (2 : double) UnitQuaternion_default))
               = false) by (vm_compute; reflexivity).
  split; [exact Hu |].
  exact (proj1 (UnitQuaternion_conjugate_revalidates double _ _ _) Hu).
Defined.

(** ** The element-wise copies *)

Section copies.
Context {PrimType PrimTypeIn : Type} `{Scalar PrimType}
        `{StaticCast PrimTypeIn PrimType}.

(** What the two element-wise copies into a [Quaternion] leave in it. *)
Lemma Quaternion_call_result (other : Quaternion PrimTypeIn) (this : Quaternion PrimType) :
  Quaternion_call_Quaternion other this
  = (Quaternion_of_Base (Eigen.cast (Quaternion_toImplementation other)), Returns tt).
Proof. destruct other as [[w x y z]], this as [[w0 x0 y0 z0]]. reflexivity. Qed.

Lemma Quaternion_call_UnitQuaternion_result
    (other : UnitQuaternion PrimTypeIn) (this : Quaternion PrimType) :
  Quaternion_call_UnitQuaternion other this
  = (Quaternion_of_Base (Eigen.cast (UnitQuaternion_toImplementation other)), Returns tt).
Proof. destruct other as [[[w x y z]]], this as [[w0 x0 y0 z0]]. reflexivity. Qed.

End copies.

Lemma cast_same (PrimType : Type) (q : Eigen.Quaternion PrimType) :
  Eigen.cast (H := StaticCast_same PrimType) q = q.
Proof. destruct q. reflexivity. Qed.

(** The element-wise copies into a [Quaternion] work where [operator =]
    does not: with source and target of one precision, [operator ()] leaves
    the source in the target whatever the target held, for a [Quaternion]
    and for a [UnitQuaternion] source; a [UnitQuaternion] built from the copy
    of a valid [UnitQuaternion] is that [UnitQuaternion] again. *)
Theorem Quaternion_call_copies :
  forall (PrimType : Type) (ops : Scalar PrimType) (checks : bool)
         (this : Quaternion PrimType),
    (forall other : Quaternion PrimType,
        Quaternion_call_Quaternion (H0 := StaticCast_same PrimType) other this
        = (other, Returns tt)) /\
    (forall other : UnitQuaternion PrimType,
        Quaternion_call_UnitQuaternion (H0 := StaticCast_same PrimType) other this
        = (uq other, Returns tt) /\
        (assert_unit_length checks other = Returns tt ->
         UnitQuaternion_ctor_Base checks
           (fst (Quaternion_call_UnitQuaternion
                   (H0 := StaticCast_same PrimType) other this))
         = Returns other)).
Proof.
  intros PrimType ops checks this. split.
  - intros other. rewrite Quaternion_call_result, cast_same.
    destruct other. reflexivity.
  - intros other.
    assert (E : Quaternion_call_UnitQuaternion
                  (H0 := StaticCast_same PrimType) other this
                = (uq other, Returns tt)).
    { rewrite Quaternion_call_UnitQuaternion_result.
      unfold UnitQuaternion_toImplementation. rewrite cast_same.
      destruct other as [[q]]. reflexivity. }
    split; [exact E |].
    intros Hu. rewrite E. cbn [fst].
    unfold UnitQuaternion_ctor_Base. destruct other as [[q]].
    cbn [uq Quaternion_toImplementation Quaternion_ctor_Base].
    unfold Quaternion_ctor_Base. rewrite Hu. reflexivity.
Qed.

(** Witness: the copy of the identity into the zero quaternion. *)
Lemma Quaternion_call_copies_witness :
  let u : UnitQuaternion double := UnitQuaternion_default in
  UnitQuaternion_ctor_Base true
    (fst (Quaternion_call_UnitQuaternion
            (H0 := StaticCast_same double) u Quaternion_default))
  = Returns u.
Proof.
  cbv zeta.
  refine (proj2 (proj2 (Quaternion_call_copies double _ true Quaternion_default)
                   UnitQuaternion_default) _).
  vm_compute. reflexivity.
Defined.

End more_quaternion_properties.

(** * The sign of the norm *)

Module norm_sign.
Import real_value binary64_rounding norm_accuracy binary64_order binary64_shape.
Import Mod_special_values.

Local Abbreviation prec := 53%Z (only parsing).
Local Abbreviation emax := 1024%Z (only parsing).

Lemma is_nan_isnan (x : double) : is_nan x = isnan (Prim2SF x).
Proof.
  destruct (Prim2SF x) as [s | s | | s m e] eqn:E; cbn [isnan];
    [apply is_nan_false; rewrite E; discriminate ..
    | apply is_nan_true; exact E
    | apply is_nan_false; rewrite E; discriminate].
Qed.

(** Rounding keeps the sign and gives no NaN. *)
Lemma binary_round_aux_shape s m e l v :
  (0 <= m)%Z -> inloc (v / pow2 e) m l ->
  (l = loc_Exact \/ (e <= fexp prec emax (Zdigits2 m + e))%Z) ->
  let r := binary_round_aux prec emax s m e l in
  isnan r = false /\ (s = false -> nonneg_or_nan r).
Proof.
  intros Hm Hloc Hcase.
  destruct (binary_round_aux_correct s m e l v Hm Hloc Hcase)
    as (m' & e' & _ & Hr & _).
  cbv zeta. rewrite Hr.
  destruct m'; [split; [reflexivity | intros ->; reflexivity] | |
                split; [reflexivity | intros ->; reflexivity]].
  destruct (e' <=? 971)%Z; (split; [reflexivity | intros ->; reflexivity]).
Qed.

Lemma binary_round_shape s m e :
  let r := binary_round prec emax s m e in
  isnan r = false /\ (s = false -> nonneg_or_nan r).
Proof.
  unfold binary_round.
  destruct (shl_align m e (fexp prec emax (Zpos (digits2_pos m) + e))) as [mz ez].
  apply (binary_round_aux_shape s (Zpos mz) ez loc_Exact (IZR (Zpos mz) * pow2 ez));
    [lia | | left; reflexivity].
  cbn [inloc]. pose proof (pow2_pos ez). field. lra.
Qed.

(** A square is not below zero, and a NaN only for a NaN. *)
Lemma SFmul_square a :
  nonneg_or_nan (SFmul prec emax a a) /\ isnan (SFmul prec emax a a) = isnan a.
Proof.
  destruct a as [s | s | | s m e]; cbn [SFmul isnan nonneg_or_nan];
    try (split; [destruct s |]; reflexivity); [split; reflexivity |].
  assert (Hloc : inloc (IZR (Zpos (m * m)) * pow2 (e + e) / pow2 (e + e))
                   (Zpos (m * m)) loc_Exact).
  { cbn [inloc]. pose proof (pow2_pos (e + e)). field. lra. }
  destruct (binary_round_aux_shape (xorb s s) (Zpos (m * m)) (e + e) loc_Exact _
              ltac:(lia) Hloc (or_introl eq_refl)) as [Hn Hs].
  cbv zeta in Hn, Hs. split; [apply Hs; destruct s; reflexivity | exact Hn].
Qed.

Lemma SFadd_nonneg a b :
  nonneg_or_nan a -> nonneg_or_nan b ->
  nonneg_or_nan (SFadd prec emax a b) /\
  isnan (SFadd prec emax a b) = isnan a || isnan b.
Proof.
  destruct a as [sa | sa | | sa ma ea], b as [sb | sb | | sb mb eb];
    cbn [nonneg_or_nan]; intros Ha Hb; subst; cbn [SFadd isnan Bool.eqb orb];
    try (split; reflexivity).
  cbn [cond_Zopp Z.add].
  cbn [binary_normalize].
  destruct (binary_round_shape false
              (fst (shl_align ma ea (Z.min ea eb)) + fst (shl_align mb eb (Z.min ea eb)))
              (Z.min ea eb)) as [Hn Hs].
  cbv zeta in Hn, Hs. split; [apply Hs; reflexivity | exact Hn].
Qed.

Lemma SFsqrt_nonneg a :
  nonneg_or_nan a ->
  nonneg_or_nan (SFsqrt prec emax a) /\ isnan (SFsqrt prec emax a) = isnan a.
Proof.
  destruct a as [s | s | | s m e]; cbn [nonneg_or_nan]; intros Ha; subst;
    cbn [SFsqrt isnan nonneg_or_nan]; try (split; reflexivity).
  pose proof (SFsqrt_core_binary_correct m e) as Hcore.
  destruct (SFsqrt_core_binary prec emax (Zpos m) e) as [[q e'] l].
  destruct Hcore as (Hq & Hloc & Hdig).
  destruct (binary_round_aux_shape false q e' l _ ltac:(lia) Hloc (or_intror Hdig))
    as [Hn Hs].
  cbv zeta in Hn, Hs. split; [apply Hs; reflexivity | exact Hn].
Qed.

(** The norm of the kernel is not below zero, and a NaN exactly when a
    coefficient is. *)
Lemma Eigen_norm_shape (w x y z : double) :
  let n := Prim2SF (Eigen.norm (Eigen.Build w x y z)) in
  nonneg_or_nan n /\
  isnan n = isnan (Prim2SF x) || isnan (Prim2SF y) || isnan (Prim2SF z)
            || isnan (Prim2SF w).
Proof.
  cbv zeta.
  change (Eigen.norm (Eigen.Build w x y z))
    with (PrimFloat.sqrt (x * x + y * y + z * z + w * w)%float).
  rewrite FloatAxioms.sqrt_spec, !FloatAxioms.add_spec, !FloatAxioms.mul_spec.
  unfold SF64sqrt, SF64add, SF64mul, FloatOps.prec, FloatOps.emax.
  destruct (SFmul_square (Prim2SF x)) as [Px Nx].
  destruct (SFmul_square (Prim2SF y)) as [Py Ny].
  destruct (SFmul_square (Prim2SF z)) as [Pz Nz].
  destruct (SFmul_square (Prim2SF w)) as [Pw Nw].
  destruct (SFadd_nonneg _ _ Px Py) as [P1 N1].
  destruct (SFadd_nonneg _ _ P1 Pz) as [P2 N2].
  destruct (SFadd_nonneg _ _ P2 Pw) as [P3 N3].
  destruct (SFsqrt_nonneg _ P3) as [P4 N4].
  split; [exact P4 |].
  rewrite N4, N3, N2, N1, Nx, Ny, Nz, Nw. reflexivity.
Qed.

Lemma nonneg_not_below_zero (n : double) :
  nonneg_or_nan (Prim2SF n) -> (n <? 0)%float = false.
Proof.
  rewrite FloatAxioms.ltb_spec.
  replace (Prim2SF 0%float) with (S754_zero false) by (vm_compute; reflexivity).
  destruct (Prim2SF n) as [s | s | | s m e]; cbn [nonneg_or_nan]; intros Hn; subst;
    reflexivity.
Qed.

(** [norm()] is never below zero and is a NaN exactly when a coefficient is
    one: for every [Quaternion] of doubles, infinite and NaN coefficients
    included, [norm() < 0] is false and [norm()] is a NaN if and only if
    [w], [x], [y] or [z] is a NaN.  The same holds of the norm of a
    [UnitQuaternion]. *)
Theorem norm_never_negative :
  (forall this : Quaternion double,
     (Quaternion_norm this <? 0)%float = false /\
     is_nan (Quaternion_norm this)
     = is_nan (Quaternion_w this) || is_nan (Quaternion_x this)
       || is_nan (Quaternion_y this) || is_nan (Quaternion_z this)) /\
  (forall this : UnitQuaternion double,
     (UnitQuaternion_norm this <? 0)%float = false /\
     is_nan (UnitQuaternion_norm this)
     = is_nan (UnitQuaternion_w this) || is_nan (UnitQuaternion_x this)
       || is_nan (UnitQuaternion_y this) || is_nan (UnitQuaternion_z this)).
Proof.
  assert (Hq : forall this : Quaternion double,
     (Quaternion_norm this <? 0)%float = false /\
     is_nan (Quaternion_norm this)
     = is_nan (Quaternion_w this) || is_nan (Quaternion_x this)
       || is_nan (Quaternion_y this) || is_nan (Quaternion_z this)).
  { intros [[w x y z]].
    destruct (Eigen_norm_shape w x y z) as [Hn Hnan]. cbv zeta in Hn, Hnan.
    split; [apply nonneg_not_below_zero; exact Hn |].
    rewrite !is_nan_isnan.
    change (Prim2SF (Quaternion_norm (Quaternion_of_Base (Eigen.Build w x y z))))
      with (Prim2SF (Eigen.norm (Eigen.Build w x y z))).
    rewrite Hnan. cbn.
    destruct (isnan (Prim2SF x)), (isnan (Prim2SF y)), (isnan (Prim2SF z)),
      (isnan (Prim2SF w)); reflexivity. }
  split; [exact Hq |].
  intros [q]. exact (Hq q).
Qed.

End norm_sign.
